(** * SearchService: ranked, highlighted search over the in-memory post index

    A shallow embedding of [com.devnote.blog.service.SearchService] and of the
    Java library calls it makes, followed by the properties of the search
    component.

    Conventions.
    - A Java [String] is a Rocq [string] each of whose characters stands for one
      UTF-16 code unit below 256 (ISO-8859-1 text); a nullable reference is an
      [option], [None] being [null].
    - A Java call has an [outcome]: it returns, it throws, or it leaves the
      fragment of [java.util.regex] that this development models.
    - [double] scores are IEEE binary64 primitive floats. *)

From Stdlib Require Import ZArith NArith List Ascii String Floats Lia Bool.
From Stdlib Require Import Sorted Permutation.
From stdpp Require Import gmap strings pretty list.

#[global] Arguments String.append !_ _ / : simpl nomatch.

(** ** Outcomes of Java calls *)

(** The two messages of an [IllegalArgumentException] that a search can meet:
    that of [searchPosts] for an empty query, and that of [List.subList] for
    fromIndex > toIndex. *)
Inductive illegal_argument : Type :=
| EmptyQuery
| FromIndexAfterToIndex.

Inductive exn : Type :=
| IllegalArgumentException (why : illegal_argument)
| IndexOutOfBoundsException      (* List.subList: an index out of range *)
| NullPointerException
| PatternSyntaxException         (* Pattern.compile *)
| RuntimeException (postId : Z). (* convertToPostResponse: no post of this id *)

Inductive outcome (A : Type) : Type :=
| Returns (a : A)
| Throws (e : exn)
| OutsideFragment.
Arguments Returns {A} a.
Arguments Throws {A} e.
Arguments OutsideFragment {A}.

Definition outcome_bind {A B} (f : A → outcome B) (o : outcome A) : outcome B :=
  match o with
  | Returns a => f a
  | Throws e => Throws e
  | OutsideFragment => OutsideFragment
  end.

#[global] Instance outcome_mbind : MBind outcome := @outcome_bind.
#[global] Instance outcome_mret : MRet outcome := @Returns.
#[global] Instance outcome_fmap : FMap outcome :=
  λ A B f o, outcome_bind (λ a, Returns (f a)) o.

(** Dereferencing a nullable reference. *)
Definition nonnull {A} (r : option A) : outcome A :=
  match r with
  | Some a => Returns a
  | None => Throws NullPointerException
  end.

(** ** java.lang.String *)

Module JavaString.

Definition code (c : ascii) : N := N_of_ascii c.

(** [Character.toLowerCase] on ISO-8859-1: A-Z, and the accented capitals
    U+00C0-U+00DE except the multiplication sign U+00D7. *)
Definition Character_toLowerCase (c : ascii) : ascii :=
  let n := code c in
  if ((65 <=? n) && (n <=? 90) || (192 <=? n) && (n <=? 222) && negb (n =? 215))%N
  then ascii_of_N (n + 32) else c.

Fixpoint toLowerCase (s : string) : string :=
  match s with
  | EmptyString => EmptyString
  | String c s' => String (Character_toLowerCase c) (toLowerCase s')
  end.

(** [String.trim] strips the characters with code at most U+0020. *)
Definition is_trimmed_char (c : ascii) : bool := (code c <=? 32)%N.

Fixpoint trim_leading (s : string) : string :=
  match s with
  | EmptyString => EmptyString
  | String c s' => if is_trimmed_char c then trim_leading s' else s
  end.

Fixpoint trim_trailing (s : string) : string :=
  match s with
  | EmptyString => EmptyString
  | String c s' =>
      match trim_trailing s' with
      | EmptyString => if is_trimmed_char c then EmptyString else String c EmptyString
      | r => String c r
      end
  end.

Definition trim (s : string) : string := trim_trailing (trim_leading s).

Definition isEmpty (s : string) : bool :=
  match s with EmptyString => true | _ => false end.

Fixpoint startsWith (s p : string) {struct p} : bool :=
  match p, s with
  | EmptyString, _ => true
  | String a p', String b s' => Ascii.eqb a b && startsWith s' p'
  | String _ _, EmptyString => false
  end.

(** [String.contains]: [p] occurs in [s] as a contiguous substring. *)
Fixpoint contains (s p : string) : bool :=
  startsWith s p ||
  match s with
  | EmptyString => false
  | String _ s' => contains s' p
  end.

(** [s.substring(0, n)] and [s.substring(n)], clamped to the length. *)
Fixpoint first_chars (n : nat) (s : string) : string :=
  match n, s with
  | S k, String c s' => String c (first_chars k s')
  | _, _ => EmptyString
  end.

Fixpoint skip_chars (n : nat) (s : string) : string :=
  match n, s with
  | S k, String _ s' => skip_chars k s'
  | _, _ => s
  end.

End JavaString.
Import JavaString.

(** ** java.util.regex, the modelled fragment

    A pattern of the fragment is an optional leading [(?i)], then a sequence of
    one-character atoms (a literal, [.], or [\s]), each with an optional
    quantifier [?], [*] or [+] and an optional [?] (lazy) or [+] (possessive)
    after it; the sequence may stand in one capturing group that spans it all.
    A dangling quantifier and an unclosed group are the syntax errors of the
    fragment; every other metacharacter leaves it. *)

Module Regex.

Inductive atom : Type := Lit (c : ascii) | AnyChar | WhiteSpace.
Inductive quant : Type := Once | Optional | Star | Plus.
Inductive greed : Type := Greedy | Lazy | Possessive.
Record item : Type := Item { it_atom : atom; it_quant : quant; it_greed : greed }.
Record pattern : Type :=
  Pattern { p_ci : bool; p_group : bool; p_items : list item }.

Inductive compiled : Type :=
| Compiled (p : pattern)
| SyntaxError
| NotInFragment.

(** What the parser holds while it reads the next character. *)
Inductive pending : Type :=
| PNone
| PAtom (a : atom)
| PQuant (a : atom) (q : quant)
| PEscape.

Definition is_quantifier (c : ascii) : option quant :=
  if Ascii.eqb c "?" then Some Optional
  else if Ascii.eqb c "*" then Some Star
  else if Ascii.eqb c "+" then Some Plus
  else None.

Definition is_other_meta (c : ascii) : bool :=
  existsb (Ascii.eqb c) ["["; "]"; "("; "{"; "}"; "^"; "$"; "|"]%char.

Definition flush (p : pending) (acc : list item) : list item :=
  match p with
  | PAtom a => Item a Once Greedy :: acc
  | PQuant a q => Item a q Greedy :: acc
  | _ => acc
  end.

Fixpoint parse_items (ci grouped : bool) (acc : list item) (p : pending)
    (s : string) : compiled :=
  match s with
  | EmptyString =>
      match p with
      | PEscape => NotInFragment
      | _ => if grouped then SyntaxError
             else Compiled (Pattern ci false (rev (flush p acc)))
      end
  | String c s' =>
      let at_atom (acc : list item) :=
        if Ascii.eqb c "." then parse_items ci grouped acc (PAtom AnyChar) s'
        else if Ascii.eqb c "\" then parse_items ci grouped acc PEscape s'
        else if Ascii.eqb c ")" then
          if grouped && isEmpty s' then Compiled (Pattern ci true (rev acc))
          else NotInFragment
        else if is_other_meta c then NotInFragment
        else match is_quantifier c with
             | Some _ => SyntaxError
             | None => parse_items ci grouped acc (PAtom (Lit c)) s'
             end in
      match p with
      | PEscape =>
          if Ascii.eqb c "s" then parse_items ci grouped acc (PAtom WhiteSpace) s'
          else NotInFragment
      | PQuant a q =>
          if Ascii.eqb c "?" then parse_items ci grouped (Item a q Lazy :: acc) PNone s'
          else if Ascii.eqb c "+" then
            parse_items ci grouped (Item a q Possessive :: acc) PNone s'
          else at_atom (flush p acc)
      | PAtom a =>
          match is_quantifier c with
          | Some q => parse_items ci grouped acc (PQuant a q) s'
          | None => at_atom (flush p acc)
          end
      | PNone => at_atom acc
      end
  end.

(** [Pattern.compile]. *)
Definition compile (regex : string) : compiled :=
  let '(ci, rest) :=
    match regex with
    | String "(" (String "?" (String "i" (String ")" r))) => (true, r)
    | _ => (false, regex)
    end in
  match rest with
  | String "(" (String "?" _) => NotInFragment
  | String "(" body => parse_items ci true [] PNone body
  | _ => parse_items ci false [] PNone rest
  end.

(** ASCII-only case folding, as [CASE_INSENSITIVE] without [UNICODE_CASE]. *)
Definition ASCII_toLower (c : ascii) : ascii :=
  let n := code c in
  if ((65 <=? n) && (n <=? 90))%N then ascii_of_N (n + 32) else c.

Definition is_line_terminator (c : ascii) : bool :=
  ((code c =? 10) || (code c =? 13) || (code c =? 133))%N.

Definition is_space (c : ascii) : bool :=
  ((code c =? 32) || (9 <=? code c) && (code c <=? 13))%N.

Definition atom_matches (ci : bool) (a : atom) (c : ascii) : bool :=
  match a with
  | Lit p => if ci then Ascii.eqb (ASCII_toLower p) (ASCII_toLower c)
             else Ascii.eqb p c
  | AnyChar => negb (is_line_terminator c)
  | WhiteSpace => is_space c
  end.

(** The number of leading characters of [s] that the atom matches. *)
Fixpoint span (ci : bool) (a : atom) (s : string) : nat :=
  match s with
  | String c s' => if atom_matches ci a c then S (span ci a s') else 0
  | EmptyString => 0
  end.

(** The repetition counts to try, in the order the matcher tries them, when
    [n] characters are available. *)
Definition candidates (q : quant) (g : greed) (n : nat) : list nat :=
  let lo := match q with Once | Plus => 1 | Optional | Star => 0 end in
  let hi := match q with Once | Optional => Nat.min n 1 | Star | Plus => n end in
  if hi <? lo then []
  else match g with
       | Greedy => rev (seq lo (S hi - lo))
       | Lazy => seq lo (S hi - lo)
       | Possessive => [hi]
       end.

Fixpoint first_match (f : nat → option nat) (ks : list nat) : option nat :=
  match ks with
  | [] => None
  | k :: ks' => match f k with Some r => Some r | None => first_match f ks' end
  end.

(** The length of the match of [its] at the start of [s], if there is one. *)
Fixpoint match_here (ci : bool) (its : list item) (s : string) : option nat :=
  match its with
  | [] => Some 0
  | it :: rest =>
      first_match
        (λ k, Nat.add k <$> match_here ci rest (skip_chars k s))
        (candidates (it_quant it) (it_greed it) (span ci (it_atom it) s))
  end.

(** Replacement strings: literal characters and [$n] group references. *)
Inductive repl_part : Type := RLit (c : ascii) | RGroup (n : N).

Definition digit_of (c : ascii) : option N :=
  if ((48 <=? code c) && (code c <=? 57))%N then Some (code c - 48)%N else None.

Fixpoint parse_replacement (s : string) : option (list repl_part) :=
  match s with
  | EmptyString => Some []
  | String "$" (String d s') =>
      match digit_of d with
      | Some n => cons (RGroup n) <$> parse_replacement s'
      | None => None
      end
  | String "$" EmptyString => None
  | String "\" _ => None
  | String c s' => cons (RLit c) <$> parse_replacement s'
  end.

Definition groups_exist (p : pattern) (parts : list repl_part) : bool :=
  forallb (λ part, match part with
                   | RLit _ => true
                   | RGroup n => (n <=? (if p_group p then 1 else 0))%N
                   end) parts.

(** Group 0 and the one group of the fragment both hold the whole match. *)
Fixpoint expand (parts : list repl_part) (matched : string) : string :=
  match parts with
  | [] => EmptyString
  | RLit c :: r => String c (expand r matched)
  | RGroup _ :: r => matched +:+ expand r matched
  end.

(** The [Matcher.find] / [appendReplacement] loop over the text that is left.
    [skip] characters of it still belong to the match found last. After an
    empty match the search resumes one character further. *)
Fixpoint replace_from (p : pattern) (parts : list repl_part) (s : string)
    (skip : nat) : string :=
  match skip with
  | S k =>
      match s with
      | EmptyString => EmptyString
      | String _ s' => replace_from p parts s' k
      end
  | O =>
      match match_here (p_ci p) (p_items p) s with
      | Some n =>
          expand parts (first_chars n s) +:+
          match s with
          | EmptyString => EmptyString
          | String c s' =>
              match n with
              | O => String c (replace_from p parts s' 0)
              | S k => replace_from p parts s' k
              end
          end
      | None =>
          match s with
          | EmptyString => EmptyString
          | String c s' => String c (replace_from p parts s' 0)
          end
      end
  end.

End Regex.

(** [String.replaceAll(regex, replacement)]. *)
Definition replaceAll (text regex replacement : string) : outcome string :=
  match Regex.compile regex with
  | Regex.SyntaxError => Throws PatternSyntaxException
  | Regex.NotInFragment => OutsideFragment
  | Regex.Compiled p =>
      match Regex.parse_replacement replacement with
      | Some parts =>
          if Regex.groups_exist p parts
          then Returns (Regex.replace_from p parts text 0)
          else OutsideFragment
      | None => OutsideFragment
      end
  end.

(** ** java.lang.Double, java.util.List, java.util.stream *)

Local Open Scope Z_scope.

(** [Double.compare]: the numerical order, then the order of the bit patterns
    ([-0.0] below [0.0], NaN above everything and equal to itself). *)
Definition Double_compare (d1 d2 : float) : Z :=
  if (d1 <? d2)%float then -1
  else if (d2 <? d1)%float then 1
  else if is_nan d1 then (if is_nan d2 then 0 else 1)
  else if is_nan d2 then -1
  else if Bool.eqb (get_sign d1) (get_sign d2) then 0
  else if get_sign d1 then -1 else 1.

(** The 32-bit [int] that a [long] or an [int] sum is narrowed to. *)
Definition int_cast (z : Z) : Z := (z + 2 ^ 31) mod 2 ^ 32 - 2 ^ 31.

(** [List.subList(fromIndex, toIndex)] with its range check. *)
Definition subList {A} (l : list A) (fromIndex toIndex : Z) : outcome (list A) :=
  if fromIndex <? 0 then Throws IndexOutOfBoundsException
  else if Z.of_nat (length l) <? toIndex then Throws IndexOutOfBoundsException
  else if toIndex <? fromIndex then Throws (IllegalArgumentException FromIndexAfterToIndex)
  else Returns (take (Z.to_nat (toIndex - fromIndex)) (drop (Z.to_nat fromIndex) l)).

(** [Stream.sorted(comparator)] on a sequential stream collects the elements in
    encounter order and sorts them with the list merge sort, which is stable;
    a stable sort has one result, computed here by insertion. *)
Fixpoint insert_by {A} (cmp : A → A → Z) (x : A) (l : list A) : list A :=
  match l with
  | [] => [x]
  | y :: l' => if cmp x y <=? 0 then x :: l else y :: insert_by cmp x l'
  end.

Definition Stream_sorted {A} (cmp : A → A → Z) (l : list A) : list A :=
  foldr (insert_by cmp) [] l.

(** ** Entities and data classes

    [Post] and [User] are the entities of the application, with the fields
    that the service reads. [Tag], [Category] and [PostResponse] are declared
    in files that are not at hand: they have the fields that the service reads
    or sets. The tag list of a post is a list of references, any of which may
    be null. The repository is the finite map of the posts by id, which is
    what [findById] reads. A [LocalDateTime] is an opaque instant. *)

Definition LocalDateTime : Type := Z.

Module Tag.
Record t : Type := { name : option string }.
End Tag.

Module User.
Record t : Type := { username : option string; profileImage : option string }.
End User.

Module Category.
Record t : Type := { name : option string; slug : option string }.
End Category.

Inductive Status : Type := DRAFT | PUBLISHED | ARCHIVED.

Module Post.
Record t : Type := {
  id : option Z;
  title : option string;
  slug : option string;
  excerpt : option string;
  content : option string;
  featuredImage : option string;
  status : option Status;
  viewCount : option Z;
  likeCount : option Z;
  commentCount : option Z;
  readingTime : option Z;
  isFeatured : option bool;
  publishedAt : option LocalDateTime;
  createdAt : option LocalDateTime;
  updatedAt : option LocalDateTime;
  author : option User.t;
  category : option Category.t;
  tags : option (list (option Tag.t))
}.
End Post.

(** The index entry. Its [id] is the key it is stored under; an entry is only
    ever built for the [put] that stores it, which rejects a null key. *)
Module SearchIndex.
Record t : Type := {
  id : Z;
  title : option string;
  content : option string;
  excerpt : option string;
  tags : list (option string)
}.
End SearchIndex.

Module SearchResult.
Record t : Type := {
  id : Z;
  title : option string;
  content : option string;
  excerpt : option string;
  highlightedTitle : option string;
  highlightedContent : option string;
  score : float
}.
End SearchResult.

Module PostResponse.
Record t : Type := {
  id : option Z;
  title : option string;
  slug : option string;
  excerpt : option string;
  content : option string;
  featuredImage : option string;
  status : option Status;
  viewCount : option Z;
  likeCount : option Z;
  commentCount : option Z;
  readingTime : option Z;
  isFeatured : option bool;
  publishedAt : option LocalDateTime;
  authorName : option string;
  authorProfileImage : option string;
  categoryName : option string;
  categorySlug : option string;
  highlightedTitle : option string;
  highlightedContent : option string;
  searchScore : float;
  createdAt : option LocalDateTime;
  updatedAt : option LocalDateTime
}.
End PostResponse.

(** ** org.springframework.data.domain *)

Record Pageable : Type := { pageNumber : Z; pageSize : Z }.

Definition getOffset (p : Pageable) : Z := pageNumber p * pageSize p.

Record Page : Type := {
  getContent : list PostResponse.t;
  getPageable : Pageable;
  getTotalElements : Z
}.

(** [new PageImpl<>(content, pageable, total)]: when the page is not empty and
    offset + page size exceeds the given total, the total that the page
    reports is offset + length of the page; otherwise it is the given one. *)
Definition PageImpl (content : list PostResponse.t) (pageable : Pageable)
    (total : Z) : Page :=
  {| getContent := content;
     getPageable := pageable;
     getTotalElements :=
       if negb (bool_decide (content = [])) &&
          (total <? getOffset pageable + pageSize pageable)
       then getOffset pageable + Z.of_nat (length content)
       else total |}.

(** ** SearchService *)

(** The fields of the service bean: the repository it was built with and the
    in-memory index it owns. *)
Record SearchService : Type := {
  postRepository : gmap Z Post.t;
  searchIndex : gmap Z SearchIndex.t
}.

(** A method call on the bean yields an outcome and the bean's fields after it. *)
Definition method (A : Type) : Type := SearchService → outcome A * SearchService.

Definition method_bind {A B} (f : A → method B) (m : method A) : method B :=
  λ this,
    match m this with
    | (Returns a, this') => f a this'
    | (Throws e, this') => (Throws e, this')
    | (OutsideFragment, this') => (OutsideFragment, this')
    end.

#[global] Instance method_mbind : MBind method := @method_bind.
#[global] Instance method_mret : MRet method := λ A a this, (Returns a, this).

(** A call that does not touch the fields. *)
Definition call {A} (o : outcome A) : method A := λ this, (o, this).
Definition get_searchIndex : method (gmap Z SearchIndex.t) :=
  λ this, (Returns (searchIndex this), this).
Definition get_postRepository : method (gmap Z Post.t) :=
  λ this, (Returns (postRepository this), this).
Definition set_searchIndex (m : gmap Z SearchIndex.t) : method unit :=
  λ this, (Returns tt, {| postRepository := postRepository this; searchIndex := m |}).

(** [highlightText]: the query is spliced into the pattern as it is. *)
Definition highlightText (text query : option string) : outcome (option string) :=
  match text, query with
  | Some t, Some q =>
      Some <$> replaceAll t ("(?i)(" +:+ q +:+ ")") "<mark>$1</mark>"
  | _, _ => Returns text
  end.

Definition normalizeQuery (query : string) : outcome string :=
  toLowerCase <$> replaceAll (trim query) "\s+" " ".

(** The loop over the tags, which leaves at the first tag that matches. *)
Fixpoint tagBonus (tags : list (option string)) (query : string) (score : float)
    : outcome float :=
  match tags with
  | [] => Returns score
  | tag :: rest =>
      tag ← nonnull tag;
      if contains (toLowerCase tag) (toLowerCase query)
      then Returns (score + 2)%float
      else tagBonus rest query score
  end.

Definition calculateRelevance (index : SearchIndex.t) (query : string)
    : outcome SearchResult.t :=
  let score := 0%float in
  let highlightedTitle := SearchIndex.title index in
  let highlightedContent := SearchIndex.content index in
  title ← nonnull (SearchIndex.title index);
  '(score, highlightedTitle) ←
    (if contains (toLowerCase title) (toLowerCase query)
     then h ← highlightText (SearchIndex.title index) (Some query);
          Returns ((score + 3)%float, h)
     else Returns (score, highlightedTitle));
  content ← nonnull (SearchIndex.content index);
  '(score, highlightedContent) ←
    (if contains (toLowerCase content) (toLowerCase query)
     then h ← highlightText (SearchIndex.content index) (Some query);
          Returns ((score + 1)%float, h)
     else Returns (score, highlightedContent));
  score ← tagBonus (SearchIndex.tags index) query score;
  Returns {| SearchResult.id := SearchIndex.id index;
             SearchResult.title := SearchIndex.title index;
             SearchResult.content := SearchIndex.content index;
             SearchResult.excerpt := SearchIndex.excerpt index;
             SearchResult.highlightedTitle := highlightedTitle;
             SearchResult.highlightedContent := highlightedContent;
             SearchResult.score := score |}.

(** The stream pipeline of [performSearch] over the values in encounter order. *)
Definition rank (values : list SearchIndex.t) (query : string)
    : outcome (list SearchResult.t) :=
  results ← mapM (λ index, calculateRelevance index query) values;
  Returns
    (Stream_sorted
       (λ a b, Double_compare (SearchResult.score b) (SearchResult.score a))
       (List.filter (λ result, (0 <? SearchResult.score result)%float) results)).

Definition convertToPostResponse (result : SearchResult.t) : method PostResponse.t :=
  repository ← get_postRepository;
  post ← call (match repository !! SearchResult.id result with
               | Some post => Returns post
               | None => Throws (RuntimeException (SearchResult.id result))
               end);
  author ← call (nonnull (Post.author post));
  mret {| PostResponse.id := Post.id post;
          PostResponse.title := Post.title post;
          PostResponse.slug := Post.slug post;
          PostResponse.excerpt := Post.excerpt post;
          PostResponse.content := Post.content post;
          PostResponse.featuredImage := Post.featuredImage post;
          PostResponse.status := Post.status post;
          PostResponse.viewCount := Post.viewCount post;
          PostResponse.likeCount := Post.likeCount post;
          PostResponse.commentCount := Post.commentCount post;
          PostResponse.readingTime := Post.readingTime post;
          PostResponse.isFeatured := Post.isFeatured post;
          PostResponse.publishedAt := Post.publishedAt post;
          PostResponse.authorName := User.username author;
          PostResponse.authorProfileImage := User.profileImage author;
          PostResponse.categoryName := Post.category post ≫= Category.name;
          PostResponse.categorySlug := Post.category post ≫= Category.slug;
          PostResponse.highlightedTitle := SearchResult.highlightedTitle result;
          PostResponse.highlightedContent := SearchResult.highlightedContent result;
          PostResponse.searchScore := SearchResult.score result;
          PostResponse.createdAt := Post.createdAt post;
          PostResponse.updatedAt := Post.updatedAt post |}.

(** [indexPost]: the entry is built first, the names being read off the tags
    one by one, and then stored; [put] rejects a null key. *)
Definition indexPost (post : Post.t) : method unit :=
  tags ← call (nonnull (Post.tags post));
  names ← call (mapM (λ tag, Tag.name <$> nonnull tag) tags);
  let index (id : Z) :=
    {| SearchIndex.id := id;
       SearchIndex.title := Post.title post;
       SearchIndex.content := Post.content post;
       SearchIndex.excerpt := Post.excerpt post;
       SearchIndex.tags := names |} in
  id ← call (nonnull (Post.id post));
  m ← get_searchIndex;
  set_searchIndex (<[id := index id]> m).

Definition removePostFromIndex (postId : option Z) : method unit :=
  id ← call (nonnull postId);
  m ← get_searchIndex;
  set_searchIndex (delete id m).

Section Traversal.

(** [searchIndex.values()] visits every value of the concurrent hash map
    once, in an order fixed by the table's layout, of which nothing else is
    assumed. *)
Variable values : gmap Z SearchIndex.t → list SearchIndex.t.
Hypothesis values_perm : ∀ m, values m ≡ₚ (map_to_list m).*2.

Definition performSearch (query : string) : method (list SearchResult.t) :=
  m ← get_searchIndex;
  call (rank (values m) query).

Definition searchPosts (query : option string) (pageable : Pageable) : method Page :=
  match query with
  | None => call (Throws (IllegalArgumentException EmptyQuery))
  | Some query =>
      if isEmpty (trim query) then call (Throws (IllegalArgumentException EmptyQuery))
      else
        normalizedQuery ← call (normalizeQuery query);
        results ← performSearch normalizedQuery;
        let start := int_cast (getOffset pageable) in
        let end_ := Z.min (int_cast (start + pageSize pageable))
                          (Z.of_nat (length results)) in
        pagedResults ← call (subList results start end_);
        postResponses ← mapM convertToPostResponse pagedResults;
        mret (PageImpl postResponses pageable (Z.of_nat (length results)))
  end.

End Traversal.

(** One traversal order, for running the definitions: that of [map_to_list]. *)
Definition gmap_values (m : gmap Z SearchIndex.t) : list SearchIndex.t :=
  (map_to_list m).*2.

(** ** The cache in front of searchPosts

    [searchPosts] carries [@Cacheable(value = "search", key = "#query + '_' +
    #pageable.pageNumber + '_' + #pageable.pageSize")] and the application
    enables caching, so other beans reach it through a proxy: a call whose key
    is in the cache returns the cached page and does not run the method; any
    other call runs it and stores the page it returns. No method of the
    application evicts the cache named "search". *)

Record Application : Type := {
  searchService : SearchService;
  cache_search : gmap string Page
}.

Definition request (A : Type) : Type := Application → outcome A * Application.

Definition request_bind {A B} (f : A → request B) (m : request A) : request B :=
  λ app,
    match m app with
    | (Returns a, app') => f a app'
    | (Throws e, app') => (Throws e, app')
    | (OutsideFragment, app') => (OutsideFragment, app')
    end.

#[global] Instance request_mbind : MBind request := @request_bind.
#[global] Instance request_mret : MRet request := λ A a app, (Returns a, app).

Definition search_key (query : option string) (pageable : Pageable) : string :=
  default "null"%string query +:+ "_" +:+ pretty (pageNumber pageable)
    +:+ "_" +:+ pretty (pageSize pageable).

(** A method without a cache annotation, called on the bean. *)
Definition on_service {A} (m : method A) : request A :=
  λ app,
    let '(o, this) := m (searchService app) in
    (o, {| searchService := this; cache_search := cache_search app |}).

Definition Cacheable_searchPosts (values : gmap Z SearchIndex.t → list SearchIndex.t)
    (query : option string) (pageable : Pageable) : request Page :=
  λ app,
    let key := search_key query pageable in
    match cache_search app !! key with
    | Some page => (Returns page, app)
    | None =>
        let '(o, this) := searchPosts values query pageable (searchService app) in
        (o, {| searchService := this;
               cache_search := match o with
                               | Returns page => <[key := page]> (cache_search app)
                               | _ => cache_search app
                               end |})
    end.

(** The cache holds only pages that the method would return now. *)
Definition coherent (values : gmap Z SearchIndex.t → list SearchIndex.t)
    (app : Application) : Prop :=
  ∀ query pageable page,
    cache_search app !! search_key (Some query) pageable = Some page →
    (searchPosts values (Some query) pageable (searchService app)).1 = Returns page.

Fixpoint no_underscore (s : string) : bool :=
  match s with
  | EmptyString => true
  | String c s' => negb (Ascii.eqb c "_") && no_underscore s'
  end.

(** ** Notions the properties are stated with *)

(** [q] occurs in [s] as a contiguous substring, up to letter case. *)
Definition ci_substring (q s : string) : Prop :=
  ∃ l m r, s = l +:+ m +:+ r ∧ toLowerCase m = toLowerCase q.

(** Every character is one that [trim] strips. *)
Fixpoint blank (s : string) : Prop :=
  match s with
  | EmptyString => True
  | String c s' => (code c <= 32)%N ∧ blank s'
  end.

(** A string with each run of the whitespace characters [\s] collapsed to one
    space; [in_run] says that the character before was one of the run. *)
Fixpoint collapse_from (in_run : bool) (s : string) : string :=
  match s with
  | EmptyString => EmptyString
  | String c s' =>
      if Regex.is_space c
      then if in_run then collapse_from true s'
           else String " " (collapse_from true s')
      else String c (collapse_from false s')
  end.

Definition collapse_whitespace (s : string) : string := collapse_from false s.

(** The weight a field adds to the score. *)
Definition weight (matched : bool) (w : float) : float :=
  if matched then w else 0%float.

(** The query can be highlighted: spliced into the pattern, it compiles. *)
Definition highlightable (q : string) : Prop :=
  ∃ p, Regex.compile ("(?i)(" +:+ q +:+ ")") = Regex.Compiled p.

(** No character of the query is a regex metacharacter. *)
Definition is_meta (c : ascii) : bool :=
  existsb (Ascii.eqb c)
    ["."; "\"; "("; ")"; "["; "]"; "{"; "}"; "^"; "$"; "|"; "?"; "*"; "+"]%char.

Fixpoint literal (s : string) : bool :=
  match s with
  | EmptyString => true
  | String c s' => negb (is_meta c) && literal s'
  end.

(** The pattern items of a query without metacharacters. *)
Definition lit_items (q : string) : list Regex.item :=
  (λ c, Regex.Item (Regex.Lit c) Regex.Once Regex.Greedy) <$> list_ascii_of_string q.

(** [p] starts [s], the letters A-Z and a-z taken alike. *)
Fixpoint ci_startsWith (s p : string) {struct p} : bool :=
  match p, s with
  | EmptyString, _ => true
  | String a p', String b s' =>
      Ascii.eqb (Regex.ASCII_toLower a) (Regex.ASCII_toLower b) && ci_startsWith s' p'
  | String _ _, EmptyString => false
  end.

(** The text with the occurrences of [q] marked, found from left to right and
    not overlapping; [skip] characters still belong to the occurrence marked
    last. *)
Fixpoint mark_occurrences (q s : string) (skip : nat) : string :=
  match skip with
  | S k =>
      match s with
      | EmptyString => EmptyString
      | String _ s' => mark_occurrences q s' k
      end
  | O =>
      if ci_startsWith s q
      then "<mark>" +:+ first_chars (String.length q) s +:+ "</mark>" +:+
           match s with
           | EmptyString => EmptyString
           | String c s' =>
               match String.length q with
               | O => String c (mark_occurrences q s' 0)
               | S k => mark_occurrences q s' k
               end
           end
      else match s with
           | EmptyString => EmptyString
           | String c s' => String c (mark_occurrences q s' 0)
           end
  end.

(** The scores [calculateRelevance] can return. *)
Definition score_values : list float := [0; 1; 2; 3; 4; 5; 6]%float.

(** The place of a score among the scores that can be returned. *)
Definition score_rank (x : float) : Z :=
  Z.of_nat (length (List.filter (λ v, (v <? x)%float) score_values)).

(** The comparator of [performSearch]: the higher score first. *)
Definition by_score_desc (a b : SearchResult.t) : Z :=
  Double_compare (SearchResult.score b) (SearchResult.score a).

(** The results of the index entries that match, in the order of [map_to_list]. *)
Definition matching_results (m : gmap Z SearchIndex.t) (query : string)
    : list SearchResult.t :=
  omap (λ index,
          match calculateRelevance index query with
          | Returns r => if (0 <? SearchResult.score r)%float then Some r else None
          | _ => None
          end) (map_to_list m).*2.

(** The bounds [start] and [end] that [searchPosts] passes to [subList]. *)
Definition page_start (pageable : Pageable) : Z := int_cast (getOffset pageable).
Definition page_end (pageable : Pageable) (n : nat) : Z :=
  Z.min (int_cast (page_start pageable + pageSize pageable)) (Z.of_nat n).

(** Two index entries that differ in the excerpt at most. *)
Definition same_but_excerpt (d1 d2 : SearchIndex.t) : Prop :=
  SearchIndex.id d1 = SearchIndex.id d2 ∧
  SearchIndex.title d1 = SearchIndex.title d2 ∧
  SearchIndex.content d1 = SearchIndex.content d2 ∧
  SearchIndex.tags d1 = SearchIndex.tags d2.

Definition with_excerpt (e : option string) (r : SearchResult.t) : SearchResult.t :=
  {| SearchResult.id := SearchResult.id r;
     SearchResult.title := SearchResult.title r;
     SearchResult.content := SearchResult.content r;
     SearchResult.excerpt := e;
     SearchResult.highlightedTitle := SearchResult.highlightedTitle r;
     SearchResult.highlightedContent := SearchResult.highlightedContent r;
     SearchResult.score := SearchResult.score r |}.

(** A result that is another but for its excerpt. *)
Definition agree (r1 r2 : SearchResult.t) : Prop :=
  r2 = with_excerpt (SearchResult.excerpt r2) r1.

(** Two outcomes of a ranking that agree but for the excerpts of the results. *)
Definition agree_up_to_excerpt (o1 o2 : outcome (list SearchResult.t)) : Prop :=
  match o1, o2 with
  | Returns l1, Returns l2 => Forall2 agree l1 l2
  | Throws e1, Throws e2 => e1 = e2
  | OutsideFragment, OutsideFragment => True
  | _, _ => False
  end.

(** The tags of a post whose tag list is there and holds no null: the posts
    that [indexPost] can read the tag names of. *)
Definition present_tags (post : Post.t) : option (list Tag.t) :=
  tags ← Post.tags post; mapM (λ tag, tag) tags.

(** ** Example data *)

Module Examples.

Definition admin : User.t :=
  {| User.username := Some "admin"%string; User.profileImage := None |}.

Definition post (id : Z) (title content : string) (tags : list string) : Post.t :=
  {| Post.id := Some id; Post.title := Some title; Post.slug := None;
     Post.excerpt := None; Post.content := Some content;
     Post.featuredImage := None; Post.status := Some PUBLISHED;
     Post.viewCount := Some 0; Post.likeCount := Some 0;
     Post.commentCount := Some 0; Post.readingTime := Some 0;
     Post.isFeatured := Some false; Post.publishedAt := None;
     Post.createdAt := None; Post.updatedAt := None;
     Post.author := Some admin; Post.category := None;
     Post.tags := Some ((λ n, Some {| Tag.name := Some n |}) <$> tags) |}.

Definition spring_guide : Post.t :=
  post 1 "Spring Boot Guide" "Learn Spring Boot basics" ["java"; "spring-boot"]%string.
Definition docker_tips : Post.t :=
  post 2 "Docker Tips" "Spring apps in containers" ["docker"]%string.
Definition cpp_guide : Post.t :=
  post 3 "C++ Guide" "Templates in C++" ["cpp"]%string.
Definition untitled : Post.t := post 7 EmptyString EmptyString [].

Definition entry (p : Post.t) : SearchIndex.t :=
  {| SearchIndex.id := default 0 (Post.id p);
     SearchIndex.title := Post.title p;
     SearchIndex.content := Post.content p;
     SearchIndex.excerpt := Post.excerpt p;
     SearchIndex.tags := Tag.name <$> default [] (present_tags p) |}.

Definition repository : gmap Z Post.t :=
  <[1 := spring_guide]> (<[2 := docker_tips]> (<[3 := cpp_guide]> ∅)).

Definition empty_service : SearchService :=
  {| postRepository := repository; searchIndex := ∅ |}.

(** The service after the two posts of the specification's scenario were indexed. *)
Definition two_posts : SearchService :=
  {| postRepository := repository;
     searchIndex := <[2 := entry docker_tips]> (<[1 := entry spring_guide]> ∅) |}.

(** The service with all three posts indexed. *)
Definition three_posts : SearchService :=
  {| postRepository := repository;
     searchIndex := <[3 := entry cpp_guide]> (searchIndex two_posts) |}.

(** The ranked results for "guide", which two entries match in the title only. *)
Definition guide_results : list SearchResult.t :=
  Eval vm_compute in
    match rank (gmap_values (searchIndex three_posts)) "guide" with
    | Returns results => results
    | _ => []
    end.

Definition fresh_application : Application :=
  {| searchService := empty_service; cache_search := ∅ |}.

Definition first_page : Pageable := {| pageNumber := 0; pageSize := 10 |}.
Definition second_page : Pageable := {| pageNumber := 1; pageSize := 10 |}.

(** The entry of the first post with another excerpt. *)
Definition spring_guide_excerpt : SearchIndex.t :=
  {| SearchIndex.id := 1;
     SearchIndex.title := Some "Spring Boot Guide"%string;
     SearchIndex.content := Some "Learn Spring Boot basics"%string;
     SearchIndex.excerpt := Some "An introduction"%string;
     SearchIndex.tags := [Some "java"; Some "spring-boot"]%string |}.

(** The proxied calls of the scenario: index two posts, search, remove the
    first post, search again. *)
Definition indexed : Application :=
  (on_service (indexPost docker_tips)
     (on_service (indexPost spring_guide) fresh_application).2).2.
Definition searched : outcome Page * Application :=
  Cacheable_searchPosts gmap_values (Some "spring"%string) first_page indexed.
Definition removed : outcome unit * Application :=
  on_service (removePostFromIndex (Some 1)) searched.2.
Definition searched_again : outcome Page * Application :=
  Cacheable_searchPosts gmap_values (Some "spring"%string) first_page removed.2.

End Examples.

(** ** Sequences of index updates *)

(** The two updates of the index that other beans call. *)
Inductive index_update : Type :=
| IndexPost (post : Post.t)
| RemovePostFromIndex (postId : option Z).

Definition update (u : index_update) : method unit :=
  match u with
  | IndexPost post => indexPost post
  | RemovePostFromIndex postId => removePostFromIndex postId
  end.

(** Every entry is stored under its own id. *)
Definition well_keyed (m : gmap Z SearchIndex.t) : Prop :=
  ∀ k index, m !! k = Some index → SearchIndex.id index = k.

(** The index entry that [indexPost] builds for a post with these tags. *)
Definition entry_of (id : Z) (post : Post.t) (tags : list Tag.t) : SearchIndex.t :=
  {| SearchIndex.id := id;
     SearchIndex.title := Post.title post;
     SearchIndex.content := Post.content post;
     SearchIndex.excerpt := Post.excerpt post;
     SearchIndex.tags := Tag.name <$> tags |}.

(** The result of an entry, when it is a match. *)
Definition match_of (index : SearchIndex.t) (query : string) : list SearchResult.t :=
  match calculateRelevance index query with
  | Returns r => if (0 <? SearchResult.score r)%float then [r] else []
  | _ => []
  end.

(** The last character of the string is not one that [trim] strips. *)
Fixpoint ends_untrimmed (s : string) : bool :=
  match s with
  | EmptyString => false
  | String c EmptyString => negb (is_trimmed_char c)
  | String _ s' => ends_untrimmed s'
  end.

Definition starts_untrimmed (s : string) : bool :=
  match s with
  | EmptyString => false
  | String c _ => negb (is_trimmed_char c)
  end.

(** The field is present and contains the query, letter case apart: the test
    that [calculateRelevance] makes of title and content. *)
Definition field_contains (field : option string) (query : string) : bool :=
  match field with
  | Some s => contains (toLowerCase s) (toLowerCase query)
  | None => false
  end.

(** The id that an update is about. *)
Definition target (u : index_update) : option Z :=
  match u with
  | IndexPost post => Post.id post
  | RemovePostFromIndex postId => postId
  end.

(** What an update does to the index when it returns; [None] when it throws. *)
Definition effect (u : index_update)
    : option (gmap Z SearchIndex.t → gmap Z SearchIndex.t) :=
  match u with
  | IndexPost post =>
      match present_tags post, Post.id post with
      | Some tags, Some id => Some (insert id (entry_of id post tags))
      | _, _ => None
      end
  | RemovePostFromIndex (Some id) => Some (delete id)
  | RemovePostFromIndex None => None
  end.

(** ** More example data *)

Module MoreExamples.

Import Examples.

(** A post that is indexed and is not in the repository. *)
Definition ghost : Post.t := post 4 "Ghost Guide" "Nowhere to be found" [].
Definition dangling : SearchService :=
  {| postRepository := repository;
     searchIndex := <[4 := entry ghost]> (searchIndex three_posts) |}.

Definition dangling_results : list SearchResult.t :=
  Eval vm_compute in
    match rank (gmap_values (searchIndex dangling)) "guide" with
    | Returns results => results
    | _ => []
    end.

(** The result of the ghost post for "guide". *)
Definition ghost_result : SearchResult.t :=
  {| SearchResult.id := 4;
     SearchResult.title := Some "Ghost Guide"%string;
     SearchResult.content := Some "Nowhere to be found"%string;
     SearchResult.excerpt := None;
     SearchResult.highlightedTitle := Some "Ghost <mark>Guide</mark>"%string;
     SearchResult.highlightedContent := Some "Nowhere to be found"%string;
     SearchResult.score := 3 |}.

(** The result of the third post for "guide". *)
Definition cpp_result : SearchResult.t :=
  {| SearchResult.id := 3;
     SearchResult.title := Some "C++ Guide"%string;
     SearchResult.content := Some "Templates in C++"%string;
     SearchResult.excerpt := None;
     SearchResult.highlightedTitle := Some "C++ <mark>Guide</mark>"%string;
     SearchResult.highlightedContent := Some "Templates in C++"%string;
     SearchResult.score := 3 |}.

Definition guide_results_of_two : list SearchResult.t :=
  Eval vm_compute in
    match rank (gmap_values (searchIndex two_posts)) "guide" with
    | Returns results => results
    | _ => []
    end.

Definition spring_page : Page :=
  Eval vm_compute in
    match (searchPosts gmap_values (Some "spring"%string) first_page two_posts).1 with
    | Returns page => page
    | _ => PageImpl [] first_page 0
    end.

Definition spring_results : list SearchResult.t :=
  Eval vm_compute in
    match rank (gmap_values (searchIndex two_posts)) "spring" with
    | Returns results => results
    | _ => []
    end.

(** A post without a title. *)
Definition nameless : Post.t :=
  {| Post.id := Some 8; Post.title := None; Post.slug := None;
     Post.excerpt := None; Post.content := Some "Spring cleaning"%string;
     Post.featuredImage := None; Post.status := Some DRAFT;
     Post.viewCount := Some 0; Post.likeCount := Some 0;
     Post.commentCount := Some 0; Post.readingTime := Some 0;
     Post.isFeatured := Some false; Post.publishedAt := None;
     Post.createdAt := None; Post.updatedAt := None;
     Post.author := Some admin; Post.category := None;
     Post.tags := Some [] |}.

(** The first post with another title. *)
Definition spring_guide_retitled : Post.t :=
  post 1 "Boot Camp" "Learn Spring Boot basics" ["java"; "spring-boot"]%string.

(** Posts with an asterisk in the title and in a tag. *)
Definition starred : Post.t := post 5 "Five * hotels" "Rated" ["travel"]%string.
Definition star_tagged : Post.t := post 6 "Wildcards" "Globbing" ["*"; "shell"]%string.

Definition with_starred : SearchService :=
  {| postRepository := repository;
     searchIndex := <[5 := entry starred]> (searchIndex two_posts) |}.
Definition with_star_tagged : SearchService :=
  {| postRepository := repository;
     searchIndex := <[6 := entry star_tagged]> (searchIndex two_posts) |}.

(** Another traversal order: that of [map_to_list], backwards. *)
Definition reversed_values (m : gmap Z SearchIndex.t) : list SearchIndex.t :=
  reverse (gmap_values m).

End MoreExamples.

(** ** [String.split], [Math.ceil] and the narrowing of a [double] *)

(** The Matcher.find loop of [Pattern.split] over the text that is left, for a
    pattern that matches no empty string: [piece] is the text since the match
    found last, of which [skip] characters are still to be passed. The list
    ends with the text after the last match. *)
Fixpoint split_from (p : Regex.pattern) (s : string) (skip : nat) (piece : string)
    : list string :=
  match skip with
  | S k =>
      match s with
      | EmptyString => [piece]
      | String _ s' => split_from p s' k piece
      end
  | O =>
      match s with
      | EmptyString => [piece]
      | String c s' =>
          match Regex.match_here (Regex.p_ci p) (Regex.p_items p) s with
          | Some (S k) => piece :: split_from p s' k EmptyString
          | _ => split_from p s' 0 (piece +:+ String c EmptyString)
          end
      end
  end.

(** The trailing empty strings are not part of the result. *)
Fixpoint drop_trailing_empty (l : list string) : list string :=
  match l with
  | [] => []
  | x :: l' =>
      match drop_trailing_empty l' with
      | [] => if isEmpty x then [] else [x]
      | r => x :: r
      end
  end.

(** [String.split(regex)], that is [Pattern.compile(regex).split(text, 0)]:
    the text itself when there is no match, and otherwise the pieces between
    the matches without the trailing empty ones. A pattern that matches the
    empty string is outside the fragment. *)
Definition split (text regex : string) : outcome (list string) :=
  match Regex.compile regex with
  | Regex.SyntaxError => Throws PatternSyntaxException
  | Regex.NotInFragment => OutsideFragment
  | Regex.Compiled p =>
      match Regex.match_here (Regex.p_ci p) (Regex.p_items p) EmptyString with
      | Some _ => OutsideFragment
      | None =>
          match split_from p text 0 EmptyString with
          | [_] => Returns [text]
          | pieces => Returns (drop_trailing_empty pieces)
          end
      end
  end.

(** The [double] of an [int] that is not negative. *)
Definition int_to_double (n : Z) : float := of_uint63 (Uint63.of_Z n).

(** [Math.ceil]: the least integral [double] that is not below the argument;
    zeros, infinities and NaN are returned as they are, and a value between
    -1 and 0 gives the negative zero. The value of a finite [double] is its
    mantissa [m] times 2^[e], negated when [s] is set; a shift to the right by
    [k] bits divides by 2^[k] and rounds down. *)
Definition Math_ceil (x : float) : float :=
  match Prim2SF x with
  | S754_finite s m e =>
      if 0 <=? e then x
      else
        let z := if s then - Z.shiftr (Z.pos m) (- e)
                 else - Z.shiftr (- Z.pos m) (- e) in
        SF2Prim (binary_normalize prec emax z 0 s)
  | _ => x
  end.

(** The narrowing [(int)] of a [double]: NaN gives 0, the value is rounded
    toward zero and brought into the range of [int]. *)
Definition double_to_int (x : float) : Z :=
  match Prim2SF x with
  | S754_nan => 0
  | S754_zero _ => 0
  | S754_infinity s => if s then - 2 ^ 31 else 2 ^ 31 - 1
  | S754_finite s m e =>
      let magnitude := if 0 <=? e then Z.shiftl (Z.pos m) e
                       else Z.shiftr (Z.pos m) (- e) in
      Z.max (- 2 ^ 31) (Z.min (2 ^ 31 - 1) (if s then - magnitude else magnitude))
  end.

(** ** The methods of the entity Post

    [publish] reads the clock; the instant it reads is an argument. The
    counters are [Integer] fields: an increment unboxes, adds in [int] and
    boxes again. *)

Module PostMethods.

(** The post with its status, counters, reading time and publication time
    replaced. *)
Definition assign (status : option Status)
    (viewCount likeCount commentCount readingTime : option Z)
    (publishedAt : option LocalDateTime) (this : Post.t) : Post.t :=
  {| Post.id := Post.id this;
     Post.title := Post.title this;
     Post.slug := Post.slug this;
     Post.excerpt := Post.excerpt this;
     Post.content := Post.content this;
     Post.featuredImage := Post.featuredImage this;
     Post.status := status;
     Post.viewCount := viewCount;
     Post.likeCount := likeCount;
     Post.commentCount := commentCount;
     Post.readingTime := readingTime;
     Post.isFeatured := Post.isFeatured this;
     Post.publishedAt := publishedAt;
     Post.createdAt := Post.createdAt this;
     Post.updatedAt := Post.updatedAt this;
     Post.author := Post.author this;
     Post.category := Post.category this;
     Post.tags := Post.tags this |}.

Definition set_status (status : option Status) (this : Post.t) : Post.t :=
  assign status (Post.viewCount this) (Post.likeCount this) (Post.commentCount this)
         (Post.readingTime this) (Post.publishedAt this) this.
Definition set_publishedAt (publishedAt : option LocalDateTime) (this : Post.t)
    : Post.t :=
  assign (Post.status this) (Post.viewCount this) (Post.likeCount this)
         (Post.commentCount this) (Post.readingTime this) publishedAt this.
Definition set_viewCount (viewCount : option Z) (this : Post.t) : Post.t :=
  assign (Post.status this) viewCount (Post.likeCount this) (Post.commentCount this)
         (Post.readingTime this) (Post.publishedAt this) this.
Definition set_likeCount (likeCount : option Z) (this : Post.t) : Post.t :=
  assign (Post.status this) (Post.viewCount this) likeCount (Post.commentCount this)
         (Post.readingTime this) (Post.publishedAt this) this.
Definition set_commentCount (commentCount : option Z) (this : Post.t) : Post.t :=
  assign (Post.status this) (Post.viewCount this) (Post.likeCount this) commentCount
         (Post.readingTime this) (Post.publishedAt this) this.
Definition set_readingTime (readingTime : option Z) (this : Post.t) : Post.t :=
  assign (Post.status this) (Post.viewCount this) (Post.likeCount this)
         (Post.commentCount this) readingTime (Post.publishedAt this) this.

Definition publish (now : LocalDateTime) (this : Post.t) : Post.t :=
  let this := set_status (Some PUBLISHED) this in
  match Post.publishedAt this with
  | None => set_publishedAt (Some now) this
  | Some _ => this
  end.

Definition draft (this : Post.t) : Post.t := set_status (Some DRAFT) this.

Definition archive (this : Post.t) : Post.t := set_status (Some ARCHIVED) this.

Definition incrementViewCount (this : Post.t) : outcome Post.t :=
  n ← nonnull (Post.viewCount this);
  Returns (set_viewCount (Some (int_cast (n + 1))) this).

Definition incrementLikeCount (this : Post.t) : outcome Post.t :=
  n ← nonnull (Post.likeCount this);
  Returns (set_likeCount (Some (int_cast (n + 1))) this).

Definition decrementLikeCount (this : Post.t) : outcome Post.t :=
  n ← nonnull (Post.likeCount this);
  if 0 <? n
  then n ← nonnull (Post.likeCount this);
       Returns (set_likeCount (Some (int_cast (n - 1))) this)
  else Returns this.

Definition incrementCommentCount (this : Post.t) : outcome Post.t :=
  n ← nonnull (Post.commentCount this);
  Returns (set_commentCount (Some (int_cast (n + 1))) this).

Definition decrementCommentCount (this : Post.t) : outcome Post.t :=
  n ← nonnull (Post.commentCount this);
  if 0 <? n
  then n ← nonnull (Post.commentCount this);
       Returns (set_commentCount (Some (int_cast (n - 1))) this)
  else Returns this.

Definition isPublished (this : Post.t) : bool :=
  match Post.status this with
  | Some PUBLISHED => true
  | _ => false
  end.

Definition calculateReadingTime (this : Post.t) : outcome Post.t :=
  match Post.content this with
  | Some content =>
      words ← split content "\s+";
      let wordCount := Z.of_nat (length words) in
      Returns
        (set_readingTime
           (Some (Z.max 1 (double_to_int
                             (Math_ceil (int_to_double wordCount / 200)%float))))
           this)
  | None => Returns this
  end.

(** A call of one of the nine methods above that write the status, the
    publication time, a counter or the reading time of the post. The other
    methods that write the entity are not among the calls: [addTag] and
    [removeTag], which write the tag as well, and the setters that Lombok
    generates, which assign any value. *)
Inductive call : Type :=
| Publish (now : LocalDateTime)
| Draft
| Archive
| IncrementViewCount
| IncrementLikeCount
| DecrementLikeCount
| IncrementCommentCount
| DecrementCommentCount
| CalculateReadingTime.

Definition invoke (c : call) (this : Post.t) : outcome Post.t :=
  match c with
  | Publish now => Returns (publish now this)
  | Draft => Returns (draft this)
  | Archive => Returns (archive this)
  | IncrementViewCount => incrementViewCount this
  | IncrementLikeCount => incrementLikeCount this
  | DecrementLikeCount => decrementLikeCount this
  | IncrementCommentCount => incrementCommentCount this
  | DecrementCommentCount => decrementCommentCount this
  | CalculateReadingTime => calculateReadingTime this
  end.

(** The calls one after the other, up to the first that throws. *)
Fixpoint invoke_all (cs : list call) (this : Post.t) : outcome Post.t :=
  match cs with
  | [] => Returns this
  | c :: cs' => this' ← invoke c this; invoke_all cs' this'
  end.

End PostMethods.

(** The number of maximal runs of characters that are not whitespace;
    [in_word] says that the character before was one of the run. *)
Fixpoint count_words (in_word : bool) (s : string) : nat :=
  match s with
  | EmptyString => 0%nat
  | String c s' =>
      if Regex.is_space c then count_words false s'
      else ((if in_word then 0 else 1) + count_words true s')%nat
  end.

(** The length of the array that [content.split("\\s+")] returns: the words,
    one more when whitespace comes before the first word, and one for the
    empty string. *)
Definition split_length (content : string) : nat :=
  match content with
  | EmptyString => 1%nat
  | String c _ =>
      let words := count_words false content in
      if Regex.is_space c && (0 <? words)%nat then S words else words
  end.

Fixpoint has_space (s : string) : bool :=
  match s with
  | EmptyString => false
  | String c s' => Regex.is_space c || has_space s'
  end.

(** The pattern that [\s+] compiles to. *)
Definition whitespace_run : Regex.pattern :=
  Regex.Pattern false false [Regex.Item Regex.WhiteSpace Regex.Plus Regex.Greedy].

Module PostExamples.

Import PostMethods.

(** The first post, taken back to a draft, published at the instant 100 and
    then, after a view and two likes, published again at the instant 200. *)
Definition calls_after_publication : list call :=
  [IncrementViewCount; IncrementLikeCount; Draft; IncrementLikeCount;
   DecrementCommentCount; Publish 200; CalculateReadingTime].

Definition republished : Post.t :=
  Eval vm_compute in
    match invoke_all (Publish 100 :: calls_after_publication)
                     (draft Examples.spring_guide) with
    | Returns post => post
    | _ => Examples.spring_guide
    end.

(** A post whose content starts with whitespace. *)
Definition indented : Post.t :=
  Examples.post 10 "Indented" "  two words" [].

End PostExamples.

(** [p] holds of the [count] integers from [n] on. *)
Fixpoint holds_from (p : Z → bool) (n : Z) (count : nat) : bool :=
  match count with
  | O => true
  | S count' => p n && holds_from p (n + 1) count'
  end.

(** * Properties *)

(** ** Strings *)

Section StringFacts.

Lemma append_assoc (a b c : string) : (a +:+ b) +:+ c = a +:+ (b +:+ c).
Proof. induction a as [|x a IH]; simpl; [reflexivity | now rewrite IH]. Qed.

Lemma append_empty_r (s : string) : s +:+ EmptyString = s.
Proof. induction s as [|x s IH]; simpl; [reflexivity | now rewrite IH]. Qed.

Lemma toLowerCase_app (a b : string) :
  toLowerCase (a +:+ b) = toLowerCase a +:+ toLowerCase b.
Proof. induction a as [|x a IH]; simpl; [reflexivity | now rewrite IH]. Qed.

(** A split of the lowered string comes from a split of the string. *)
Lemma toLowerCase_split (a b s : string) :
  toLowerCase s = a +:+ b →
  ∃ s1 s2, s = s1 +:+ s2 ∧ toLowerCase s1 = a ∧ toLowerCase s2 = b.
Proof.
  revert s. induction a as [|x a IH]; intros s H.
  - exists EmptyString, s. auto.
  - destruct s as [|y s]; simpl in H; [discriminate|].
    injection H as Hx Hs. destruct (IH _ Hs) as (s1 & s2 & -> & H1 & H2).
    exists (String y s1), s2. simpl. rewrite Hx, H1. auto.
Qed.

Lemma startsWith_spec (s p : string) :
  startsWith s p = true ↔ ∃ r, s = p +:+ r.
Proof.
  revert s. induction p as [|a p IH]; intros s; simpl.
  - split; [intros _; exists s; reflexivity | reflexivity].
  - destruct s as [|b s].
    + split; [discriminate | intros [r Hr]; discriminate].
    + rewrite andb_true_iff, Ascii.eqb_eq, IH. split.
      * intros [-> [r ->]]. exists r. reflexivity.
      * intros [r Hr]. injection Hr as -> ->. eauto.
Qed.

Lemma contains_spec (s p : string) :
  contains s p = true ↔ ∃ l r, s = l +:+ p +:+ r.
Proof.
  induction s as [|c s IH].
  - cbn [contains]. rewrite orb_false_r, startsWith_spec. split.
    + intros [r Hr]. exists EmptyString, r. exact Hr.
    + intros (l & r & H). destruct l as [|x l]; [|discriminate].
      exists r. exact H.
  - cbn [contains]. rewrite orb_true_iff, startsWith_spec, IH. split.
    + intros [[r Hr] | (l & r & Hr)].
      * exists EmptyString, r. exact Hr.
      * exists (String c l), r. simpl. now rewrite Hr.
    + intros (l & r & H). destruct l as [|x l].
      * left. exists r. exact H.
      * right. simpl in H. injection H as _ H. eauto.
Qed.

(** The test of [calculateRelevance] decides case-insensitive containment. *)
Lemma contains_lower_spec (q s : string) :
  contains (toLowerCase s) (toLowerCase q) = true ↔ ci_substring q s.
Proof.
  rewrite contains_spec. unfold ci_substring. split.
  - intros (l & r & H).
    destruct (toLowerCase_split _ _ _ H) as (s1 & s23 & -> & H1 & H23).
    destruct (toLowerCase_split _ _ _ H23) as (m & s3 & -> & Hm & H3).
    exists s1, m, s3. auto.
  - intros (l & m & r & -> & Hm).
    exists (toLowerCase l), (toLowerCase r).
    now rewrite !toLowerCase_app, Hm.
Qed.

Lemma trim_leading_cases (s : string) :
  (blank s ∧ trim_leading s = EmptyString) ∨
  (¬ blank s ∧ ∃ c r, trim_leading s = String c r ∧ is_trimmed_char c = false).
Proof.
  induction s as [|c s IH]; simpl.
  - left. auto.
  - destruct (is_trimmed_char c) eqn:Hc.
    + assert (code c <= 32)%N by (apply N.leb_le; exact Hc).
      destruct IH as [[Hb Ht] | [Hb Ht]].
      * left. auto.
      * right. split; [tauto | exact Ht].
    + assert (32 < code c)%N by (apply N.leb_gt; exact Hc).
      right. split; [lia|]. exists c, s. auto.
Qed.

Lemma trim_trailing_head (c : ascii) (r : string) :
  is_trimmed_char c = false → trim_trailing (String c r) ≠ EmptyString.
Proof.
  intros Hc. simpl. destruct (trim_trailing r); [rewrite Hc|]; discriminate.
Qed.

(** [query.trim().isEmpty()] holds exactly of the blank strings. *)
Lemma trim_isEmpty_blank (s : string) : isEmpty (trim s) = true ↔ blank s.
Proof.
  unfold trim. destruct (trim_leading_cases s) as [[Hb Ht] | [Hb (c & r & Ht & Hc)]].
  - rewrite Ht. simpl. tauto.
  - rewrite Ht. pose proof (trim_trailing_head c r Hc) as Hne.
    destruct (trim_trailing (String c r)); [congruence|].
    simpl. split; [discriminate | tauto].
Qed.

End StringFacts.

(** ** Patterns built from a query *)

Section PatternFacts.

Import Regex.

Lemma not_meta_tests (c : ascii) :
  is_meta c = false →
  Ascii.eqb c "." = false ∧ Ascii.eqb c "\" = false ∧ Ascii.eqb c ")" = false ∧
  is_other_meta c = false ∧ is_quantifier c = None.
Proof.
  unfold is_meta. cbn [existsb]. rewrite !orb_false_iff.
  intros (H1 & H2 & H3 & H4 & H5 & H6 & H7 & H8 & H9 & H10 & H11 & H12 & H13 & H14 & _).
  unfold is_other_meta, is_quantifier. cbn [existsb].
  rewrite H1, H2, H3, H4, H5, H6, H7, H8, H9, H10, H11, H12, H13, H14.
  repeat split; reflexivity.
Qed.

Lemma parse_items_literal (q : string) :
  literal q = true →
  ∀ acc p, (p = PNone ∨ ∃ a, p = PAtom a) →
  parse_items true true acc p (q +:+ ")") =
  Compiled (Pattern true true (rev (flush p acc) ++ lit_items q)).
Proof.
  induction q as [|c q IH]; intros Hq acc p Hp.
  - destruct Hp as [-> | [a ->]]; cbn; now rewrite app_nil_r.
  - simpl in Hq. apply andb_true_iff in Hq as [Hc Hq].
    apply negb_true_iff in Hc.
    destruct (not_meta_tests c Hc) as (H1 & H2 & H3 & H4 & H5).
    destruct Hp as [-> | [a ->]]; cbn [parse_items String.append];
      rewrite ?H5, H1, H2, H3, H4, ?H5; rewrite (IH Hq) by eauto;
      cbn; rewrite <- ?app_assoc; reflexivity.
Qed.

(** A query without metacharacters compiles to its characters. *)
Lemma compile_literal (q : string) :
  literal q = true →
  compile ("(?i)(" +:+ q +:+ ")") = Compiled (Pattern true true (lit_items q)).
Proof.
  intros Hq. unfold compile.
  change ("(?i)(" +:+ q +:+ ")") with
    (String "(" (String "?" (String "i" (String ")" (String "(" (q +:+ ")")))))).
  cbv iota beta.
  pose proof (parse_items_literal q Hq [] PNone (or_introl eq_refl)) as Hits.
  cbn [flush rev app] in Hits.
  destruct q as [|c q]; [exact Hits|].
  simpl in Hq. apply andb_true_iff in Hq as [Hc Hq].
  assert (Hc' : c ≠ "?"%char) by (intros ->; discriminate).
  change (String c q +:+ ")") with (String c (q +:+ ")")) in *.
  destruct c as [b0 b1 b2 b3 b4 b5 b6 b7].
  destruct b0, b1, b2, b3, b4, b5, b6, b7; try (exfalso; apply Hc'; reflexivity);
    exact Hits.
Qed.

Lemma literal_highlightable (q : string) : literal q = true → highlightable q.
Proof. intros Hq. eexists. exact (compile_literal q Hq). Qed.

(** The characters of a query match at the start of a text when the query
    starts it, letter case apart, and then match its length. *)
Lemma match_here_literal (q s : string) :
  match_here true (lit_items q) s =
  if ci_startsWith s q then Some (String.length q) else None.
Proof.
  revert s. induction q as [|c q IH]; intros s; [reflexivity|].
  change (lit_items (String c q)) with (Item (Lit c) Once Greedy :: lit_items q).
  cbn [match_here it_atom it_quant it_greed ci_startsWith String.length].
  destruct s as [|d s]; [reflexivity|].
  cbn [span atom_matches].
  destruct (Ascii.eqb (ASCII_toLower c) (ASCII_toLower d)); [|reflexivity].
  unfold candidates. cbn [Nat.min]. destruct (span true (Lit c) s); cbn;
    rewrite IH; destruct (ci_startsWith s q); reflexivity.
Qed.

(** On a query without metacharacters [highlightText] marks the occurrences
    of the query, found from left to right. *)
Lemma highlightText_literal (t q : string) :
  literal q = true →
  highlightText (Some t) (Some q) = Returns (Some (mark_occurrences q t 0)).
Proof.
  intros Hq. unfold highlightText, replaceAll. rewrite (compile_literal q Hq).
  set (parts := [RLit "<"; RLit "m"; RLit "a"; RLit "r"; RLit "k"; RLit ">";
                 RGroup 1; RLit "<"; RLit "/"; RLit "m"; RLit "a"; RLit "r";
                 RLit "k"; RLit ">"]%char).
  change (parse_replacement "<mark>$1</mark>") with (Some parts).
  assert (Hg : groups_exist (Pattern true true (lit_items q)) parts = true)
    by reflexivity.
  cbv iota beta. rewrite Hg. change (Some <$> Returns ?x) with (Returns (Some x)). do 2 f_equal.
  assert (Hexp : ∀ m rest, expand parts m +:+ rest
                           = "<mark>" +:+ m +:+ "</mark>" +:+ rest).
  { intros m rest. cbn. do 6 f_equal. rewrite append_assoc. reflexivity. }
  generalize 0%nat as skip. induction t as [|c t IH]; intros [|k];
    cbn [replace_from mark_occurrences p_ci p_items];
    rewrite ?match_here_literal; try reflexivity.
  - destruct (ci_startsWith EmptyString q); [apply Hexp | reflexivity].
  - destruct (ci_startsWith (String c t) q).
    + rewrite Hexp. do 3 f_equal. destruct (String.length q); now rewrite IH.
    + now rewrite IH.
  - apply IH.
Qed.

Lemma parse_items_group (ci grouped : bool) (s : string) :
  ∀ acc p pat, parse_items ci grouped acc p s = Compiled pat → p_group pat = grouped.
Proof.
  induction s as [|c s IH]; intros acc p pat.
  - simpl. destruct p, grouped; try discriminate; intros [= <-]; reflexivity.
  - cbn [parse_items].
    assert (Hat : ∀ acc',
      (if Ascii.eqb c "." then parse_items ci grouped acc' (PAtom AnyChar) s
       else if Ascii.eqb c "\" then parse_items ci grouped acc' PEscape s
       else if Ascii.eqb c ")" then
         if grouped && isEmpty s then Compiled (Pattern ci true (rev acc'))
         else NotInFragment
       else if is_other_meta c then NotInFragment
       else match is_quantifier c with
            | Some _ => SyntaxError
            | None => parse_items ci grouped acc' (PAtom (Lit c)) s
            end) = Compiled pat → p_group pat = grouped).
    { intros acc'.
      destruct (Ascii.eqb c "."); [apply IH|].
      destruct (Ascii.eqb c "\"); [apply IH|].
      destruct (Ascii.eqb c ")").
      - destruct grouped; simpl; [|discriminate].
        destruct (isEmpty s); [|discriminate]. intros [= <-]. reflexivity.
      - destruct (is_other_meta c); [discriminate|].
        destruct (is_quantifier c); [discriminate | apply IH]. }
    destruct p.
    + apply Hat.
    + destruct (is_quantifier c); [apply IH | apply Hat].
    + destruct (Ascii.eqb c "?"); [apply IH|].
      destruct (Ascii.eqb c "+"); [apply IH | apply Hat].
    + destruct (Ascii.eqb c "s"); [apply IH | discriminate].
Qed.

(** The pattern of [highlightText] has its group when it compiles. *)
Lemma compile_highlight_group (q : string) (pat : pattern) :
  compile ("(?i)(" +:+ q +:+ ")") = Compiled pat → p_group pat = true.
Proof.
  unfold compile.
  change ("(?i)(" +:+ q +:+ ")") with
    (String "(" (String "?" (String "i" (String ")" (String "(" (q +:+ ")")))))).
  cbv iota beta.
  destruct (q +:+ ")") as [|c s] eqn:E.
  - intros H. exact (parse_items_group _ _ _ _ _ _ H).
  - destruct c as [b0 b1 b2 b3 b4 b5 b6 b7].
    destruct b0, b1, b2, b3, b4, b5, b6, b7;
      try discriminate; intros H; exact (parse_items_group _ _ _ _ _ _ H).
Qed.

(** [highlightText] returns on a query that can be highlighted. *)
Lemma highlightText_returns (t q : string) :
  highlightable q →
  ∃ h, highlightText (Some t) (Some q) = Returns (Some h).
Proof.
  intros [pat Hpat]. unfold highlightText, replaceAll. rewrite Hpat.
  pose proof (compile_highlight_group q pat Hpat) as Hg.
  cbn. unfold groups_exist. cbn. rewrite Hg. cbn. eauto.
Qed.

(** The pattern [\s+] matches the run of whitespace at the start, if any. *)
Lemma match_here_whitespace (s : string) :
  match_here false [Item WhiteSpace Plus Greedy] s =
  match span false WhiteSpace s with
  | O => None
  | S n => Some (S n)
  end.
Proof.
  cbn [match_here it_atom it_quant it_greed].
  destruct (span false WhiteSpace s) as [|n]; [reflexivity|].
  unfold candidates. cbn [Nat.ltb Nat.leb].
  replace (S (S n) - 1)%nat with (S n) by lia.
  rewrite seq_S, rev_app_distr. cbn. f_equal. lia.
Qed.

Lemma replace_whitespace (s : string) :
  let R := replace_from (Pattern false false [Item WhiteSpace Plus Greedy])
                        [RLit " "] in
  R s O = collapse_from false s ∧
  R s (span false WhiteSpace s) = collapse_from true s.
Proof.
  cbn zeta. induction s as [|c s [IH0 IH1]].
  - split; reflexivity.
  - assert (H0 : replace_from (Pattern false false [Item WhiteSpace Plus Greedy])
                   [RLit " "] (String c s) 0 = collapse_from false (String c s)).
    { cbn [replace_from p_ci p_items]. rewrite match_here_whitespace.
      cbn [span atom_matches collapse_from]. destruct (is_space c).
      - cbn. now rewrite IH1.
      - now rewrite IH0. }
    split; [exact H0|].
    cbn [span atom_matches]. destruct (is_space c) eqn:Hc.
    + cbn [replace_from collapse_from]. rewrite Hc. exact IH1.
    + rewrite H0. cbn [collapse_from]. rewrite Hc. reflexivity.
Qed.

(** [normalizeQuery] returns the query trimmed, with its runs of whitespace
    collapsed, in lower case. *)
Lemma normalizeQuery_spec (query : string) :
  normalizeQuery query =
  Returns (toLowerCase (collapse_whitespace (trim query))).
Proof.
  unfold normalizeQuery, replaceAll, collapse_whitespace. cbn.
  now rewrite (proj1 (replace_whitespace (trim query))).
Qed.

Lemma normalizeQuery_returns (query : string) :
  ∃ nq, normalizeQuery query = Returns nq.
Proof. rewrite normalizeQuery_spec. eauto. Qed.

End PatternFacts.

(** ** Outcomes over lists *)

Section OutcomeFacts.

Context {A B : Type} (f : A → outcome B).

Lemma mapM_cons_Returns (x : A) (l : list A) (rs : list B) :
  mapM f (x :: l) = Returns rs ↔
  ∃ r rs', f x = Returns r ∧ mapM f l = Returns rs' ∧ rs = r :: rs'.
Proof.
  cbn. destruct (f x) as [r| |]; cbn.
  - destruct (mapM f l) as [rs'| |]; cbn.
    + split.
      * intros [= <-]. eauto.
      * intros (r0 & rs0 & [= <-] & [= <-] & ->). reflexivity.
    + split; [discriminate | intros (? & ? & _ & ? & _); discriminate].
    + split; [discriminate | intros (? & ? & _ & ? & _); discriminate].
  - split; [discriminate | intros (? & ? & ? & _); discriminate].
  - split; [discriminate | intros (? & ? & ? & _); discriminate].
Qed.

Lemma mapM_Returns (l : list A) (rs : list B) :
  mapM f l = Returns rs ↔ Forall2 (λ x r, f x = Returns r) l rs.
Proof.
  revert rs. induction l as [|x l IH]; intros rs.
  - cbn. split.
    + intros [= <-]. constructor.
    + intros H. inversion H. reflexivity.
  - rewrite mapM_cons_Returns. split.
    + intros (r & rs' & Hr & Hl & ->). constructor; [exact Hr | now apply IH].
    + intros H. inversion H as [|? r ? rs' Hr Hl]; subst.
      exists r, rs'. split; [exact Hr|]. split; [now apply IH | reflexivity].
Qed.

Lemma mapM_total (l : list A) :
  Forall (λ x, ∃ r, f x = Returns r) l → ∃ rs, mapM f l = Returns rs.
Proof.
  induction 1 as [|x l [r Hr] _ [rs Hrs]].
  - exists []. reflexivity.
  - exists (r :: rs). apply mapM_cons_Returns. eauto.
Qed.

Lemma mapM_Returns_length (l : list A) (rs : list B) :
  mapM f l = Returns rs → length rs = length l.
Proof. rewrite mapM_Returns. intros H. symmetry. exact (Forall2_length _ _ _ H). Qed.

(** The results kept by a filter, read off the inputs. *)
Lemma mapM_filter_omap (keep : B → bool) (l : list A) (rs : list B) :
  mapM f l = Returns rs →
  List.filter keep rs =
  omap (λ x, match f x with
             | Returns r => if keep r then Some r else None
             | _ => None
             end) l.
Proof.
  rewrite mapM_Returns. induction 1 as [|x r l rs Hr _ IH]; [reflexivity|].
  cbn. rewrite Hr, IH. destruct (keep r); reflexivity.
Qed.

Lemma mapM_take_drop (l : list A) (rs : list B) (n k : nat) :
  mapM f l = Returns rs →
  mapM f (take n (drop k l)) = Returns (take n (drop k rs)).
Proof.
  rewrite !mapM_Returns. intros H.
  apply Forall2_take, Forall2_drop, H.
Qed.

End OutcomeFacts.

(** ** The stable insertion sort *)

Section SortFacts.

Context {A : Type} (cmp : A → A → Z).

Lemma insert_by_perm (x : A) (l : list A) : insert_by cmp x l ≡ₚ x :: l.
Proof.
  induction l as [|y l IH]; cbn; [reflexivity|].
  destruct (cmp x y <=? 0); [reflexivity|].
  rewrite IH. apply Permutation_swap.
Qed.

Lemma Stream_sorted_perm (l : list A) : Stream_sorted cmp l ≡ₚ l.
Proof.
  induction l as [|x l IH]; cbn; [reflexivity|].
  fold (Stream_sorted cmp l). rewrite insert_by_perm, IH. reflexivity.
Qed.

Lemma Stream_sorted_length (l : list A) : length (Stream_sorted cmp l) = length l.
Proof. apply Permutation_length, Stream_sorted_perm. Qed.

(** On elements that satisfy [ok] the comparator is the descending order of an
    integer key. *)
Context (key : A → Z) (ok : A → Prop).
Hypothesis cmp_key : ∀ x y, ok x → ok y → (cmp x y <=? 0) = (key y <=? key x).

Lemma insert_by_Forall (P : A → Prop) (x : A) (l : list A) :
  P x → Forall P l → Forall P (insert_by cmp x l).
Proof.
  intros Hx Hl. eapply Permutation_Forall; [symmetry; apply insert_by_perm|].
  constructor; assumption.
Qed.

Lemma insert_by_sorted (x : A) (l : list A) :
  ok x → Forall ok l →
  StronglySorted (λ a b, key b <= key a) l →
  StronglySorted (λ a b, key b <= key a) (insert_by cmp x l).
Proof.
  intros Hx Hl Hs. induction Hs as [|y l Hs IH Hy]; cbn.
  - repeat constructor.
  - inversion Hl as [|? ? Hoky Hokl]; subst.
    rewrite (cmp_key x y Hx Hoky). destruct (Z.leb_spec (key y) (key x)) as [Hle|Hlt].
    + constructor; [constructor; assumption|].
      constructor; [exact Hle|].
      eapply Forall_impl; [exact Hy|]. cbn. intros z Hz. lia.
    + constructor; [apply IH; exact Hokl|].
      eapply Permutation_Forall; [symmetry; apply insert_by_perm|].
      constructor; [lia | exact Hy].
Qed.

Lemma Stream_sorted_sorted (l : list A) :
  Forall ok l → StronglySorted (λ a b, key b <= key a) (Stream_sorted cmp l).
Proof.
  induction 1 as [|x l Hx Hl IH]; cbn; [constructor|].
  fold (Stream_sorted cmp l). apply insert_by_sorted; [exact Hx | | exact IH].
  eapply Permutation_Forall; [symmetry; apply Stream_sorted_perm | exact Hl].
Qed.

Lemma insert_by_stable (k : Z) (x : A) (l : list A) :
  ok x → Forall ok l →
  List.filter (λ a, key a =? k) (insert_by cmp x l) =
  List.filter (λ a, key a =? k) (x :: l).
Proof.
  intros Hx. induction 1 as [|y l Hy Hl IH]; [reflexivity|].
  cbn [insert_by]. rewrite (cmp_key x y Hx Hy).
  destruct (Z.leb_spec (key y) (key x)) as [Hle|Hlt]; [reflexivity|].
  cbn [List.filter] in *. rewrite IH.
  destruct (Z.eqb_spec (key y) k), (Z.eqb_spec (key x) k); try reflexivity. lia.
Qed.

(** The sort is stable: elements with one key keep their order. *)
Lemma Stream_sorted_stable (k : Z) (l : list A) :
  Forall ok l →
  List.filter (λ a, key a =? k) (Stream_sorted cmp l) =
  List.filter (λ a, key a =? k) l.
Proof.
  induction 1 as [|x l Hx Hl IH]; [reflexivity|].
  cbn [Stream_sorted foldr]. fold (Stream_sorted cmp l).
  rewrite insert_by_stable; [| exact Hx |].
  - cbn [List.filter]. now rewrite IH.
  - eapply Permutation_Forall; [symmetry; apply Stream_sorted_perm | exact Hl].
Qed.

End SortFacts.

Lemma StronglySorted_Forall_impl {A} (P : A → Prop) (R R' : A → A → Prop)
    (l : list A) :
  (∀ a b, P a → P b → R a b → R' a b) →
  Forall P l → StronglySorted R l → StronglySorted R' l.
Proof.
  intros HR HP Hs. induction Hs as [|x l Hs IH Hx]; [constructor|].
  inversion HP as [|? ? HPx HPl]; subst.
  constructor; [apply IH; exact HPl|].
  rewrite Forall_forall in *. intros y Hy. apply HR; auto.
Qed.

(** ** Scores *)

Section ScoreFacts.

#[local] Arguments highlightText : simpl never.

(** The conditional additions of [calculateRelevance] sum the three weights. *)
Lemma score_sum (bt bc bg : bool) :
  (let s1 := if bt then (0 + 3)%float else 0%float in
   let s2 := if bc then (s1 + 1)%float else s1 in
   if bg then (s2 + 2)%float else s2)
  = (weight bt 3 + weight bc 1 + weight bg 2)%float.
Proof. destruct bt, bc, bg; reflexivity. Qed.

Lemma score_sum_values (bt bc bg : bool) :
  (weight bt 3 + weight bc 1 + weight bg 2)%float ∈ score_values.
Proof.
  unfold score_values.
  destruct bt, bc, bg; cbv [weight];
    repeat (first [apply list_elem_of_here | apply list_elem_of_further]).
Qed.

Lemma tagBonus_Returns (tags : list (option string)) (q : string) (s s' : float) :
  tagBonus tags q s = Returns s' →
  ∃ bg : bool,
    s' = (if bg then (s + 2)%float else s) ∧
    (bg = true ↔
     ∃ tag, Some tag ∈ tags ∧ contains (toLowerCase tag) (toLowerCase q) = true).
Proof.
  induction tags as [|[tag|] tags IH]; cbn; intros H.
  - injection H as <-. exists false. split; [reflexivity|].
    split; [discriminate | intros (tag & Hin & _); inversion Hin].
  - destruct (contains (toLowerCase tag) (toLowerCase q)) eqn:Hc.
    + injection H as <-. exists true. split; [reflexivity|].
      split; [|reflexivity]. intros _. exists tag. split; [constructor | exact Hc].
    + destruct (IH H) as (bg & Hs & Hbg). exists bg. split; [exact Hs|].
      rewrite Hbg. split.
      * intros (t & Hin & Ht). exists t. split; [now constructor | exact Ht].
      * intros (t & Hin & Ht). apply elem_of_cons in Hin as [Heq | Hin].
        -- injection Heq as ->. congruence.
        -- eauto.
  - discriminate.
Qed.

Lemma tagBonus_total (tags : list (option string)) (q : string) (s : float) :
  Forall is_Some tags → ∃ s', tagBonus tags q s = Returns s'.
Proof.
  induction 1 as [|tag tags [t ->] _ IH]; cbn; [eauto|].
  destruct (contains (toLowerCase t) (toLowerCase q)); eauto.
Qed.

(** What a returned result says about the index entry it was computed from. *)
Lemma calculateRelevance_Returns (index : SearchIndex.t) (q : string)
    (r : SearchResult.t) :
  calculateRelevance index q = Returns r →
  ∃ (t c : string) (bg : bool),
    let bt := contains (toLowerCase t) (toLowerCase q) in
    let bc := contains (toLowerCase c) (toLowerCase q) in
    SearchIndex.title index = Some t ∧
    SearchIndex.content index = Some c ∧
    (bg = true ↔
     ∃ tag, Some tag ∈ SearchIndex.tags index ∧
            contains (toLowerCase tag) (toLowerCase q) = true) ∧
    SearchResult.score r = (weight bt 3 + weight bc 1 + weight bg 2)%float ∧
    (if bt then highlightText (Some t) (Some q) = Returns (SearchResult.highlightedTitle r)
     else SearchResult.highlightedTitle r = Some t) ∧
    (if bc then highlightText (Some c) (Some q) = Returns (SearchResult.highlightedContent r)
     else SearchResult.highlightedContent r = Some c) ∧
    SearchResult.id r = SearchIndex.id index ∧
    SearchResult.title r = SearchIndex.title index ∧
    SearchResult.content r = SearchIndex.content index ∧
    SearchResult.excerpt r = SearchIndex.excerpt index.
Proof.
  unfold calculateRelevance.
  destruct (SearchIndex.title index) as [t|] eqn:Et; cbn; [|discriminate].
  destruct (SearchIndex.content index) as [c|] eqn:Ec; cbn.
  2: { destruct (contains (toLowerCase t) (toLowerCase q));
       [destruct (highlightText (Some t) (Some q))|]; cbn; discriminate. }
  intros H. exists t, c. revert H.
  destruct (contains (toLowerCase t) (toLowerCase q)) eqn:Bt;
    [destruct (highlightText (Some t) (Some q)) as [ht| |] eqn:Ht;
     cbn; try discriminate|]; cbn;
    (destruct (contains (toLowerCase c) (toLowerCase q)) eqn:Bc;
     [destruct (highlightText (Some c) (Some q)) as [hc| |] eqn:Hc;
      cbn; try discriminate|]; cbn);
    match goal with
    | |- context [tagBonus ?tags ?q ?s] =>
        destruct (tagBonus tags q s) as [s'| |] eqn:Hs; try discriminate;
        cbn; intros [= <-];
        destruct (tagBonus_Returns _ _ _ _ Hs) as (bg & -> & Hbg);
        exists bg; cbn;
        repeat split; try apply Hbg; try assumption; try reflexivity;
        destruct bg; reflexivity
    end.
Qed.

Lemma calculateRelevance_total (index : SearchIndex.t) (q : string) :
  is_Some (SearchIndex.title index) →
  is_Some (SearchIndex.content index) →
  Forall is_Some (SearchIndex.tags index) →
  highlightable q →
  ∃ r, calculateRelevance index q = Returns r.
Proof.
  intros [t Et] [c Ec] Htags Hq. unfold calculateRelevance. rewrite Et, Ec. cbn.
  destruct (highlightText_returns t q Hq) as [ht Ht].
  destruct (highlightText_returns c q Hq) as [hc Hc].
  destruct (contains (toLowerCase t) (toLowerCase q)); rewrite ?Ht; cbn;
    destruct (contains (toLowerCase c) (toLowerCase q)); rewrite ?Hc; cbn;
    match goal with
    | |- context [tagBonus ?tags ?q ?s] =>
        destruct (tagBonus_total tags q s Htags) as [s' ->]; cbn; eauto
    end.
Qed.

Lemma calculateRelevance_score_values (index : SearchIndex.t) (q : string)
    (r : SearchResult.t) :
  calculateRelevance index q = Returns r → SearchResult.score r ∈ score_values.
Proof.
  intros H. destruct (calculateRelevance_Returns _ _ _ H)
    as (t & c & bg & _ & _ & _ & -> & _).
  apply score_sum_values.
Qed.

(** On the scores that occur, [Double.compare] and the float comparisons are
    those of the rank. *)
Lemma Double_compare_rank (a b : float) :
  a ∈ score_values → b ∈ score_values →
  Double_compare a b = Z.sgn (score_rank a - score_rank b).
Proof.
  unfold score_values. intros Ha Hb.
  repeat (apply elem_of_cons in Ha as [-> | Ha]);
    try (apply elem_of_nil in Ha; contradiction);
    repeat (apply elem_of_cons in Hb as [-> | Hb]);
    try (apply elem_of_nil in Hb; contradiction);
    reflexivity.
Qed.

Lemma leb_rank (a b : float) :
  a ∈ score_values → b ∈ score_values →
  (b <=? a)%float = (score_rank b <=? score_rank a).
Proof.
  unfold score_values. intros Ha Hb.
  repeat (apply elem_of_cons in Ha as [-> | Ha]);
    try (apply elem_of_nil in Ha; contradiction);
    repeat (apply elem_of_cons in Hb as [-> | Hb]);
    try (apply elem_of_nil in Hb; contradiction);
    reflexivity.
Qed.

Lemma by_score_desc_key (x y : SearchResult.t) :
  SearchResult.score x ∈ score_values → SearchResult.score y ∈ score_values →
  (by_score_desc x y <=? 0) =
  (score_rank (SearchResult.score y) <=? score_rank (SearchResult.score x)).
Proof.
  intros Hx Hy. unfold by_score_desc. rewrite (Double_compare_rank _ _ Hy Hx).
  destruct (Z.leb_spec (score_rank (SearchResult.score y))
                       (score_rank (SearchResult.score x)));
    [apply Z.leb_le | apply Z.leb_gt]; lia.
Qed.

Lemma equal_score_rank (s : float) (r : SearchResult.t) :
  s ∈ score_values → SearchResult.score r ∈ score_values →
  (Double_compare (SearchResult.score r) s =? 0) =
  (score_rank (SearchResult.score r) =? score_rank s).
Proof.
  intros Hs Hr. rewrite (Double_compare_rank _ _ Hr Hs).
  destruct (Z.eqb_spec (score_rank (SearchResult.score r)) (score_rank s));
    [apply Z.eqb_eq | apply Z.eqb_neq]; lia.
Qed.

End ScoreFacts.

(** ** The methods of the service *)

Ltac method_simpl :=
  repeat (progress (unfold mbind, method_mbind, method_bind, outcome_mbind, mret,
                    method_mret, outcome_mret, call, get_searchIndex,
                    get_postRepository, set_searchIndex; cbn)).

Section MethodFacts.

#[local] Arguments highlightText : simpl never.

(** [convertToPostResponse] only reads the repository. *)
Lemma convertToPostResponse_state (r : SearchResult.t) (this : SearchService) :
  convertToPostResponse r this = ((convertToPostResponse r this).1, this).
Proof.
  unfold convertToPostResponse. method_simpl.
  destruct (postRepository this !! SearchResult.id r) as [post|]; cbn; [|reflexivity].
  destruct (Post.author post); reflexivity.
Qed.

Lemma mapM_convertToPostResponse (l : list SearchResult.t) (this : SearchService) :
  mapM convertToPostResponse l this =
  (mapM (λ r, (convertToPostResponse r this).1) l, this).
Proof.
  induction l as [|r l IH]; [reflexivity|].
  change (mapM convertToPostResponse (r :: l) this) with
    (method_bind (λ y, method_bind (λ k, method_mret _ (y :: k))
                                   (mapM convertToPostResponse l))
                 (convertToPostResponse r) this).
  change (mapM (λ r, (convertToPostResponse r this).1) (r :: l)) with
    (outcome_bind (λ y, outcome_bind (λ k, Returns (y :: k))
                          (mapM (λ r, (convertToPostResponse r this).1) l))
                  ((convertToPostResponse r this).1)).
  unfold method_bind at 1. rewrite convertToPostResponse_state.
  destruct (convertToPostResponse r this).1 as [pr| |]; cbn; try reflexivity.
  unfold method_bind. rewrite IH.
  destruct (mapM (λ r0, (convertToPostResponse r0 this).1) l); reflexivity.
Qed.

(** The response carries the score and the highlighted fields of the result,
    and the id of the post that the repository holds under the result's id. *)
Lemma convertToPostResponse_Returns (r : SearchResult.t) (this : SearchService)
    (pr : PostResponse.t) :
  (convertToPostResponse r this).1 = Returns pr →
  PostResponse.searchScore pr = SearchResult.score r ∧
  PostResponse.highlightedTitle pr = SearchResult.highlightedTitle r ∧
  PostResponse.highlightedContent pr = SearchResult.highlightedContent r ∧
  ∃ post, postRepository this !! SearchResult.id r = Some post ∧
          PostResponse.id pr = Post.id post.
Proof.
  unfold convertToPostResponse. method_simpl.
  destruct (postRepository this !! SearchResult.id r) as [post|]; cbn; [|discriminate].
  destruct (Post.author post); cbn; [|discriminate].
  intros [= <-]. cbn. repeat split. exists post. split; reflexivity.
Qed.

Lemma convertToPostResponse_Throws (r : SearchResult.t) (this : SearchService) (e : exn) :
  (convertToPostResponse r this).1 = Throws e →
  e ≠ (IllegalArgumentException EmptyQuery).
Proof.
  unfold convertToPostResponse. method_simpl.
  destruct (postRepository this !! SearchResult.id r) as [post|]; cbn;
    [destruct (Post.author post); cbn|]; intros [= <-]; discriminate.
Qed.

Lemma mapM_Throws {A B} (f : A → outcome B) (l : list A) (e : exn) :
  mapM f l = Throws e → ∃ x, x ∈ l ∧ f x = Throws e.
Proof.
  induction l as [|x l IH]; cbn; [discriminate|].
  destruct (f x) as [y| |] eqn:Hx; cbn; try discriminate.
  - destruct (mapM f l) as [ys| |]; cbn; try discriminate.
    intros [= <-]. destruct IH as (x' & Hin & Hx'); [reflexivity|].
    exists x'. split; [now constructor | exact Hx'].
  - intros [= <-]. exists x. split; [constructor | exact Hx].
Qed.

Lemma replaceAll_Throws (text regex replacement : string) (e : exn) :
  replaceAll text regex replacement = Throws e → e = PatternSyntaxException.
Proof.
  unfold replaceAll. destruct (Regex.compile regex); try discriminate.
  - destruct (Regex.parse_replacement replacement); [|discriminate].
    destruct (Regex.groups_exist p l); discriminate.
  - intros [= <-]. reflexivity.
Qed.

Lemma highlightText_Throws (text query : option string) (e : exn) :
  highlightText text query = Throws e → e = PatternSyntaxException.
Proof.
  unfold highlightText. destruct text as [t|], query as [q|]; try discriminate.
  destruct (replaceAll t ("(?i)(" +:+ q +:+ ")") "<mark>$1</mark>") eqn:E;
    cbn; try discriminate.
  intros [= <-]. exact (replaceAll_Throws _ _ _ _ E).
Qed.

Lemma tagBonus_Throws (tags : list (option string)) (q : string) (s : float) (e : exn) :
  tagBonus tags q s = Throws e → e = NullPointerException.
Proof.
  induction tags as [|[tag|] tags IH]; cbn; try discriminate.
  - destruct (contains (toLowerCase tag) (toLowerCase q)); [discriminate | exact IH].
  - intros [= <-]. reflexivity.
Qed.

Lemma calculateRelevance_Throws (index : SearchIndex.t) (q : string) (e : exn) :
  calculateRelevance index q = Throws e →
  e = NullPointerException ∨ e = PatternSyntaxException.
Proof.
  unfold calculateRelevance.
  destruct (SearchIndex.title index) as [t|]; cbn; [|intros [= <-]; auto].
  destruct (contains (toLowerCase t) (toLowerCase q));
    [destruct (highlightText (Some t) (Some q)) as [ht| |] eqn:Ht; cbn;
     try discriminate;
     [|intros [= <-]; right; exact (highlightText_Throws _ _ _ Ht)]|]; cbn;
    (destruct (SearchIndex.content index) as [c|]; cbn; [|intros [= <-]; auto]);
    (destruct (contains (toLowerCase c) (toLowerCase q));
     [destruct (highlightText (Some c) (Some q)) as [hc| |] eqn:Hc; cbn;
      try discriminate;
      [|intros [= <-]; right; exact (highlightText_Throws _ _ _ Hc)]|]; cbn);
    match goal with
    | |- context [tagBonus ?tags ?q ?s] =>
        destruct (tagBonus tags q s) as [s'| |] eqn:Hs; cbn; try discriminate;
        intros [= <-]; left; exact (tagBonus_Throws _ _ _ _ Hs)
    end.
Qed.

Lemma subList_Throws {A} (l : list A) (from to : Z) (e : exn) :
  subList l from to = Throws e →
  e = IndexOutOfBoundsException ∨ e = (IllegalArgumentException FromIndexAfterToIndex).
Proof.
  unfold subList.
  destruct (from <? 0); [intros [= <-]; auto|].
  destruct (Z.of_nat (length l) <? to); [intros [= <-]; auto|].
  destruct (to <? from); [intros [= <-]; auto | discriminate].
Qed.

(** A range inside the list is cut out as it is. *)
Lemma subList_in_range {A} (l : list A) (from size : Z) :
  0 ≤ from ≤ Z.of_nat (length l) → 0 ≤ size →
  subList l from (Z.min (from + size) (Z.of_nat (length l))) =
  Returns (take (Z.to_nat size) (drop (Z.to_nat from) l)).
Proof.
  intros Hfrom Hsize. unfold subList.
  destruct (Z.ltb_spec from 0); [lia|].
  destruct (Z.ltb_spec (Z.of_nat (length l)) (Z.min (from + size) (Z.of_nat (length l))));
    [lia|].
  destruct (Z.ltb_spec (Z.min (from + size) (Z.of_nat (length l))) from); [lia|].
  f_equal.
  destruct (Z.le_ge_cases (from + size) (Z.of_nat (length l))) as [Hle|Hge].
  - rewrite Z.min_l by exact Hle. f_equal. lia.
  - rewrite Z.min_r by exact Hge.
    rewrite !take_ge; [reflexivity | |]; rewrite length_drop; lia.
Qed.

Lemma rank_Returns (vals : list SearchIndex.t) (q : string) (results : list SearchResult.t) :
  rank vals q = Returns results ↔
  ∃ scored, mapM (λ index, calculateRelevance index q) vals = Returns scored ∧
    results = Stream_sorted by_score_desc
                (List.filter (λ r, (0 <? SearchResult.score r)%float) scored).
Proof.
  unfold rank.
  destruct (mapM (λ index, calculateRelevance index q) vals) as [scored| |]; cbn.
  - split.
    + intros [= <-]. eauto.
    + intros (scored' & [= <-] & ->). reflexivity.
  - split; [discriminate | intros (? & ? & _); discriminate].
  - split; [discriminate | intros (? & ? & _); discriminate].
Qed.

Lemma rank_Throws (vals : list SearchIndex.t) (q : string) (e : exn) :
  rank vals q = Throws e → e = NullPointerException ∨ e = PatternSyntaxException.
Proof.
  unfold rank.
  destruct (mapM (λ index, calculateRelevance index q) vals) as [scored| |] eqn:E;
    cbn; try discriminate.
  intros [= <-]. destruct (mapM_Throws _ _ _ E) as (x & _ & Hx).
  exact (calculateRelevance_Throws _ _ _ Hx).
Qed.

Lemma scored_values (vals : list SearchIndex.t) (q : string) (scored : list SearchResult.t) :
  mapM (λ index, calculateRelevance index q) vals = Returns scored →
  Forall (λ r, SearchResult.score r ∈ score_values) scored.
Proof.
  rewrite mapM_Returns. induction 1 as [|index r vals scored Hr _ IH]; constructor.
  - exact (calculateRelevance_score_values _ _ _ Hr).
  - exact IH.
Qed.

Lemma Forall_filter {A} (P : A → Prop) (keep : A → bool) (l : list A) :
  Forall P l → Forall P (List.filter keep l).
Proof.
  induction 1 as [|x l Hx _ IH]; cbn; [constructor|].
  destruct (keep x); [constructor; assumption | assumption].
Qed.

Lemma Forall_filter_keep {A} (keep : A → bool) (l : list A) :
  Forall (λ x, keep x = true) (List.filter keep l).
Proof.
  induction l as [|x l IH]; cbn; [constructor|].
  destruct (keep x) eqn:E; [constructor; assumption | assumption].
Qed.

End MethodFacts.

(** ** Entries that differ in the excerpt *)

Section ExcerptFacts.

#[local] Arguments highlightText : simpl never.

Lemma agree_score (r1 r2 : SearchResult.t) :
  agree r1 r2 → SearchResult.score r2 = SearchResult.score r1.
Proof. unfold agree. intros ->. reflexivity. Qed.

Lemma same_but_excerpt_refl (d : SearchIndex.t) : same_but_excerpt d d.
Proof. repeat split. Qed.

Lemma calculateRelevance_excerpt (d1 d2 : SearchIndex.t) (q : string) :
  same_but_excerpt d1 d2 →
  calculateRelevance d2 q =
    with_excerpt (SearchIndex.excerpt d2) <$> calculateRelevance d1 q.
Proof.
  destruct d1 as [i1 t1 c1 e1 g1], d2 as [i2 t2 c2 e2 g2].
  unfold same_but_excerpt. cbn. intros (-> & -> & -> & ->).
  unfold calculateRelevance. cbn.
  destruct t2 as [t|]; cbn; [|reflexivity].
  destruct (contains (toLowerCase t) (toLowerCase q));
    [destruct (highlightText (Some t) (Some q)) as [ht| |]; cbn; try reflexivity|];
    cbn;
    (destruct c2 as [c|]; cbn; [|reflexivity]);
    (destruct (contains (toLowerCase c) (toLowerCase q));
     [destruct (highlightText (Some c) (Some q)) as [hc| |]; cbn; try reflexivity|];
     cbn);
    match goal with
    | |- context [tagBonus ?tags ?q ?s] => destruct (tagBonus tags q s); reflexivity
    end.
Qed.

Lemma mapM_calculateRelevance_agree (ds1 ds2 : list SearchIndex.t) (q : string) :
  Forall2 same_but_excerpt ds1 ds2 →
  match mapM (λ d, calculateRelevance d q) ds1,
        mapM (λ d, calculateRelevance d q) ds2 with
  | Returns l1, Returns l2 => Forall2 agree l1 l2
  | Throws e1, Throws e2 => e1 = e2
  | OutsideFragment, OutsideFragment => True
  | _, _ => False
  end.
Proof.
  induction 1 as [|d1 d2 ds1 ds2 Hd _ IH]; [constructor|].
  cbn. rewrite (calculateRelevance_excerpt d1 d2 q Hd).
  destruct (calculateRelevance d1 q) as [r| |]; cbn; try reflexivity.
  destruct (mapM (λ d, calculateRelevance d q) ds1) as [l1| |],
           (mapM (λ d, calculateRelevance d q) ds2) as [l2| |];
    cbn; try exact IH; try contradiction.
  constructor; [reflexivity | exact IH].
Qed.

Lemma filter_agree (l1 l2 : list SearchResult.t) :
  Forall2 agree l1 l2 →
  Forall2 agree (List.filter (λ r, (0 <? SearchResult.score r)%float) l1)
                (List.filter (λ r, (0 <? SearchResult.score r)%float) l2).
Proof.
  induction 1 as [|r1 r2 l1 l2 Hr _ IH]; [constructor|].
  cbn. rewrite (agree_score _ _ Hr).
  destruct (0 <? SearchResult.score r1)%float; [constructor; assumption | exact IH].
Qed.

Lemma insert_by_agree (r1 r2 : SearchResult.t) (l1 l2 : list SearchResult.t) :
  agree r1 r2 → Forall2 agree l1 l2 →
  Forall2 agree (insert_by by_score_desc r1 l1) (insert_by by_score_desc r2 l2).
Proof.
  intros Hr. induction 1 as [|x1 x2 l1 l2 Hx Hl IH]; cbn.
  - repeat constructor. exact Hr.
  - unfold by_score_desc at 1 3. rewrite (agree_score _ _ Hr), (agree_score _ _ Hx).
    destruct (Double_compare (SearchResult.score x1) (SearchResult.score r1) <=? 0).
    + constructor; [exact Hr|]. constructor; assumption.
    + constructor; [exact Hx | exact IH].
Qed.

Lemma Stream_sorted_agree (l1 l2 : list SearchResult.t) :
  Forall2 agree l1 l2 →
  Forall2 agree (Stream_sorted by_score_desc l1) (Stream_sorted by_score_desc l2).
Proof.
  induction 1 as [|r1 r2 l1 l2 Hr _ IH]; [constructor|].
  cbn. apply insert_by_agree; assumption.
Qed.

(** Ranking two sequences whose entries differ in the excerpts at most. *)
Lemma rank_agree (ds1 ds2 : list SearchIndex.t) (q : string) :
  Forall2 same_but_excerpt ds1 ds2 →
  agree_up_to_excerpt (rank ds1 q) (rank ds2 q).
Proof.
  intros H. pose proof (mapM_calculateRelevance_agree ds1 ds2 q H) as Hm.
  unfold rank, agree_up_to_excerpt.
  destruct (mapM (λ d, calculateRelevance d q) ds1) as [l1| |],
           (mapM (λ d, calculateRelevance d q) ds2) as [l2| |];
    cbn; try exact Hm.
  apply Stream_sorted_agree, filter_agree, Hm.
Qed.

End ExcerptFacts.

(** ** Pages *)

Section PagingFacts.

Lemma int_cast_small (z : Z) : 0 ≤ z < 2 ^ 31 → int_cast z = z.
Proof.
  unfold int_cast. change (2 ^ 31) with 2147483648. change (2 ^ 32) with 4294967296.
  intros Hz. rewrite Z.mod_small; lia.
Qed.

(** Consecutive pages of [n] elements make up the front of the list. *)
Lemma concat_pages {A} (l : list A) (n k : nat) :
  concat ((λ p, take n (drop (p * n) l)) <$> seq 0 k) = take (k * n) l.
Proof.
  induction k as [|k IH]; [reflexivity|].
  rewrite seq_S, fmap_app, concat_app, IH. cbn [fmap list_fmap concat].
  rewrite app_nil_r, Nat.add_0_l, take_take_drop. f_equal. lia.
Qed.

(** The total that a page of the results reports is the number of results. *)
Lemma PageImpl_total (responses : list PostResponse.t) (pg : Pageable) :
  0 ≤ getOffset pg ≤ Z.of_nat (length responses) → 0 ≤ pageSize pg →
  getTotalElements
    (PageImpl (take (Z.to_nat (pageSize pg)) (drop (Z.to_nat (getOffset pg)) responses))
              pg (Z.of_nat (length responses)))
  = Z.of_nat (length responses).
Proof.
  intros Hoff Hsize. unfold PageImpl. cbn [getTotalElements].
  destruct (negb _); [|reflexivity]. cbn [andb].
  destruct (Z.ltb_spec (Z.of_nat (length responses)) (getOffset pg + pageSize pg));
    [|reflexivity].
  rewrite length_take, length_drop. lia.
Qed.

(** A list of calls that each return and leave the service as it is. *)
Lemma mapM_method_Returns {A B} (f : A → method B) (g : A → B) (l : list A)
    (this : SearchService) :
  (∀ x, x ∈ l → f x this = (Returns (g x), this)) →
  mapM f l this = (Returns (g <$> l), this).
Proof.
  induction l as [|x l IH]; intros Hf; [reflexivity|].
  change (mapM f (x :: l) this) with
    (method_bind (λ y, method_bind (λ k, method_mret _ (y :: k)) (mapM f l))
                 (f x) this).
  unfold method_bind at 1. rewrite (Hf x) by constructor.
  unfold method_bind. rewrite IH; [reflexivity|].
  intros y Hy. apply Hf. now constructor.
Qed.

End PagingFacts.

(** ** Search over the index *)

Section SearchFacts.

Variable values : gmap Z SearchIndex.t → list SearchIndex.t.
Hypothesis values_perm : ∀ m, values m ≡ₚ (map_to_list m).*2.

#[local] Arguments highlightText : simpl never.
#[local] Arguments rank : simpl never.
#[local] Arguments normalizeQuery : simpl never.
#[local] Arguments subList : simpl never.
#[local] Arguments PageImpl : simpl never.
#[local] Arguments int_cast : simpl never.

Lemma performSearch_rank (q : string) (this : SearchService) :
  performSearch values q this = (rank (values (searchIndex this)) q, this).
Proof. reflexivity. Qed.

(** [searchPosts] on a query that is not blank, step by step. *)
Lemma searchPosts_nonblank (this : SearchService) (query nq : string) (pg : Pageable) :
  isEmpty (trim query) = false →
  normalizeQuery query = Returns nq →
  searchPosts values (Some query) pg this =
  (results ← rank (values (searchIndex this)) nq;
   pagedResults ← subList results (page_start pg) (page_end pg (length results));
   postResponses ← mapM (λ r, (convertToPostResponse r this).1) pagedResults;
   Returns (PageImpl postResponses pg (Z.of_nat (length results))), this).
Proof.
  intros Hblank Hnq. unfold searchPosts, page_end, page_start. rewrite Hblank.
  unfold performSearch. method_simpl. rewrite Hnq. cbn.
  destruct (rank (values (searchIndex this)) nq) as [results| |]; cbn;
    try reflexivity.
  destruct (subList results (int_cast (getOffset pg))
              (Z.min (int_cast (int_cast (getOffset pg) + pageSize pg))
                     (Z.of_nat (length results)))) as [paged| |]; cbn;
    try reflexivity.
  rewrite mapM_convertToPostResponse.
  destruct (mapM (λ r, (convertToPostResponse r this).1) paged); reflexivity.
Qed.

(** [searchPosts] leaves the fields of the service as they are. *)
Lemma searchPosts_state (this : SearchService) (query : option string) (pg : Pageable) :
  (searchPosts values query pg this).2 = this.
Proof.
  destruct query as [query|]; [|reflexivity].
  destruct (isEmpty (trim query)) eqn:Hblank.
  - unfold searchPosts. rewrite Hblank. reflexivity.
  - destruct (normalizeQuery_returns query) as [nq Hnq].
    rewrite (searchPosts_nonblank this query nq pg Hblank Hnq). reflexivity.
Qed.

(** What a returned page was computed from. *)
Lemma searchPosts_Returns (this this' : SearchService) (query : string)
    (pg : Pageable) (page : Page) :
  searchPosts values (Some query) pg this = (Returns page, this') →
  ∃ nq results paged responses,
    isEmpty (trim query) = false ∧
    normalizeQuery query = Returns nq ∧
    rank (values (searchIndex this)) nq = Returns results ∧
    subList results (page_start pg) (page_end pg (length results)) = Returns paged ∧
    mapM (λ r, (convertToPostResponse r this).1) paged = Returns responses ∧
    page = PageImpl responses pg (Z.of_nat (length results)) ∧
    this' = this.
Proof.
  destruct (isEmpty (trim query)) eqn:Hblank.
  - unfold searchPosts. rewrite Hblank. discriminate.
  - destruct (normalizeQuery_returns query) as [nq Hnq].
    rewrite (searchPosts_nonblank this query nq pg Hblank Hnq).
    destruct (rank (values (searchIndex this)) nq) as [results| |] eqn:Hrank; cbn;
      try discriminate.
    destruct (subList results (page_start pg) (page_end pg (length results)))
      as [paged| |] eqn:Hsub; cbn; try discriminate.
    destruct (mapM (λ r, (convertToPostResponse r this).1) paged)
      as [responses| |] eqn:Hconv; cbn; try discriminate.
    intros [= <- <-]. exists nq, results, paged, responses.
    repeat split; first [assumption | reflexivity].
Qed.

(** The ranked results are the results of the entries that match. *)
Lemma rank_matching (m : gmap Z SearchIndex.t) (q : string)
    (results : list SearchResult.t) :
  rank (values m) q = Returns results → results ≡ₚ matching_results m q.
Proof.
  rewrite rank_Returns. intros (scored & Hscored & ->).
  rewrite Stream_sorted_perm. rewrite (mapM_filter_omap _ _ _ _ Hscored).
  unfold matching_results. now rewrite (values_perm m).
Qed.

Lemma elem_of_matching_results (m : gmap Z SearchIndex.t) (q : string)
    (r : SearchResult.t) :
  r ∈ matching_results m q ↔
  ∃ k index, m !! k = Some index ∧ calculateRelevance index q = Returns r ∧
             (0 <? SearchResult.score r)%float = true.
Proof.
  unfold matching_results. rewrite list_elem_of_omap. split.
  - intros (index & Hin & Hr). apply list_elem_of_fmap in Hin as ([k index'] & -> & Hin).
    apply elem_of_map_to_list in Hin. exists k, index'. split; [exact Hin|].
    cbn in Hr. destruct (calculateRelevance index' q) as [r'| |]; try discriminate.
    destruct (0 <? SearchResult.score r')%float eqn:Hpos; [|discriminate].
    injection Hr as <-. auto.
  - intros (k & index & Hk & Hr & Hpos). exists index. split.
    + apply list_elem_of_fmap. exists (k, index). split; [reflexivity|].
      now apply elem_of_map_to_list.
    + rewrite Hr, Hpos. reflexivity.
Qed.

Lemma rank_sorted (vals : list SearchIndex.t) (q : string)
    (results : list SearchResult.t) :
  rank vals q = Returns results →
  Forall (λ r, SearchResult.score r ∈ score_values) results ∧
  Forall (λ r, (0 <? SearchResult.score r)%float = true) results ∧
  StronglySorted
    (λ a b, (SearchResult.score b <=? SearchResult.score a)%float = true) results.
Proof.
  rewrite rank_Returns. intros (scored & Hscored & ->).
  pose proof (Forall_filter _ (λ r, (0 <? SearchResult.score r)%float) _
                (scored_values _ _ _ Hscored)) as Hok.
  assert (Hok' : Forall (λ r, SearchResult.score r ∈ score_values)
                   (Stream_sorted by_score_desc
                      (List.filter (λ r, (0 <? SearchResult.score r)%float) scored))).
  { eapply Permutation_Forall; [symmetry; apply Stream_sorted_perm | exact Hok]. }
  split; [exact Hok'|]. split.
  - eapply Permutation_Forall; [symmetry; apply Stream_sorted_perm|].
    apply Forall_filter_keep.
  - eapply StronglySorted_Forall_impl; [| exact Hok' |].
    2: { apply (Stream_sorted_sorted by_score_desc
                  (λ r, score_rank (SearchResult.score r))
                  (λ r, SearchResult.score r ∈ score_values));
         [exact by_score_desc_key | exact Hok]. }
    cbn. intros a b Ha Hb Hle. rewrite (leb_rank _ _ Ha Hb). now apply Z.leb_le.
Qed.

Lemma rank_total (m : gmap Z SearchIndex.t) (q : string) :
  (∀ k index, m !! k = Some index → ∃ r, calculateRelevance index q = Returns r) →
  ∃ results, rank (values m) q = Returns results.
Proof.
  intros Hall.
  destruct (mapM_total (λ index, calculateRelevance index q) (values m)) as [scored Hs].
  - apply Forall_forall. intros index Hin.
    rewrite (values_perm m) in Hin.
    apply list_elem_of_fmap in Hin as ([k index'] & -> & Hin).
    apply elem_of_map_to_list in Hin. exact (Hall k index' Hin).
  - eexists. apply rank_Returns. eauto.
Qed.

Lemma subList_elem_of {A} (l paged : list A) (from to : Z) (x : A) :
  subList l from to = Returns paged → x ∈ paged → x ∈ l.
Proof.
  unfold subList.
  destruct (from <? 0); [discriminate|].
  destruct (Z.of_nat (length l) <? to); [discriminate|].
  destruct (to <? from); [discriminate|].
  intros [= <-] Hin.
  apply subseteq_take in Hin. exact (subseteq_drop _ _ _ Hin).
Qed.

(** A page that starts inside the results is the slice of the responses. *)
Lemma searchPosts_page (this : SearchService) (query nq : string)
    (results : list SearchResult.t) (responses : list PostResponse.t)
    (pg : Pageable) :
  isEmpty (trim query) = false →
  normalizeQuery query = Returns nq →
  rank (values (searchIndex this)) nq = Returns results →
  mapM (λ r, (convertToPostResponse r this).1) results = Returns responses →
  0 ≤ getOffset pg ≤ Z.of_nat (length results) →
  0 ≤ pageSize pg →
  getOffset pg + pageSize pg < 2 ^ 31 →
  searchPosts values (Some query) pg this =
  (Returns (PageImpl (take (Z.to_nat (pageSize pg))
                        (drop (Z.to_nat (getOffset pg)) responses))
                     pg (Z.of_nat (length results))), this).
Proof.
  intros Hblank Hnq Hrank Hconv Hoff Hsize Hint.
  rewrite (searchPosts_nonblank this query nq pg Hblank Hnq), Hrank. cbn.
  unfold page_end, page_start.
  rewrite (int_cast_small (getOffset pg)) by lia.
  rewrite (int_cast_small (getOffset pg + pageSize pg)) by lia.
  rewrite (subList_in_range results _ _ Hoff Hsize). cbn.
  rewrite (mapM_take_drop _ _ _ _ _ Hconv). reflexivity.
Qed.

(** A page that starts beyond the results: [end] is clamped, [start] is not,
    and [subList] rejects the range. *)
Lemma searchPosts_beyond_results (this : SearchService) (query nq : string)
    (results : list SearchResult.t) (pg : Pageable) :
  isEmpty (trim query) = false →
  normalizeQuery query = Returns nq →
  rank (values (searchIndex this)) nq = Returns results →
  Z.of_nat (length results) < getOffset pg →
  0 ≤ pageSize pg →
  getOffset pg + pageSize pg < 2 ^ 31 →
  searchPosts values (Some query) pg this =
  (Throws (IllegalArgumentException FromIndexAfterToIndex), this).
Proof.
  intros Hblank Hnq Hrank Hoff Hsize Hint.
  rewrite (searchPosts_nonblank this query nq pg Hblank Hnq), Hrank. cbn.
  unfold page_end, page_start.
  rewrite (int_cast_small (getOffset pg)) by lia.
  rewrite (int_cast_small (getOffset pg + pageSize pg)) by lia.
  unfold subList.
  destruct (Z.ltb_spec (getOffset pg) 0); [lia|].
  destruct (Z.ltb_spec (Z.of_nat (length results))
              (Z.min (getOffset pg + pageSize pg) (Z.of_nat (length results))));
    [lia|].
  destruct (Z.ltb_spec (Z.min (getOffset pg + pageSize pg) (Z.of_nat (length results)))
              (getOffset pg)); [reflexivity | lia].
Qed.

End SearchFacts.

(** ** The cached calls *)

Section KeyFacts.

Lemma no_underscore_app (s u : string) :
  no_underscore (s +:+ String "_" u) = false.
Proof.
  induction s as [|c s IH]; cbn; [reflexivity|].
  rewrite IH. apply andb_false_r.
Qed.

(** The text after the last underscore is read off a key. *)
Lemma split_at_last_underscore (x y u v : string) :
  no_underscore u = true → no_underscore v = true →
  x +:+ String "_" u = y +:+ String "_" v → x = y ∧ u = v.
Proof.
  intros Hu Hv. revert y. induction x as [|c x IH]; intros [|d y]; cbn.
  - intros [= ->]. auto.
  - intros [= <- ->]. rewrite no_underscore_app in Hu. discriminate.
  - intros [= -> <-]. rewrite no_underscore_app in Hv. discriminate.
  - intros [= -> H]. destruct (IH _ H) as [-> ->]. auto.
Qed.

Lemma pretty_N_go_no_underscore (x : N) (s : string) :
  no_underscore s = true → no_underscore (pretty_N_go x s) = true.
Proof.
  revert s. induction (N.lt_wf_0 x) as [x _ IH]; intros s Hs.
  assert (x = 0 ∨ 0 < x)%N as [-> | Hx] by lia.
  - now rewrite pretty_N_go_0.
  - rewrite pretty_N_go_step by exact Hx. apply IH.
    + now apply N.div_lt.
    + cbn. rewrite Hs, andb_true_r. unfold pretty_N_char.
      repeat case_match; reflexivity.
Qed.

Lemma pretty_Z_no_underscore (z : Z) : no_underscore (pretty z) = true.
Proof.
  assert (HN : ∀ n : N, no_underscore (pretty n) = true).
  { intros n. unfold pretty, pretty_N. case_decide; [reflexivity|].
    now apply pretty_N_go_no_underscore. }
  destruct z as [|p|p]; [reflexivity | apply HN | cbn; apply HN].
Qed.

(** The cache key determines the query and the page. *)
Lemma search_key_inj (q1 q2 : string) (pg1 pg2 : Pageable) :
  search_key (Some q1) pg1 = search_key (Some q2) pg2 → q1 = q2 ∧ pg1 = pg2.
Proof.
  assert (Hkey : ∀ q pg,
    search_key (Some q) pg =
    (q +:+ String "_" (pretty (pageNumber pg))) +:+ String "_" (pretty (pageSize pg))).
  { intros q pg. rewrite append_assoc. reflexivity. }
  rewrite !Hkey. intros H.
  apply split_at_last_underscore in H as [H Hsize];
    [| apply pretty_Z_no_underscore..].
  apply split_at_last_underscore in H as [-> Hpage];
    [| apply pretty_Z_no_underscore..].
  apply (inj pretty) in Hsize, Hpage.
  destruct pg1, pg2; cbn in *. subst. auto.
Qed.

End KeyFacts.

Section CacheFacts.

Variable values : gmap Z SearchIndex.t → list SearchIndex.t.

(** A key that is in the cache is answered with its page, whatever the index
    holds by now. *)
Lemma Cacheable_searchPosts_hit (query : option string) (pageable : Pageable)
    (app : Application) (page : Page) :
  cache_search app !! search_key query pageable = Some page →
  Cacheable_searchPosts values query pageable app = (Returns page, app).
Proof. intros H. unfold Cacheable_searchPosts. rewrite H. reflexivity. Qed.

(** On a coherent cache the proxy answers as the method does, the bean
    keeps its fields and the cache stays coherent. *)
Lemma Cacheable_searchPosts_coherent (query : string) (pageable : Pageable)
    (app : Application) :
  coherent values app →
  (Cacheable_searchPosts values (Some query) pageable app).1 =
    (searchPosts values (Some query) pageable (searchService app)).1 ∧
  searchService (Cacheable_searchPosts values (Some query) pageable app).2 =
    searchService app ∧
  coherent values (Cacheable_searchPosts values (Some query) pageable app).2.
Proof.
  intros Hcoh. unfold Cacheable_searchPosts.
  destruct (cache_search app !! search_key (Some query) pageable)
    as [page|] eqn:Hkey.
  - split; [symmetry; exact (Hcoh _ _ _ Hkey)|]. split; [reflexivity | exact Hcoh].
  - pose proof (searchPosts_state values (searchService app) (Some query) pageable)
      as Hst.
    destruct (searchPosts values (Some query) pageable (searchService app))
      as [o this'] eqn:Hcall.
    cbn in Hst. subst this'. cbn [fst snd searchService].
    split; [reflexivity|]. split; [reflexivity|].
    intros q pg page. cbn [cache_search searchService].
    destruct o as [cached| |]; [|apply Hcoh..].
    destruct (decide (search_key (Some query) pageable = search_key (Some q) pg))
      as [Heq|Hne].
    + rewrite Heq, lookup_insert_eq. intros [= <-].
      apply search_key_inj in Heq as [<- <-]. now rewrite Hcall.
    + rewrite lookup_insert_ne by exact Hne. apply Hcoh.
Qed.


(** A sequence of searches that the method answers is answered alike through
    the proxy, when the cache is coherent at the start. *)
Lemma Cacheable_searchPosts_sequence (calls : list (string * Pageable))
    (pages : list Page) (app : Application) :
  coherent values app →
  mapM (λ c, searchPosts values (Some c.1) c.2) calls (searchService app)
    = (Returns pages, searchService app) →
  ∃ app',
    mapM (λ c, Cacheable_searchPosts values (Some c.1) c.2) calls app
      = (Returns pages, app') ∧
    searchService app' = searchService app ∧
    coherent values app'.
Proof.
  revert pages app. induction calls as [|[q pg] calls IH]; intros pages app Hcoh.
  - intros [= <-]. exists app. auto.
  - change (mapM (λ c, searchPosts values (Some c.1) c.2) ((q, pg) :: calls)
              (searchService app)) with
      (method_bind (λ y, method_bind (λ k, method_mret _ (y :: k))
                     (mapM (λ c, searchPosts values (Some c.1) c.2) calls))
                   (searchPosts values (Some q) pg) (searchService app)).
    change (mapM (λ c, Cacheable_searchPosts values (Some c.1) c.2)
              ((q, pg) :: calls) app) with
      (request_bind (λ y, request_bind (λ k, request_mret _ (y :: k))
                      (mapM (λ c, Cacheable_searchPosts values (Some c.1) c.2) calls))
                    (Cacheable_searchPosts values (Some q) pg) app).
    destruct (Cacheable_searchPosts_coherent q pg app Hcoh) as (Hres & Hsvc & Hcoh').
    pose proof (searchPosts_state values (searchService app) (Some q) pg) as Hst.
    unfold method_bind at 1, request_bind at 1.
    destruct (Cacheable_searchPosts values (Some q) pg app) as [o app1].
    destruct (searchPosts values (Some q) pg (searchService app)) as [o' this1].
    cbn in Hres, Hsvc, Hcoh', Hst. subst o' this1.
    destruct o as [page| |]; try discriminate.
    unfold method_bind, request_bind.
    destruct (mapM (λ c, searchPosts values (Some c.1) c.2) calls (searchService app))
      as [[rest| |] this2] eqn:Hrest; try discriminate.
    intros [= <- ->].
    rewrite <- Hsvc in Hrest.
    destruct (IH rest app1 Hcoh' Hrest) as (app' & -> & Hsvc' & Hcoh'').
    exists app'. split; [reflexivity|]. split; [congruence | exact Hcoh''].
Qed.

End CacheFacts.

(** ** Changes of the index *)

Section IndexFacts.

(** Reading the names off the tags fails at the first null, and otherwise
    gives the names in the order of the tags. *)
Lemma tag_names (tags : list (option Tag.t)) :
  mapM (λ tag, Tag.name <$> nonnull tag) tags =
  match mapM (M := option) (λ tag, tag) tags with
  | Some present => Returns (Tag.name <$> present)
  | None => Throws NullPointerException
  end.
Proof.
  induction tags as [|[tag|] tags IH]; [reflexivity| |reflexivity].
  change (mapM (λ tag, Tag.name <$> nonnull tag) (Some tag :: tags)) with
    (outcome_bind (λ k, Returns (Tag.name tag :: k))
       (mapM (λ tag, Tag.name <$> nonnull tag) tags)).
  change (mapM (M := option) (λ tag, tag) (Some tag :: tags)) with
    (k ← mapM (M := option) (λ tag, tag) tags; Some (tag :: k)).
  rewrite IH. destruct (mapM (M := option) (λ tag, tag) tags); reflexivity.
Qed.

Lemma present_tags_Some (post : Post.t) (tags : list Tag.t) :
  present_tags post = Some tags ↔ Post.tags post = Some (Some <$> tags).
Proof.
  unfold present_tags. destruct (Post.tags post) as [l|]; cbn; [|split; discriminate].
  rewrite mapM_Some. split.
  - intros H. f_equal. induction H as [|x y l k Hx _ IH]; [reflexivity|].
    cbn. now rewrite Hx, IH.
  - intros [= ->]. induction tags; constructor; auto.
Qed.

Lemma present_tags_None (post : Post.t) :
  present_tags post = None ↔
  Post.tags post = None ∨ ∃ tags, Post.tags post = Some tags ∧ None ∈ tags.
Proof.
  unfold present_tags. destruct (Post.tags post) as [l|]; cbn.
  - rewrite mapM_None. split.
    + intros H. right. exists l. split; [reflexivity|].
      apply Exists_exists in H as (x & Hin & ->). exact Hin.
    + intros [H|(tags & [= <-] & Hin)]; [discriminate|].
      apply Exists_exists. now exists None.
  - split; [now left | reflexivity].
Qed.

Lemma indexPost_Returns (post : Post.t) (this : SearchService) (id : Z)
    (tags : list Tag.t) :
  Post.id post = Some id → present_tags post = Some tags →
  indexPost post this =
  (Returns tt,
   {| postRepository := postRepository this;
      searchIndex :=
        <[id := {| SearchIndex.id := id;
                   SearchIndex.title := Post.title post;
                   SearchIndex.content := Post.content post;
                   SearchIndex.excerpt := Post.excerpt post;
                   SearchIndex.tags := Tag.name <$> tags |}]> (searchIndex this) |}).
Proof.
  intros Hid Htags. unfold indexPost, present_tags in *.
  destruct (Post.tags post) as [l|]; [|discriminate]. cbn in Htags.
  rewrite Hid. unfold mbind, method_mbind, method_bind, call. cbn [nonnull].
  rewrite tag_names, Htags. reflexivity.
Qed.

Lemma indexPost_null (post : Post.t) (this : SearchService) :
  Post.id post = None ∨ present_tags post = None →
  indexPost post this = (Throws NullPointerException, this).
Proof.
  unfold indexPost, present_tags.
  destruct (Post.tags post) as [l|]; cbn [mbind option_bind];
    unfold mbind, method_mbind, method_bind, call; cbn [nonnull];
    [|reflexivity].
  rewrite tag_names.
  destruct (mapM (M := option) (λ tag, tag) l), (Post.id post);
    intros [H|H]; try discriminate;
    reflexivity.
Qed.

Lemma removePostFromIndex_Some (id : Z) (this : SearchService) :
  removePostFromIndex (Some id) this =
  (Returns tt, {| postRepository := postRepository this;
                  searchIndex := delete id (searchIndex this) |}).
Proof. reflexivity. Qed.

(** Removing an id that is not indexed changes nothing. *)
Lemma removePostFromIndex_absent (id : Z) (this : SearchService) :
  searchIndex this !! id = None →
  removePostFromIndex (Some id) this = (Returns tt, this).
Proof.
  intros H. rewrite removePostFromIndex_Some, (delete_id _ _ H).
  destruct this; reflexivity.
Qed.

(** The matches of the index are the match of the removed entry, if it is
    one, and the matches of the index without it. *)
Lemma matching_results_delete (m : gmap Z SearchIndex.t) (id : Z) (q : string) :
  matching_results m q ≡ₚ
  match m !! id with
  | Some index =>
      match calculateRelevance index q with
      | Returns r => if (0 <? SearchResult.score r)%float then [r] else []
      | _ => []
      end
  | None => []
  end ++ matching_results (delete id m) q.
Proof.
  unfold matching_results. destruct (m !! id) as [index|] eqn:Hid.
  - rewrite <- (map_to_list_delete m id index Hid). cbn.
    destruct (calculateRelevance index q) as [r| |]; [|reflexivity..].
    destruct (0 <? SearchResult.score r)%float; reflexivity.
  - rewrite (delete_id _ _ Hid). reflexivity.
Qed.

Lemma matching_results_delete_id (m : gmap Z SearchIndex.t) (id : Z) (q : string)
    (r : SearchResult.t) :
  r ∈ matching_results (delete id m) q →
  ∃ k index, k ≠ id ∧ m !! k = Some index ∧ calculateRelevance index q = Returns r.
Proof.
  unfold matching_results. rewrite list_elem_of_omap.
  intros (index & Hin & Hr).
  apply list_elem_of_fmap in Hin as ([k index'] & -> & Hin).
  apply elem_of_map_to_list, lookup_delete_Some in Hin as [Hne Hk].
  exists k, index'. split; [congruence|]. split; [exact Hk|].
  cbn in Hr. destruct (calculateRelevance index' q) as [r'| |]; try discriminate.
  destruct (0 <? SearchResult.score r')%float; [|discriminate].
  now injection Hr as <-.
Qed.

End IndexFacts.

(** * The properties of the search component *)

Lemma gmap_values_perm (m : gmap Z SearchIndex.t) : gmap_values m ≡ₚ (map_to_list m).*2.
Proof. reflexivity. Qed.

Section Relevance.

#[local] Arguments highlightText : simpl never.

(** C1. The query is normalized by trimming it, collapsing its runs of
    whitespace to one space and lowering its case. The relevance score that
    search computes for an index entry is the sum of 3.0 if the normalized
    query is a case-insensitive substring of the title, 1.0 if it is one of
    the content, and 2.0 if it is one of at least one tag, the tag weight
    being added once. The score is computed whenever title, content and tags
    are present and the query can be highlighted. *)
Theorem C1_relevance_score (index : SearchIndex.t) (query : string) :
  ∃ nq, normalizeQuery query = Returns nq ∧
    nq = toLowerCase (collapse_whitespace (trim query)) ∧
    (∀ r, calculateRelevance index nq = Returns r →
       ∃ (t c : string) (bt bc bg : bool),
         SearchIndex.title index = Some t ∧
         SearchIndex.content index = Some c ∧
         (bt = true ↔ ci_substring nq t) ∧
         (bc = true ↔ ci_substring nq c) ∧
         (bg = true ↔
          ∃ tag, Some tag ∈ SearchIndex.tags index ∧ ci_substring nq tag) ∧
         SearchResult.score r = (weight bt 3 + weight bc 1 + weight bg 2)%float) ∧
    (is_Some (SearchIndex.title index) →
     is_Some (SearchIndex.content index) →
     Forall is_Some (SearchIndex.tags index) →
     highlightable nq →
     ∃ r, calculateRelevance index nq = Returns r).
Proof.
  exists (toLowerCase (collapse_whitespace (trim query))).
  split; [apply normalizeQuery_spec|]. split; [reflexivity|].
  set (nq := toLowerCase (collapse_whitespace (trim query))). split.
  - intros r Hr.
    destruct (calculateRelevance_Returns _ _ _ Hr)
      as (t & c & bg & Ht & Hc & Hbg & Hscore & _).
    exists t, c, (contains (toLowerCase t) (toLowerCase nq)),
      (contains (toLowerCase c) (toLowerCase nq)), bg.
    split; [exact Ht|]. split; [exact Hc|].
    split; [apply contains_lower_spec|].
    split; [apply contains_lower_spec|].
    split; [|exact Hscore].
    rewrite Hbg. split.
    + intros (tag & Hin & Htag). exists tag.
      split; [exact Hin | now apply contains_lower_spec].
    + intros (tag & Hin & Htag). exists tag.
      split; [exact Hin | now apply contains_lower_spec].
  - apply calculateRelevance_total.
Qed.

(** C9. The outcome of scoring an index entry does not depend on its excerpt:
    an entry with the same id, title, content and tags gets the same score
    and the same highlighted fields (or fails alike), and putting it in the
    other's place in the sequence that search ranks changes neither which
    results are returned, nor their order, nor their number. *)
Theorem C9_excerpt_is_not_scored (d1 d2 : SearchIndex.t) (nq : string) :
  same_but_excerpt d1 d2 →
  calculateRelevance d2 nq =
    with_excerpt (SearchIndex.excerpt d2) <$> calculateRelevance d1 nq
  ∧ ∀ before after,
      agree_up_to_excerpt (rank (before ++ d1 :: after) nq)
                          (rank (before ++ d2 :: after) nq).
Proof.
  intros Hd. split; [exact (calculateRelevance_excerpt d1 d2 nq Hd)|].
  intros before after. apply rank_agree.
  apply Forall2_app; [|constructor; [exact Hd|]];
    apply Forall_Forall2_diag, Forall_forall; intros d _;
    apply same_but_excerpt_refl.
Qed.

End Relevance.

Section Search.

Variable values : gmap Z SearchIndex.t → list SearchIndex.t.
Hypothesis values_perm : ∀ m, values m ≡ₚ (map_to_list m).*2.

(** C2. The ordered result set of a search holds exactly the results of the
    index entries whose score is greater than 0, each once, in descending
    order of score; the search returns when every entry can be scored; and
    whatever the page and page size, no response of a returned page has
    score 0. *)
Theorem C2_results_are_the_matches (this : SearchService) (nq : string) :
  (∀ results this',
     performSearch values nq this = (Returns results, this') →
     this' = this ∧
     results ≡ₚ matching_results (searchIndex this) nq ∧
     (∀ r, r ∈ results ↔
           ∃ k index, searchIndex this !! k = Some index ∧
                      calculateRelevance index nq = Returns r ∧
                      (0 <? SearchResult.score r)%float = true) ∧
     StronglySorted
       (λ a b, (SearchResult.score b <=? SearchResult.score a)%float = true)
       results) ∧
  ((∀ k index, searchIndex this !! k = Some index →
               ∃ r, calculateRelevance index nq = Returns r) →
   ∃ results, performSearch values nq this = (Returns results, this)) ∧
  (∀ query pageable page this',
     searchPosts values (Some query) pageable this = (Returns page, this') →
     Forall (λ response, (0 <? PostResponse.searchScore response)%float = true)
            (getContent page)).
Proof.
  split; [|split].
  - intros results this'. rewrite performSearch_rank. intros [= Hrank <-].
    pose proof (rank_matching values values_perm _ _ _ Hrank) as Hperm.
    split; [reflexivity|]. split; [exact Hperm|]. split.
    + intros r. rewrite Hperm. apply elem_of_matching_results.
    + apply (rank_sorted _ _ _ Hrank).
  - intros Hall. destruct (rank_total values values_perm _ _ Hall) as [results Hr].
    exists results. rewrite performSearch_rank, Hr. reflexivity.
  - intros query pageable page this' Hpage.
    destruct (searchPosts_Returns values _ _ _ _ _ Hpage)
      as (q & results & paged & responses & _ & _ & Hrank & Hsub & Hconv & -> & _).
    destruct (rank_sorted _ _ _ Hrank) as (_ & Hpos & _).
    cbn. apply mapM_Returns in Hconv.
    assert (Hpaged : Forall (λ r, (0 <? SearchResult.score r)%float = true) paged).
    { apply Forall_forall. intros r Hin.
      rewrite Forall_forall in Hpos. apply Hpos.
      exact (subList_elem_of _ _ _ _ _ Hsub Hin). }
    clear - Hconv Hpaged. revert Hpaged.
    induction Hconv as [|r response paged responses Hr _ IH]; intros Hpaged;
      [constructor|].
    inversion Hpaged as [|? ? Hr0 Hrest]; subst.
    constructor; [|exact (IH Hrest)].
    destruct (convertToPostResponse_Returns _ _ _ Hr) as (-> & _). exact Hr0.
Qed.

(** C10. The sort of the results is stable: the results of one score stand in
    the order in which the traversal of the index met their entries, so the
    order of ties is fixed by the traversal. *)
Theorem C10_ties_keep_traversal_order (this this' : SearchService) (nq : string)
    (results : list SearchResult.t) :
  performSearch values nq this = (Returns results, this') →
  ∃ scored,
    mapM (λ index, calculateRelevance index nq) (values (searchIndex this))
      = Returns scored ∧
    results ≡ₚ List.filter (λ r, (0 <? SearchResult.score r)%float) scored ∧
    ∀ s, s ∈ score_values →
      List.filter (λ r, Double_compare (SearchResult.score r) s =? 0) results =
      List.filter (λ r, Double_compare (SearchResult.score r) s =? 0)
        (List.filter (λ r, (0 <? SearchResult.score r)%float) scored).
Proof.
  rewrite performSearch_rank. intros [= Hrank _].
  apply rank_Returns in Hrank as (scored & Hscored & ->).
  exists scored. split; [exact Hscored|]. split; [apply Stream_sorted_perm|].
  intros s Hs.
  pose proof (Forall_filter _ (λ r, (0 <? SearchResult.score r)%float) _
                (scored_values _ _ _ Hscored)) as Hok.
  set (matches := List.filter (λ r, (0 <? SearchResult.score r)%float) scored) in *.
  assert (Hrank : ∀ l, Forall (λ r, SearchResult.score r ∈ score_values) l →
            List.filter (λ r, Double_compare (SearchResult.score r) s =? 0) l =
            List.filter (λ r, score_rank (SearchResult.score r) =? score_rank s) l).
  { induction 1 as [|r l Hr _ IH]; [reflexivity|].
    cbn. rewrite (equal_score_rank s r Hs Hr), IH. reflexivity. }
  rewrite !Hrank; [| exact Hok |].
  - apply (Stream_sorted_stable by_score_desc
             (λ r, score_rank (SearchResult.score r))
             (λ r, SearchResult.score r ∈ score_values));
      [exact by_score_desc_key | exact Hok].
  - eapply Permutation_Forall; [symmetry; apply Stream_sorted_perm | exact Hok].
Qed.

(** C7. Search fails with the empty-query error exactly when the query is
    empty after trimming, that is, when every character of it is one that
    [trim] strips; and it leaves the index as it was, then and always. A
    null query is rejected in the same way. *)
Theorem C7_blank_query_is_rejected (this : SearchService) (query : string)
    (pageable : Pageable) :
  ((searchPosts values (Some query) pageable this).1
     = Throws (IllegalArgumentException EmptyQuery)
   ↔ isEmpty (trim query) = true) ∧
  (isEmpty (trim query) = true ↔ blank query) ∧
  (searchPosts values (Some query) pageable this).2 = this ∧
  searchPosts values None pageable this
    = (Throws (IllegalArgumentException EmptyQuery), this).
Proof.
  split; [|split; [apply trim_isEmpty_blank
                  | split; [apply searchPosts_state | reflexivity]]].
  destruct (isEmpty (trim query)) eqn:Hblank.
  - unfold searchPosts. rewrite Hblank. split; reflexivity.
  - split; [|discriminate]. intros H. exfalso. revert H.
    destruct (normalizeQuery_returns query) as [nq Hnq].
    rewrite (searchPosts_nonblank values this query nq pageable Hblank Hnq). cbn.
    destruct (rank (values (searchIndex this)) nq) as [results|e|] eqn:Hrank;
      cbn; try discriminate.
    2: { intros [= ->]. destruct (rank_Throws _ _ _ Hrank); discriminate. }
    destruct (subList results (page_start pageable)
                (page_end pageable (length results))) as [paged|e|] eqn:Hsub;
      cbn; try discriminate.
    2: { intros [= ->]. destruct (subList_Throws _ _ _ _ Hsub); discriminate. }
    destruct (mapM (λ r, (convertToPostResponse r this).1) paged)
      as [responses|e|] eqn:Hconv; cbn; try discriminate.
    intros [= ->]. destruct (mapM_Throws _ _ _ Hconv) as (r & _ & Hr).
    exact (convertToPostResponse_Throws _ _ _ Hr eq_refl).
Qed.

(** C6. With a page size of at least 1, the pages 0 to ceil(totalMatches /
    pageSize) - 1 of a search, concatenated, are the one page of size
    totalMatches, in the same order; and each of these calls reports the same
    totalMatches, the number of index entries with a score above 0. The
    calls return when the ranking returns and every result has its post. *)
Theorem C6_pages_concatenate (this : SearchService) (query nq : string)
    (results : list SearchResult.t) (size : Z) :
  isEmpty (trim query) = false →
  normalizeQuery query = Returns nq →
  performSearch values nq this = (Returns results, this) →
  Forall (λ r, ∃ response, (convertToPostResponse r this).1 = Returns response)
         results →
  1 ≤ size < 2 ^ 31 →
  Z.of_nat (length results) < 2 ^ 30 →
  let totalMatches := Z.of_nat (length results) in
  let pageCount := (totalMatches + size - 1) / size in
  ∃ single pages,
    searchPosts values (Some query)
      {| pageNumber := 0; pageSize := totalMatches |} this = (Returns single, this) ∧
    mapM (λ p, searchPosts values (Some query) {| pageNumber := p; pageSize := size |})
         (seqZ 0 pageCount) this = (Returns pages, this) ∧
    concat (getContent <$> pages) = getContent single ∧
    getTotalElements single = totalMatches ∧
    Forall (λ page, getTotalElements page = totalMatches) pages ∧
    totalMatches = Z.of_nat (length (matching_results (searchIndex this) nq)).
Proof.
  intros Hblank Hnq Hsearch Hall Hsize Hlen totalMatches pageCount.
  rewrite performSearch_rank in Hsearch. injection Hsearch as Hrank.
  destruct (mapM_total _ _ Hall) as [responses Hconv].
  pose proof (mapM_Returns_length _ _ _ Hconv) as Hlr.
  change (2 ^ 31) with 2147483648 in *. change (2 ^ 30) with 1073741824 in *.
  assert (Hle : pageCount * size ≤ totalMatches + size - 1).
  { unfold pageCount. rewrite Z.mul_comm. apply Z.mul_div_le. lia. }
  assert (Hge : totalMatches ≤ pageCount * size).
  { pose proof (Z.mul_succ_div_gt (totalMatches + size - 1) size ltac:(lia)).
    fold pageCount in H. lia. }
  assert (Hpage : ∀ p, 0 ≤ p < pageCount →
    searchPosts values (Some query) {| pageNumber := p; pageSize := size |} this =
    (Returns (PageImpl (take (Z.to_nat size) (drop (Z.to_nat (p * size)) responses))
                       {| pageNumber := p; pageSize := size |} totalMatches), this)).
  { intros p Hp.
    assert (p * size + size ≤ pageCount * size) by nia.
    assert (p = 0 ∨ size ≤ p * size) by nia.
    assert (0 ≤ p * size) by nia.
    apply (searchPosts_page values this query nq results responses
             {| pageNumber := p; pageSize := size |} Hblank Hnq Hrank Hconv);
      unfold getOffset; cbn [pageNumber pageSize];
      change (2 ^ 31) with 2147483648; unfold totalMatches in *; lia. }
  exists (PageImpl responses {| pageNumber := 0; pageSize := totalMatches |} totalMatches),
    ((λ p, PageImpl (take (Z.to_nat size) (drop (Z.to_nat (p * size)) responses))
                    {| pageNumber := p; pageSize := size |} totalMatches)
       <$> seqZ 0 pageCount).
  split; [|split; [|split; [|split; [|split]]]].
  - rewrite (searchPosts_page values this query nq results responses
               {| pageNumber := 0; pageSize := totalMatches |} Hblank Hnq Hrank Hconv);
      unfold getOffset; cbn [pageNumber pageSize];
      change (2 ^ 31) with 2147483648; fold totalMatches; try lia.
    replace (Z.to_nat (0 * totalMatches)) with 0%nat by lia.
    rewrite drop_0, take_ge; [reflexivity|]. unfold totalMatches. lia.
  - apply mapM_method_Returns. intros p Hp. apply elem_of_seqZ in Hp.
    apply Hpage. lia.
  - rewrite <- list_fmap_compose. cbn [getContent PageImpl].
    unfold seqZ. rewrite <- list_fmap_compose.
    rewrite (list_fmap_ext _ (λ p, take (Z.to_nat size)
                                     (drop (p * Z.to_nat size) responses))).
    + rewrite concat_pages. apply take_ge. unfold totalMatches in *. nia.
    + intros i p _. cbn. do 2 f_equal. nia.
  - unfold PageImpl, getOffset. cbn [getTotalElements pageNumber pageSize].
    destruct (negb _); cbn [andb]; [|reflexivity].
    destruct (Z.ltb_spec totalMatches (0 * totalMatches + totalMatches));
      [lia | reflexivity].
  - apply Forall_fmap, Forall_forall. intros p Hp. apply elem_of_seqZ in Hp. cbn.
    assert (p * size + size ≤ pageCount * size) by nia.
    assert (0 ≤ p * size) by nia.
    unfold totalMatches in *. rewrite <- Hlr in *.
    apply (PageImpl_total responses {| pageNumber := p; pageSize := size |});
      unfold getOffset; cbn [pageNumber pageSize]; lia.
  - unfold totalMatches. f_equal.
    apply Permutation_length, (rank_matching values values_perm _ _ _ Hrank).
Qed.

End Search.

(** ** The properties at the example data *)

(** The scenario of the specification: both posts match "spring", the first
    with title, content and tag (6.0), the second with the content only (1.0). *)
Example scenario_two_posts :
  (λ page, (PostResponse.id <$> getContent page,
            PostResponse.searchScore <$> getContent page,
            getTotalElements page))
    <$> (searchPosts gmap_values (Some "spring"%string) Examples.first_page
           Examples.two_posts).1
  = Returns ([Some 1; Some 2], [6; 1]%float, 2).
Proof. vm_compute. reflexivity. Qed.

(** C2 at the three posts and the query "guide", in the order of [map_to_list]. *)
Lemma C2_results_are_the_matches_witness :
  performSearch gmap_values "guide" Examples.three_posts
    = (Returns Examples.guide_results, Examples.three_posts) ∧
  Examples.guide_results
    ≡ₚ matching_results (searchIndex Examples.three_posts) "guide" ∧
  StronglySorted
    (λ a b, (SearchResult.score b <=? SearchResult.score a)%float = true)
    Examples.guide_results.
Proof.
  assert (H : performSearch gmap_values "guide" Examples.three_posts
              = (Returns Examples.guide_results, Examples.three_posts))
    by (vm_compute; reflexivity).
  destruct (C2_results_are_the_matches gmap_values gmap_values_perm
              Examples.three_posts "guide") as (Hresults & _ & _).
  destruct (Hresults _ _ H) as (_ & Hperm & _ & Hsorted).
  split; [exact H|]. split; [exact Hperm | exact Hsorted].
Defined.

(** C10 at the three posts and the query "guide", which two posts match with
    the same score. *)
Lemma C10_ties_keep_traversal_order_witness :
  ∃ scored,
    mapM (λ index, calculateRelevance index "guide")
         (gmap_values (searchIndex Examples.three_posts)) = Returns scored ∧
    Examples.guide_results
      ≡ₚ List.filter (λ r, (0 <? SearchResult.score r)%float) scored ∧
    ∀ s, s ∈ score_values →
      List.filter (λ r, Double_compare (SearchResult.score r) s =? 0)
                  Examples.guide_results =
      List.filter (λ r, Double_compare (SearchResult.score r) s =? 0)
                  (List.filter (λ r, (0 <? SearchResult.score r)%float) scored).
Proof.
  apply (C10_ties_keep_traversal_order gmap_values
           Examples.three_posts Examples.three_posts "guide" Examples.guide_results).
  vm_compute. reflexivity.
Defined.

(** C6 at the three posts, the query "  Guide " and pages of one result. *)
Lemma C6_pages_concatenate_witness :
  ∃ single pages,
    searchPosts gmap_values (Some "  Guide "%string)
      {| pageNumber := 0; pageSize := 2 |} Examples.three_posts
      = (Returns single, Examples.three_posts) ∧
    mapM (λ p, searchPosts gmap_values (Some "  Guide "%string)
                 {| pageNumber := p; pageSize := 1 |})
         (seqZ 0 2) Examples.three_posts = (Returns pages, Examples.three_posts) ∧
    concat (getContent <$> pages) = getContent single ∧
    getTotalElements single = 2 ∧
    Forall (λ page, getTotalElements page = 2) pages ∧
    2 = Z.of_nat (length (matching_results (searchIndex Examples.three_posts) "guide")).
Proof.
  apply (C6_pages_concatenate gmap_values gmap_values_perm Examples.three_posts
           "  Guide " "guide" Examples.guide_results 1).
  - reflexivity.
  - vm_compute. reflexivity.
  - vm_compute. reflexivity.
  - repeat constructor; eexists; reflexivity.
  - vm_compute. split; [discriminate | reflexivity].
  - vm_compute. reflexivity.
Defined.

(** C9 at the entry of the first post and the same entry with an excerpt. *)
Lemma C9_excerpt_is_not_scored_witness :
  calculateRelevance Examples.spring_guide_excerpt "spring" =
    with_excerpt (Some "An introduction"%string)
      <$> calculateRelevance (Examples.entry Examples.spring_guide) "spring"
  ∧ ∀ before after,
      agree_up_to_excerpt
        (rank (before ++ Examples.entry Examples.spring_guide :: after) "spring")
        (rank (before ++ Examples.spring_guide_excerpt :: after) "spring").
Proof.
  apply (C9_excerpt_is_not_scored (Examples.entry Examples.spring_guide)
           Examples.spring_guide_excerpt "spring").
  repeat split.
Defined.

(** ** Where the code leaves the specification *)

(** C3. A page that starts beyond the last result is not answered with an empty
    list: with two matches, page 1 of size 10 makes [subList] throw. The page
    that starts exactly at the end is empty. *)
Theorem C3_page_beyond_results_throws :
  (searchPosts gmap_values (Some "spring"%string) Examples.second_page
     Examples.two_posts).1 = Throws (IllegalArgumentException FromIndexAfterToIndex) ∧
  (getContent <$>
     (searchPosts gmap_values (Some "spring"%string)
        {| pageNumber := 1; pageSize := 2 |} Examples.two_posts).1) = Returns [] ∧
  (length ∘ getContent <$>
     (searchPosts gmap_values (Some "spring"%string) Examples.first_page
        Examples.two_posts).1) = Returns 2%nat.
Proof. vm_compute. repeat split. Qed.

(** C4, as stated, fails: a post whose title and content are empty is indexed. *)
Lemma C4_empty_title_is_indexed :
  Post.title Examples.untitled = Some EmptyString ∧
  Post.content Examples.untitled = Some EmptyString ∧
  searchIndex Examples.empty_service !! 7 = None ∧
  ∃ this', indexPost Examples.untitled Examples.empty_service = (Returns tt, this') ∧
           searchIndex this' !! 7 = Some (Examples.entry Examples.untitled).
Proof.
  split; [reflexivity|]. split; [reflexivity|]. split; [reflexivity|].
  eexists. split.
  - apply (indexPost_Returns Examples.untitled Examples.empty_service 7 []);
      reflexivity.
  - vm_compute. reflexivity.
Qed.

(** C4, amended. [indexPost] does not look at title or content: a post that
    has an id and a tag list without a null in it is stored under its id with
    the title and the content it has, empty or not, in place of the entry
    that was there, and the other entries and the repository stay. The call
    fails exactly for want of the id, of the tag list or of one of the tags:
    then it throws the null pointer exception and leaves the service as it
    was. (The statement is proved of every post; that of a post whose title
    and content are present is the instance of it.) *)
Theorem C4_index_does_not_validate (post : Post.t) (this : SearchService) :
  (present_tags post = None ↔
   Post.tags post = None ∨ ∃ tags, Post.tags post = Some tags ∧ None ∈ tags) ∧
  match Post.id post, present_tags post with
  | Some id, Some tags =>
      Post.tags post = Some (Some <$> tags) ∧
      ∃ this',
        indexPost post this = (Returns tt, this') ∧
        postRepository this' = postRepository this ∧
        searchIndex this' !! id =
          Some {| SearchIndex.id := id;
                  SearchIndex.title := Post.title post;
                  SearchIndex.content := Post.content post;
                  SearchIndex.excerpt := Post.excerpt post;
                  SearchIndex.tags := Tag.name <$> tags |} ∧
        ∀ k, k ≠ id → searchIndex this' !! k = searchIndex this !! k
  | _, _ => indexPost post this = (Throws NullPointerException, this)
  end.
Proof.
  split; [apply present_tags_None|].
  destruct (Post.id post) as [id|] eqn:Hid, (present_tags post) as [tags|] eqn:Htags;
    try (apply indexPost_null; auto).
  split; [now apply present_tags_Some|].
  eexists. split; [exact (indexPost_Returns post this id tags Hid Htags)|].
  cbn. split; [reflexivity|]. split; [apply lookup_insert_eq|].
  intros k Hk. apply lookup_insert_ne. congruence.
Qed.

(** C5. The query is spliced into the pattern and read as a regular expression:
    for the query "c++" and the title "C++ Guide", which contains it, only "C"
    is marked; for the query "." every character of a title that contains a dot
    is marked; for the query "*" and a title that contains it, scoring throws.
    A query without metacharacters is marked as the claim says. *)
Theorem C5_query_is_read_as_a_pattern :
  contains (toLowerCase "C++ Guide") (toLowerCase "c++") = true ∧
  SearchResult.highlightedTitle
    <$> calculateRelevance (Examples.entry Examples.cpp_guide) "c++"
    = Returns (Some "<mark>C</mark>++ Guide"%string) ∧
  highlightText (Some "v1.0"%string) (Some "."%string)
    = Returns (Some "<mark>v</mark><mark>1</mark><mark>.</mark><mark>0</mark>"%string) ∧
  calculateRelevance
    (Examples.entry (Examples.post 4 "a*b" "stars" [])) "*"
    = Throws PatternSyntaxException ∧
  highlightText (Some "Building an API Gateway"%string) (Some "api"%string)
    = Returns (Some "Building an <mark>API</mark> Gateway"%string).
Proof. vm_compute. repeat split. Qed.

(** C8. The index forgets a removed id, but a search repeated after the removal
    is answered from the cache: the page cached before still lists the post,
    while the method itself would return the other post alone. *)
Theorem C8_cached_page_survives_removal :
  Examples.removed.1 = Returns tt ∧
  searchIndex (searchService Examples.removed.2) !! 1 = None ∧
  Examples.searched_again.1 = Examples.searched.1 ∧
  (fmap (M := list) PostResponse.id ∘ getContent <$> Examples.searched_again.1)
    = Returns [Some 1; Some 2] ∧
  (getTotalElements <$> Examples.searched_again.1) = Returns 2 ∧
  (fmap (M := list) PostResponse.id ∘ getContent <$>
     (searchPosts gmap_values (Some "spring"%string) Examples.first_page
        (searchService Examples.removed.2)).1) = Returns [Some 2] ∧
  (getTotalElements <$>
     (searchPosts gmap_values (Some "spring"%string) Examples.first_page
        (searchService Examples.removed.2)).1) = Returns 1.
Proof. vm_compute. repeat split. Qed.

(** * Further properties of the search service *)

(** ** The normal form of a query *)

Section NormalForm.

Lemma Character_toLowerCase_idem (c : ascii) :
  Character_toLowerCase (Character_toLowerCase c) = Character_toLowerCase c.
Proof.
  destruct c as [b0 b1 b2 b3 b4 b5 b6 b7].
  destruct b0, b1, b2, b3, b4, b5, b6, b7; reflexivity.
Qed.

Lemma Character_toLowerCase_space (c : ascii) :
  Regex.is_space (Character_toLowerCase c) = Regex.is_space c.
Proof.
  destruct c as [b0 b1 b2 b3 b4 b5 b6 b7].
  destruct b0, b1, b2, b3, b4, b5, b6, b7; reflexivity.
Qed.

Lemma Character_toLowerCase_trimmed (c : ascii) :
  is_trimmed_char (Character_toLowerCase c) = is_trimmed_char c.
Proof.
  destruct c as [b0 b1 b2 b3 b4 b5 b6 b7].
  destruct b0, b1, b2, b3, b4, b5, b6, b7; reflexivity.
Qed.

Lemma is_space_trimmed (c : ascii) :
  Regex.is_space c = true → is_trimmed_char c = true.
Proof.
  destruct c as [b0 b1 b2 b3 b4 b5 b6 b7].
  destruct b0, b1, b2, b3, b4, b5, b6, b7; vm_compute; intros H;
    first [reflexivity | discriminate H].
Qed.

Lemma toLowerCase_idem (s : string) : toLowerCase (toLowerCase s) = toLowerCase s.
Proof.
  induction s as [|c s IH]; cbn; [reflexivity|].
  now rewrite Character_toLowerCase_idem, IH.
Qed.

Lemma collapse_from_toLowerCase (b : bool) (s : string) :
  collapse_from b (toLowerCase s) = toLowerCase (collapse_from b s).
Proof.
  revert b. induction s as [|c s IH]; intros b; cbn; [reflexivity|].
  rewrite Character_toLowerCase_space.
  destruct (Regex.is_space c); [destruct b|]; cbn; now rewrite IH.
Qed.

(** Collapsing again changes nothing. *)
Lemma collapse_from_idem (s : string) :
  collapse_from false (collapse_from false s) = collapse_from false s ∧
  collapse_from true (collapse_from true s) = collapse_from true s.
Proof.
  induction s as [|c s [IH0 IH1]]; [split; reflexivity|].
  cbn [collapse_from]. destruct (Regex.is_space c) eqn:Hc.
  - split; [|exact IH1]. cbn. now rewrite IH1.
  - cbn [collapse_from]. rewrite Hc, IH0. split; reflexivity.
Qed.

Lemma starts_untrimmed_trim_leading (s : string) :
  starts_untrimmed s = true → trim_leading s = s.
Proof.
  destruct s as [|c s]; cbn; [discriminate|].
  now destruct (is_trimmed_char c).
Qed.

Lemma ends_untrimmed_trim_trailing (s : string) :
  ends_untrimmed s = true → trim_trailing s = s.
Proof.
  induction s as [|c s IH]; [discriminate|].
  destruct s as [|d s].
  - cbn. now destruct (is_trimmed_char c).
  - intros H. change (ends_untrimmed (String d s) = true) in H.
    cbn [trim_trailing] in *. rewrite (IH H). reflexivity.
Qed.

Lemma trim_trailing_ends (s : string) :
  trim_trailing s ≠ EmptyString → ends_untrimmed (trim_trailing s) = true.
Proof.
  induction s as [|c s IH]; [intros H; exfalso; apply H; reflexivity|].
  cbn [trim_trailing]. destruct (trim_trailing s) as [|d r] eqn:E.
  - destruct (is_trimmed_char c) eqn:Hc; [intros H; exfalso; apply H; reflexivity|].
    intros _. cbn. now rewrite Hc.
  - intros _. change (ends_untrimmed (String d r) = true). apply IH. discriminate.
Qed.

Lemma trim_trailing_starts (s : string) :
  starts_untrimmed s = true → starts_untrimmed (trim_trailing s) = true.
Proof.
  destruct s as [|c s]; [discriminate|]. cbn [starts_untrimmed trim_trailing].
  intros Hc. destruct (trim_trailing s); [|exact Hc].
  destruct (is_trimmed_char c) eqn:E; [discriminate|]. cbn. now rewrite E.
Qed.

(** A trimmed string that is not empty starts and ends with a character
    that [trim] keeps. *)
Lemma trim_ends (s : string) :
  isEmpty (trim s) = false →
  starts_untrimmed (trim s) = true ∧ ends_untrimmed (trim s) = true.
Proof.
  unfold trim. intros Hne.
  destruct (trim_leading_cases s) as [[_ Ht] | [_ (c & r & Ht & Hc)]];
    rewrite Ht in *; [discriminate|].
  split.
  - apply trim_trailing_starts. cbn. now rewrite Hc.
  - apply trim_trailing_ends. now apply trim_trailing_head.
Qed.

Lemma untrimmed_ends_trim (s : string) :
  starts_untrimmed s = true → ends_untrimmed s = true → trim s = s.
Proof.
  intros Hs He. unfold trim.
  now rewrite (starts_untrimmed_trim_leading s Hs), (ends_untrimmed_trim_trailing s He).
Qed.

Lemma collapse_from_ends (b : bool) (s : string) :
  ends_untrimmed s = true → ends_untrimmed (collapse_from b s) = true.
Proof.
  revert b. induction s as [|c s IH]; intros b; [discriminate|].
  destruct s as [|d s].
  - cbn. destruct (Regex.is_space c) eqn:Hc.
    + rewrite (is_space_trimmed c Hc). discriminate.
    + cbn. auto.
  - intros H. change (ends_untrimmed (String d s) = true) in H.
    remember (String d s) as t eqn:Et. clear Et.
    cbn [collapse_from]. destruct (Regex.is_space c).
    + destruct b; [apply IH, H|].
      specialize (IH true H).
      destruct (collapse_from true t) eqn:E; [discriminate | exact IH].
    + specialize (IH false H).
      destruct (collapse_from false t) eqn:E; [discriminate | exact IH].
Qed.

Lemma collapse_from_starts (s : string) :
  starts_untrimmed s = true → starts_untrimmed (collapse_from false s) = true.
Proof.
  destruct s as [|c s]; [discriminate|]. cbn.
  destruct (Regex.is_space c) eqn:Hc; [|auto].
  rewrite (is_space_trimmed c Hc). discriminate.
Qed.

Lemma toLowerCase_starts (s : string) :
  starts_untrimmed (toLowerCase s) = starts_untrimmed s.
Proof. destruct s as [|c s]; cbn; [|rewrite Character_toLowerCase_trimmed]; reflexivity. Qed.

Lemma toLowerCase_ends (s : string) :
  ends_untrimmed (toLowerCase s) = ends_untrimmed s.
Proof.
  induction s as [|c s IH]; [reflexivity|].
  destruct s as [|d s]; cbn in *; [now rewrite Character_toLowerCase_trimmed | exact IH].
Qed.

(** The normal form of a query that is not blank: it starts and ends with
    a character that [trim] keeps. *)
Lemma normal_form_ends (query : string) :
  isEmpty (trim query) = false →
  let nq := toLowerCase (collapse_whitespace (trim query)) in
  starts_untrimmed nq = true ∧ ends_untrimmed nq = true.
Proof.
  intros Hne. destruct (trim_ends query Hne) as [Hs He]. cbn zeta.
  rewrite toLowerCase_starts, toLowerCase_ends. unfold collapse_whitespace.
  split; [now apply collapse_from_starts | now apply collapse_from_ends].
Qed.

(** The normal form is left as it is by each of the three steps. *)
Lemma normal_form_fixed (query : string) :
  let nq := toLowerCase (collapse_whitespace (trim query)) in
  trim nq = nq ∧ collapse_whitespace nq = nq ∧ toLowerCase nq = nq.
Proof.
  cbn zeta. split; [|split].
  - destruct (isEmpty (trim query)) eqn:Hne.
    + destruct (trim query); [reflexivity | discriminate].
    + destruct (normal_form_ends query Hne) as [Hs He].
      now apply untrimmed_ends_trim.
  - unfold collapse_whitespace. rewrite collapse_from_toLowerCase.
    now rewrite (proj1 (collapse_from_idem _)).
  - apply toLowerCase_idem.
Qed.

End NormalForm.

(** ** Pages, once more *)

Section MorePaging.

Variable values : gmap Z SearchIndex.t → list SearchIndex.t.

#[local] Arguments rank : simpl never.
#[local] Arguments normalizeQuery : simpl never.
#[local] Arguments subList : simpl never.
#[local] Arguments PageImpl : simpl never.
#[local] Arguments int_cast : simpl never.

(** A page that starts inside the results converts the slice it covers. *)
Lemma searchPosts_slice (this : SearchService) (query nq : string)
    (results : list SearchResult.t) (pg : Pageable) :
  isEmpty (trim query) = false →
  normalizeQuery query = Returns nq →
  rank (values (searchIndex this)) nq = Returns results →
  0 ≤ getOffset pg ≤ Z.of_nat (length results) →
  0 ≤ pageSize pg →
  getOffset pg + pageSize pg < 2 ^ 31 →
  searchPosts values (Some query) pg this =
  (responses ← mapM (λ r, (convertToPostResponse r this).1)
                 (take (Z.to_nat (pageSize pg))
                       (drop (Z.to_nat (getOffset pg)) results));
   Returns (PageImpl responses pg (Z.of_nat (length results))), this).
Proof.
  intros Hblank Hnq Hrank Hoff Hsize Hint.
  rewrite (searchPosts_nonblank values this query nq pg Hblank Hnq), Hrank. cbn.
  unfold page_end, page_start.
  rewrite (int_cast_small (getOffset pg)) by lia.
  rewrite (int_cast_small (getOffset pg + pageSize pg)) by lia.
  rewrite (subList_in_range results _ _ Hoff Hsize). reflexivity.
Qed.

(** The total of a page whose content is what is left of [n] results from
    the offset on, a page size at most. *)
Lemma PageImpl_total_slice (content : list PostResponse.t) (pg : Pageable) (n : Z) :
  0 ≤ getOffset pg ≤ n → 0 ≤ pageSize pg →
  Z.of_nat (length content) = Z.min (pageSize pg) (n - getOffset pg) →
  getTotalElements (PageImpl content pg n) = n.
Proof.
  intros Hoff Hsize Hlen. unfold PageImpl. cbn [getTotalElements].
  destruct (negb _); [|reflexivity]. cbn [andb].
  destruct (Z.ltb_spec n (getOffset pg + pageSize pg)); [lia | reflexivity].
Qed.

(** An offset that the cast to [int] turns negative. *)
Lemma int_cast_negative (z : Z) : 2 ^ 31 ≤ z < 2 ^ 32 → int_cast z = z - 2 ^ 32.
Proof.
  unfold int_cast. change (2 ^ 31) with 2147483648. change (2 ^ 32) with 4294967296.
  intros Hz.
  replace (z + 2147483648) with ((z - 2147483648) + 1 * 4294967296) by lia.
  rewrite Z.mod_add by lia. rewrite Z.mod_small; lia.
Qed.

Lemma mapM_app_Throws {A B} (f : A → outcome B) (before after : list A) (x : A)
    (e : exn) :
  Forall (λ y, ∃ r, f y = Returns r) before →
  f x = Throws e →
  mapM f (before ++ x :: after) = Throws e.
Proof.
  intros Hb Hx. induction Hb as [|y before [r Hr] _ IH]; cbn.
  - now rewrite Hx.
  - cbn in IH. rewrite Hr. cbn. now rewrite IH.
Qed.

(** The fields of a response: those of the post that the repository holds
    under the id of the result, and the score and highlighted fields of the
    result. *)
Lemma convertToPostResponse_fields (r : SearchResult.t) (this : SearchService)
    (pr : PostResponse.t) :
  (convertToPostResponse r this).1 = Returns pr →
  ∃ post author,
    postRepository this !! SearchResult.id r = Some post ∧
    Post.author post = Some author ∧
    PostResponse.id pr = Post.id post ∧
    PostResponse.title pr = Post.title post ∧
    PostResponse.content pr = Post.content post ∧
    PostResponse.authorName pr = User.username author ∧
    PostResponse.highlightedTitle pr = SearchResult.highlightedTitle r ∧
    PostResponse.highlightedContent pr = SearchResult.highlightedContent r ∧
    PostResponse.searchScore pr = SearchResult.score r.
Proof.
  unfold convertToPostResponse. method_simpl.
  destruct (postRepository this !! SearchResult.id r) as [post|]; cbn; [|discriminate].
  destruct (Post.author post) as [author|] eqn:Ha; cbn; [|discriminate].
  intros [= <-]. exists post, author. cbn. repeat split. exact Ha.
Qed.

Lemma convertToPostResponse_missing (r : SearchResult.t) (this : SearchService) :
  postRepository this !! SearchResult.id r = None →
  (convertToPostResponse r this).1 = Throws (RuntimeException (SearchResult.id r)).
Proof. intros H. unfold convertToPostResponse. method_simpl. now rewrite H. Qed.

End MorePaging.

(** ** Updates of the index, once more *)

Section IndexUpdates.

Lemma indexPost_entry (post : Post.t) (this : SearchService) (id : Z)
    (tags : list Tag.t) :
  Post.id post = Some id → present_tags post = Some tags →
  indexPost post this =
  (Returns tt, {| postRepository := postRepository this;
                  searchIndex := <[id := entry_of id post tags]> (searchIndex this) |}).
Proof. exact (indexPost_Returns post this id tags). Qed.

(** An update either fails and changes nothing, or returns. *)
Lemma update_cases (u : index_update) (this : SearchService) :
  update u this = (Throws NullPointerException, this) ∨
  ∃ this', update u this = (Returns tt, this').
Proof.
  destruct u as [post|[id|]]; cbn.
  - destruct (Post.id post) as [id|] eqn:Hid, (present_tags post) as [tags|] eqn:Ht;
      try (left; apply indexPost_null; solve [left; assumption | right; assumption]).
    right. eexists. exact (indexPost_entry post this id tags Hid Ht).
  - right. eexists. reflexivity.
  - left. reflexivity.
Qed.

Lemma update_effect (u : index_update) (this : SearchService) :
  update u this =
  match effect u with
  | Some f => (Returns tt, {| postRepository := postRepository this;
                              searchIndex := f (searchIndex this) |})
  | None => (Throws NullPointerException, this)
  end.
Proof.
  destruct u as [post|[id|]]; cbn; try reflexivity.
  destruct (present_tags post) as [tags|] eqn:Ht, (Post.id post) as [id|] eqn:Hid;
    try (apply indexPost_null; solve [left; assumption | right; assumption]).
  exact (indexPost_entry post this id tags Hid Ht).
Qed.

Lemma effects_commute (u1 u2 : index_update)
    (f1 f2 : gmap Z SearchIndex.t → gmap Z SearchIndex.t) (m : gmap Z SearchIndex.t) :
  target u1 ≠ target u2 → effect u1 = Some f1 → effect u2 = Some f2 →
  f2 (f1 m) = f1 (f2 m).
Proof.
  intros Hne H1 H2.
  destruct u1 as [p1|[i1|]], u2 as [p2|[i2|]]; cbn in *; try discriminate.
  - destruct (present_tags p1), (Post.id p1) as [i1|]; try discriminate.
    destruct (present_tags p2), (Post.id p2) as [i2|]; try discriminate.
    injection H1 as <-. injection H2 as <-. apply insert_insert_ne. congruence.
  - destruct (present_tags p1), (Post.id p1) as [i1|]; try discriminate.
    injection H1 as <-. injection H2 as <-. apply delete_insert_ne. congruence.
  - destruct (present_tags p2), (Post.id p2) as [i2|]; try discriminate.
    injection H1 as <-. injection H2 as <-. symmetry. apply delete_insert_ne. congruence.
  - injection H1 as <-. injection H2 as <-. apply delete_delete.
Qed.

Lemma well_keyed_insert (m : gmap Z SearchIndex.t) (k : Z) (index : SearchIndex.t) :
  well_keyed m → SearchIndex.id index = k → well_keyed (<[k := index]> m).
Proof.
  intros Hm Hk j e. rewrite lookup_insert_Some.
  intros [[<- <-] | [_ Hj]]; [exact Hk | exact (Hm j e Hj)].
Qed.

Lemma well_keyed_delete (m : gmap Z SearchIndex.t) (k : Z) :
  well_keyed m → well_keyed (delete k m).
Proof. intros Hm j e. rewrite lookup_delete_Some. intros [_ Hj]. exact (Hm j e Hj). Qed.

Lemma well_keyed_empty : well_keyed ∅.
Proof. intros k e. rewrite lookup_empty. discriminate. Qed.

Lemma update_invariant (u : index_update) (this : SearchService) :
  well_keyed (searchIndex this) →
  well_keyed (searchIndex (update u this).2) ∧
  postRepository (update u this).2 = postRepository this.
Proof.
  intros Hm. destruct u as [post|[id|]]; cbn.
  - destruct (Post.id post) as [id|] eqn:Hid, (present_tags post) as [tags|] eqn:Ht;
      try (rewrite indexPost_null
             by solve [left; assumption | right; assumption]; split; auto).
    rewrite (indexPost_entry post this id tags Hid Ht). cbn.
    split; [|reflexivity]. now apply well_keyed_insert.
  - split; [|reflexivity]. now apply well_keyed_delete.
  - auto.
Qed.

Lemma mapM_update_cons (u : index_update) (us : list index_update)
    (this : SearchService) :
  (mapM update (u :: us) this).2 =
  match (update u this).1 with
  | Returns _ => (mapM update us (update u this).2).2
  | _ => (update u this).2
  end.
Proof.
  change (mapM update (u :: us) this) with
    (method_bind (λ y, method_bind (λ k, method_mret _ (y :: k)) (mapM update us))
                 (update u) this).
  unfold method_bind at 1. destruct (update u this) as [[[]| |] this']; cbn;
    try reflexivity.
  unfold method_bind. destruct (mapM update us this') as [[l| |] this'']; reflexivity.
Qed.

(** Every sequence of updates keeps the entries under their own ids and the
    repository as it is. *)
Lemma updates_invariant (us : list index_update) (this : SearchService) :
  well_keyed (searchIndex this) →
  well_keyed (searchIndex (mapM update us this).2) ∧
  postRepository (mapM update us this).2 = postRepository this.
Proof.
  revert this. induction us as [|u us IH]; intros this Hm; [auto|].
  rewrite mapM_update_cons. destruct (update_invariant u this Hm) as [Hm' Hrepo].
  destruct (update u this).1; [|auto..].
  destruct (IH _ Hm') as [Hm'' Hrepo']. split; [exact Hm'' | congruence].
Qed.

Lemma calculateRelevance_id (index : SearchIndex.t) (q : string) (r : SearchResult.t) :
  calculateRelevance index q = Returns r → SearchResult.id r = SearchIndex.id index.
Proof.
  intros Hr. now destruct (calculateRelevance_Returns _ _ _ Hr)
    as (t & c & bg & _ & _ & _ & _ & _ & _ & Hid & _).
Qed.

(** The matches of an index with one entry put in. *)
Lemma matching_results_insert (m : gmap Z SearchIndex.t) (id : Z)
    (index : SearchIndex.t) (q : string) :
  matching_results (<[id := index]> m) q ≡ₚ
  match_of index q ++ matching_results (delete id m) q.
Proof.
  rewrite <- (insert_delete_eq m). unfold matching_results.
  rewrite (map_to_list_insert (delete id m) id index) by apply lookup_delete_eq.
  cbn. unfold match_of.
  destruct (calculateRelevance index q) as [r| |]; [|reflexivity..].
  destruct (0 <? SearchResult.score r)%float; reflexivity.
Qed.

Lemma matching_results_id (m : gmap Z SearchIndex.t) (q : string) (r : SearchResult.t) :
  well_keyed m → r ∈ matching_results m q →
  ∃ index, m !! SearchResult.id r = Some index ∧ calculateRelevance index q = Returns r.
Proof.
  intros Hm Hr. apply elem_of_matching_results in Hr as (k & index & Hk & Hr & _).
  exists index. rewrite (calculateRelevance_id _ _ _ Hr), (Hm k index Hk). auto.
Qed.

Lemma match_of_id (index : SearchIndex.t) (q : string) (r : SearchResult.t) :
  r ∈ match_of index q → SearchResult.id r = SearchIndex.id index.
Proof.
  unfold match_of. destruct (calculateRelevance index q) as [r'| |] eqn:Hr;
    [|intros H; inversion H..].
  destruct (0 <? SearchResult.score r')%float; [|intros H; inversion H].
  intros H. apply list_elem_of_singleton in H as ->.
  exact (calculateRelevance_id _ _ _ Hr).
Qed.

(** The matches of the index without an id are the matches whose id is
    another. *)
Lemma matching_results_delete_filter (m : gmap Z SearchIndex.t) (id : Z) (q : string) :
  well_keyed m →
  matching_results (delete id m) q ≡ₚ
  filter (λ r, SearchResult.id r ≠ id) (matching_results m q).
Proof.
  intros Hm. rewrite (matching_results_delete m id q) at 1.
  rewrite filter_app.
  assert (Hold : filter (λ r, SearchResult.id r ≠ id)
                   match m !! id with
                   | Some index =>
                       match calculateRelevance index q with
                       | Returns r => if (0 <? SearchResult.score r)%float then [r] else []
                       | _ => []
                       end
                   | None => []
                   end = []).
  { destruct (m !! id) as [index|] eqn:Hid; [|reflexivity].
    destruct (calculateRelevance index q) as [r| |] eqn:Hr; [|reflexivity..].
    destruct (0 <? SearchResult.score r)%float; [|reflexivity].
    rewrite filter_cons, decide_False; [reflexivity|].
    rewrite (calculateRelevance_id _ _ _ Hr), (Hm id index Hid). auto. }
  rewrite Hold. cbn [app].
  assert (Hall : Forall (λ r, SearchResult.id r ≠ id) (matching_results (delete id m) q)).
  { apply Forall_forall. intros r Hr.
    destruct (matching_results_id (delete id m) q r (well_keyed_delete m id Hm) Hr)
      as (index & Hk & _).
    apply lookup_delete_Some in Hk as [Hne _]. congruence. }
  clear Hold. induction Hall as [|r l Hr _ IH]; [reflexivity|].
  rewrite filter_cons, decide_True by exact Hr. now constructor.
Qed.

(** The ids of the matches are keys of the index, each at most once. *)
Lemma matching_results_NoDup (m : gmap Z SearchIndex.t) (q : string) :
  well_keyed m → NoDup (SearchResult.id <$> matching_results m q).
Proof.
  intros Hm. eapply sublist_NoDup; [apply (NoDup_fst_map_to_list m)|].
  unfold matching_results.
  assert (Hl : Forall (λ kv, SearchIndex.id kv.2 = kv.1) (map_to_list m)).
  { apply Forall_forall. intros [k index] Hin. apply elem_of_map_to_list in Hin.
    exact (Hm k index Hin). }
  induction Hl as [|[k index] l Hk _ IH]; [constructor|].
  cbn in *. destruct (calculateRelevance index q) as [r| |] eqn:Hr;
    try (apply sublist_cons; exact IH).
  destruct (0 <? SearchResult.score r)%float; [|apply sublist_cons; exact IH].
  cbn. rewrite (calculateRelevance_id _ _ _ Hr), Hk. apply sublist_skip. exact IH.
Qed.

End IndexUpdates.

(** ** How scoring fails *)

Section FailureFacts.

#[local] Arguments highlightText : simpl never.

Lemma mapM_Returns_each {A B} (f : A → outcome B) (l : list A) (rs : list B) :
  mapM f l = Returns rs → Forall (λ x, ∃ r, f x = Returns r) l.
Proof.
  rewrite mapM_Returns. induction 1 as [|x r l rs Hr _ IH]; constructor; eauto.
Qed.

(** When the elements that do not return all throw the same exception, a
    list with such an element throws it. *)
Lemma mapM_all_or_Throws {A B} (f : A → outcome B) (l : list A) (e : exn) :
  Forall (λ x, (∃ r, f x = Returns r) ∨ f x = Throws e) l →
  Exists (λ x, f x = Throws e) l →
  mapM f l = Throws e.
Proof.
  induction 1 as [|x l Hx _ IH]; intros Hex; [inversion Hex|].
  cbn. destruct Hx as [[r Hr] | Hx]; [|now rewrite Hx].
  rewrite Hr. cbn. rewrite IH; [reflexivity|].
  inversion Hex as [? ? Hx|]; subst; [congruence | assumption].
Qed.

Lemma tagBonus_cases (tags : list (option string)) (q : string) (s : float) :
  (∃ s', tagBonus tags q s = Returns s') ∨ tagBonus tags q s = Throws NullPointerException.
Proof.
  induction tags as [|[tag|] tags IH]; cbn; eauto.
  destruct (contains (toLowerCase tag) (toLowerCase q)); eauto.
Qed.

(** With a query that can be highlighted, scoring returns or meets a null. *)
Lemma calculateRelevance_highlightable (index : SearchIndex.t) (q : string) :
  highlightable q →
  (∃ r, calculateRelevance index q = Returns r) ∨
  calculateRelevance index q = Throws NullPointerException.
Proof.
  intros Hq. unfold calculateRelevance.
  destruct (SearchIndex.title index) as [t|]; cbn; [|auto].
  destruct (highlightText_returns t q Hq) as [ht Ht].
  destruct (contains (toLowerCase t) (toLowerCase q)); rewrite ?Ht; cbn;
    (destruct (SearchIndex.content index) as [c|]; cbn; [|auto]);
    destruct (highlightText_returns c q Hq) as [hc Hc];
    destruct (contains (toLowerCase c) (toLowerCase q)); rewrite ?Hc; cbn;
    match goal with
    | |- context [tagBonus ?tags ?q ?s] =>
        destruct (tagBonus_cases tags q s) as [[s' ->] | ->]; cbn; eauto
    end.
Qed.

(** A missing title or content makes scoring throw, whatever the query
    that can be highlighted. *)
Lemma calculateRelevance_null_field (index : SearchIndex.t) (q : string) :
  highlightable q →
  SearchIndex.title index = None ∨ SearchIndex.content index = None →
  calculateRelevance index q = Throws NullPointerException.
Proof.
  intros Hq Hnull. unfold calculateRelevance.
  destruct (SearchIndex.title index) as [t|]; cbn; [|reflexivity].
  destruct Hnull as [Hnull | Hnull]; [discriminate|]. rewrite Hnull.
  destruct (highlightText_returns t q Hq) as [ht Ht].
  destruct (contains (toLowerCase t) (toLowerCase q)); rewrite ?Ht; reflexivity.
Qed.

Lemma highlightText_SyntaxError (t q : string) :
  Regex.compile ("(?i)(" +:+ q +:+ ")") = Regex.SyntaxError →
  highlightText (Some t) (Some q) = Throws PatternSyntaxException.
Proof. intros H. unfold highlightText, replaceAll. now rewrite H. Qed.

(** With a query that is no pattern, scoring an entry whose fields are
    present throws when title or content contains the query, and returns
    the tag weight or nothing otherwise. *)
Lemma calculateRelevance_SyntaxError (index : SearchIndex.t) (q : string) :
  Regex.compile ("(?i)(" +:+ q +:+ ")") = Regex.SyntaxError →
  is_Some (SearchIndex.title index) →
  is_Some (SearchIndex.content index) →
  Forall is_Some (SearchIndex.tags index) →
  if field_contains (SearchIndex.title index) q
     || field_contains (SearchIndex.content index) q
  then calculateRelevance index q = Throws PatternSyntaxException
  else ∃ r, calculateRelevance index q = Returns r ∧
            (SearchResult.score r = 0%float ∨ SearchResult.score r = 2%float) ∧
            SearchResult.highlightedTitle r = SearchIndex.title index ∧
            SearchResult.highlightedContent r = SearchIndex.content index.
Proof.
  intros Hq [t Et] [c Ec] Htags. unfold calculateRelevance. rewrite Et, Ec. cbn.
  destruct (contains (toLowerCase t) (toLowerCase q)); cbn.
  { now rewrite (highlightText_SyntaxError t q Hq). }
  destruct (contains (toLowerCase c) (toLowerCase q)); cbn.
  { now rewrite (highlightText_SyntaxError c q Hq). }
  destruct (tagBonus_total (SearchIndex.tags index) q 0%float Htags) as [s' Hs].
  rewrite Hs. cbn. eexists. split; [reflexivity|]. cbn.
  destruct (tagBonus_Returns _ _ _ _ Hs) as ([|] & -> & _); auto.
Qed.

End FailureFacts.

(** ** Splitting at whitespace *)

Section SplitFacts.

Import Regex.

Lemma split_from_whitespace_cons (c : ascii) (s piece : string) :
  split_from whitespace_run (String c s) 0 piece =
  if is_space c
  then piece :: split_from whitespace_run s (span false WhiteSpace s) EmptyString
  else split_from whitespace_run s 0 (piece +:+ String c EmptyString).
Proof.
  cbn [split_from whitespace_run p_ci p_items]. rewrite match_here_whitespace.
  cbn [span atom_matches]. destruct (is_space c); reflexivity.
Qed.

Lemma split_from_whitespace_skip (c : ascii) (s piece : string) :
  split_from whitespace_run (String c s) (span false WhiteSpace (String c s)) piece =
  if is_space c
  then split_from whitespace_run s (span false WhiteSpace s) piece
  else split_from whitespace_run s 0 (piece +:+ String c EmptyString).
Proof.
  cbn [span atom_matches]. destruct (is_space c) eqn:Hc; [reflexivity|].
  rewrite split_from_whitespace_cons, Hc. reflexivity.
Qed.

Lemma append_not_empty (piece : string) (c : ascii) :
  isEmpty (piece +:+ String c EmptyString) = false.
Proof. destruct piece; reflexivity. Qed.

Lemma length_drop_trailing_empty_cons (x : string) (l : list string) :
  length (drop_trailing_empty (x :: l)) =
  match length (drop_trailing_empty l) with
  | O => if isEmpty x then 0 else 1
  | S n => S (S n)
  end%nat.
Proof.
  cbn [drop_trailing_empty]. destruct (drop_trailing_empty l); [|reflexivity].
  destruct (isEmpty x); reflexivity.
Qed.

(** The number of pieces that are kept: inside a word, the word and the
    words that follow; after whitespace, the words that follow. *)
Lemma length_split_from_whitespace (s : string) :
  (∀ piece, isEmpty piece = false →
     length (drop_trailing_empty (split_from whitespace_run s 0 piece))
     = S (count_words true s)) ∧
  length (drop_trailing_empty
            (split_from whitespace_run s (span false WhiteSpace s) EmptyString))
  = count_words false s.
Proof.
  induction s as [|c s [IHa IHb]].
  - split; [|reflexivity]. intros piece Hp. cbn. now rewrite Hp.
  - split.
    + intros piece Hp. rewrite split_from_whitespace_cons.
      cbn [count_words]. destruct (is_space c).
      * rewrite length_drop_trailing_empty_cons, IHb, Hp.
        destruct (count_words false s); reflexivity.
      * rewrite IHa by apply append_not_empty. reflexivity.
    + rewrite split_from_whitespace_skip. cbn [count_words].
      destruct (is_space c); [exact IHb|].
      rewrite IHa by apply append_not_empty. reflexivity.
Qed.

Lemma split_from_no_space (s piece : string) :
  has_space s = false → split_from whitespace_run s 0 piece = [piece +:+ s].
Proof.
  revert piece. induction s as [|c s IH]; intros piece Hs.
  - cbn. now rewrite append_empty_r.
  - cbn [has_space] in Hs. apply orb_false_iff in Hs as [Hc Hs].
    rewrite split_from_whitespace_cons, Hc, (IH _ Hs), append_assoc. reflexivity.
Qed.

Lemma split_from_some_space (s piece : string) :
  has_space s = true → ∃ x y l, split_from whitespace_run s 0 piece = x :: y :: l.
Proof.
  revert piece. induction s as [|c s IH]; intros piece Hs; [discriminate|].
  rewrite split_from_whitespace_cons. cbn [has_space] in Hs.
  destruct (is_space c); [|exact (IH _ Hs)].
  destruct (split_from whitespace_run s (span false WhiteSpace s) EmptyString)
    as [|y l] eqn:E; [|eauto].
  exfalso. clear - E. revert E. generalize (span false WhiteSpace s) EmptyString.
  induction s as [|d s IH]; intros [|k] piece; cbn [split_from]; try discriminate.
  - cbn [whitespace_run p_ci p_items].
    destruct (match_here false [Item WhiteSpace Plus Greedy] (String d s)) as [[|n]|];
      first [discriminate | apply IH].
  - apply IH.
Qed.

Lemma count_words_no_space (s : string) :
  has_space s = false →
  count_words true s = 0%nat ∧
  count_words false s = if isEmpty s then 0%nat else 1%nat.
Proof.
  induction s as [|c s IH]; [auto|]. cbn [has_space count_words isEmpty].
  intros Hs. apply orb_false_iff in Hs as [-> Hs].
  destruct (IH Hs) as [-> _]. auto.
Qed.

(** [content.split("\\s+")] returns, and the length of the array is the
    number of words, one more when whitespace comes before the first word,
    and 1 for the empty string. *)
Lemma split_whitespace (content : string) :
  ∃ words, split content "\s+" = Returns words ∧ length words = split_length content.
Proof.
  unfold split.
  change (compile "\s+") with (Compiled whitespace_run).
  change (match_here (p_ci whitespace_run) (p_items whitespace_run) EmptyString)
    with (@None nat).
  cbv iota beta. destruct (has_space content) eqn:Hs.
  - destruct (split_from_some_space content EmptyString Hs) as (x & y & l & E).
    rewrite E. eexists. split; [reflexivity|]. rewrite <- E. clear E x y l.
    destruct content as [|c s]; [discriminate|].
    rewrite split_from_whitespace_cons. unfold split_length. cbn [count_words].
    destruct (length_split_from_whitespace s) as [Ha Hb].
    destruct (is_space c).
    + rewrite length_drop_trailing_empty_cons, Hb. cbn [isEmpty andb].
      destruct (count_words false s); reflexivity.
    + cbn [andb]. rewrite Ha by reflexivity. reflexivity.
  - rewrite (split_from_no_space content EmptyString Hs). eexists.
    split; [reflexivity|]. cbn [length].
    destruct content as [|c s]; [reflexivity|]. unfold split_length.
    destruct (count_words_no_space _ Hs) as [_ ->]. cbn [isEmpty].
    cbn [has_space] in Hs. apply orb_false_iff in Hs as [-> _]. reflexivity.
Qed.

Lemma holds_from_spec (p : Z → bool) (n : Z) (count : nat) :
  holds_from p n count = true → ∀ k, n ≤ k < n + Z.of_nat count → p k = true.
Proof.
  revert n. induction count as [|count IH]; intros n H k Hk; [lia|].
  cbn [holds_from] in H. apply andb_true_iff in H as [Hn H].
  destruct (Z.eq_dec k n) as [-> | Hne]; [exact Hn|].
  apply (IH (n + 1) H). lia.
Qed.

(** Up to 20000 words, the minutes computed in [double] are the words
    divided by 200 and rounded up, and 1 at least. *)
Lemma reading_minutes (wordCount : Z) :
  0 ≤ wordCount ≤ 20000 →
  Z.max 1 (double_to_int (Math_ceil (int_to_double wordCount / 200)%float))
  = Z.max 1 ((wordCount + 199) / 200).
Proof.
  intros Hw.
  assert (Hall : holds_from
                   (λ n, Z.max 1 (double_to_int
                                    (Math_ceil (int_to_double n / 200)%float))
                         =? Z.max 1 ((n + 199) / 200))
                   0 (Z.to_nat 20001) = true) by (vm_compute; reflexivity).
  apply Z.eqb_eq. apply (holds_from_spec _ _ _ Hall). lia.
Qed.

End SplitFacts.

(** ** The calls of the entity *)

Section PostFacts.

Import PostMethods.

Lemma calculateReadingTime_Returns (this : Post.t) :
  ∃ minutes, calculateReadingTime this = Returns (set_readingTime minutes this).
Proof.
  unfold calculateReadingTime. destruct (Post.content this) as [content|].
  - destruct (split_whitespace content) as (words & -> & _). cbn. eauto.
  - exists (Post.readingTime this). destruct this; reflexivity.
Qed.

(** What a call that returns leaves as it is, and what it does to the
    counters. *)
Lemma invoke_Returns (c : call) (this this' : Post.t) :
  invoke c this = Returns this' →
  Post.id this' = Post.id this ∧ Post.title this' = Post.title this ∧
  Post.content this' = Post.content this ∧ Post.excerpt this' = Post.excerpt this ∧
  Post.tags this' = Post.tags this ∧
  (∀ t, Post.publishedAt this = Some t → Post.publishedAt this' = Some t).
Proof.
  destruct c; cbn;
    unfold publish, draft, archive, incrementViewCount, incrementLikeCount,
      decrementLikeCount, incrementCommentCount, decrementCommentCount.
  9: { destruct (calculateReadingTime_Returns this) as [minutes ->].
       intros [= <-]. cbn. repeat split; auto. }
  all: cbn; repeat match goal with
                   | |- context [match Post.publishedAt ?x with _ => _ end] =>
                       destruct (Post.publishedAt x) eqn:?; cbn
                   | |- context [nonnull ?x] => destruct x; cbn; try discriminate
                   | |- context [if ?b then _ else _] => destruct b; cbn
                   end;
    intros [= <-]; cbn; repeat split; auto; intros; cbn in *; congruence.
Qed.

Lemma invoke_all_Returns (cs : list call) (this this' : Post.t) :
  invoke_all cs this = Returns this' →
  Post.id this' = Post.id this ∧ Post.title this' = Post.title this ∧
  Post.content this' = Post.content this ∧ Post.excerpt this' = Post.excerpt this ∧
  Post.tags this' = Post.tags this ∧
  (∀ t, Post.publishedAt this = Some t → Post.publishedAt this' = Some t).
Proof.
  revert this. induction cs as [|c cs IH]; intros this; cbn.
  - intros [= <-]. repeat split; auto.
  - destruct (invoke c this) as [this1| |] eqn:Hc; cbn; try discriminate.
    intros Hcs. destruct (invoke_Returns c this this1 Hc) as (H1 & H2 & H3 & H4 & H5 & H6).
    destruct (IH this1 Hcs) as (I1 & I2 & I3 & I4 & I5 & I6).
    repeat split; try congruence. intros t Ht. exact (I6 t (H6 t Ht)).
Qed.

(** A call moves each counter by one at most, and not below zero. *)
Lemma invoke_counters (c : call) (this : Post.t) (v l m : Z) :
  Post.viewCount this = Some v → Post.likeCount this = Some l →
  Post.commentCount this = Some m →
  0 ≤ v < 2 ^ 31 - 1 → 0 ≤ l < 2 ^ 31 - 1 → 0 ≤ m < 2 ^ 31 - 1 →
  ∃ this' v' l' m',
    invoke c this = Returns this' ∧
    Post.viewCount this' = Some v' ∧ Post.likeCount this' = Some l' ∧
    Post.commentCount this' = Some m' ∧
    0 ≤ v' ≤ v + 1 ∧ 0 ≤ l' ≤ l + 1 ∧ 0 ≤ m' ≤ m + 1.
Proof.
  intros Hv Hl Hm Bv Bl Bm. change (2 ^ 31) with 2147483648 in *.
  assert (Hint : ∀ z, 0 ≤ z < 2147483648 → int_cast z = z).
  { intros z Hz. apply int_cast_small. change (2 ^ 31) with 2147483648. lia. }
  destruct c; cbn;
    unfold publish, draft, archive, incrementViewCount, incrementLikeCount,
      decrementLikeCount, incrementCommentCount, decrementCommentCount.
  9: { destruct (calculateReadingTime_Returns this) as [minutes ->].
       eexists _, v, l, m. split; [reflexivity|]. cbn. repeat split; auto; lia. }
  all: rewrite ?Hv, ?Hl, ?Hm; cbn.
  1: destruct (Post.publishedAt this).
  all: try (destruct (Z.ltb_spec 0 l)); try (destruct (Z.ltb_spec 0 m));
    rewrite ?Hv, ?Hl, ?Hm; cbn; rewrite ?Hint by lia;
    eexists _, _, _, _; (split; [reflexivity|]); cbn; rewrite ?Hv, ?Hl, ?Hm;
    repeat split; try reflexivity; lia.
Qed.

End PostFacts.

(** * Further properties, stated *)

(** X1. Normalizing a query always returns, and its result is a normal form:
    trimming it, collapsing its whitespace and lowering its case each leave
    it as it is, so that normalizing it again returns it unchanged. *)
Theorem normalizeQuery_idempotent (query : string) :
  ∃ nq, normalizeQuery query = Returns nq ∧
        trim nq = nq ∧ collapse_whitespace nq = nq ∧ toLowerCase nq = nq ∧
        normalizeQuery nq = Returns nq.
Proof.
  exists (toLowerCase (collapse_whitespace (trim query))).
  destruct (normal_form_fixed query) as (Ht & Hc & Hl).
  split; [apply normalizeQuery_spec|]. split; [exact Ht|]. split; [exact Hc|].
  split; [exact Hl|]. rewrite normalizeQuery_spec, Ht, Hc, Hl. reflexivity.
Qed.

Section SearchAgain.

Variable values : gmap Z SearchIndex.t → list SearchIndex.t.

#[local] Arguments rank : simpl never.
#[local] Arguments normalizeQuery : simpl never.
#[local] Arguments subList : simpl never.
#[local] Arguments PageImpl : simpl never.
#[local] Arguments int_cast : simpl never.

(** X2. A search depends on its query through the normal form only: two
    queries that are not blank and have the same normal form, such as the
    same words in another letter case or with other spacing, get the same
    answer for every page and every state of the service; and so does the
    normal form itself, which is never blank. *)
Theorem search_depends_on_normal_form (this : SearchService) (q1 q2 : string)
    (pageable : Pageable) :
  isEmpty (trim q1) = false →
  isEmpty (trim q2) = false →
  normalizeQuery q1 = normalizeQuery q2 →
  searchPosts values (Some q1) pageable this
    = searchPosts values (Some q2) pageable this ∧
  ∃ nq, normalizeQuery q1 = Returns nq ∧ isEmpty (trim nq) = false ∧
        searchPosts values (Some nq) pageable this
          = searchPosts values (Some q1) pageable this.
Proof.
  intros H1 H2 Heq.
  destruct (normalizeQuery_returns q1) as [nq Hnq].
  assert (Hnq2 : normalizeQuery q2 = Returns nq) by congruence.
  split.
  - rewrite (searchPosts_nonblank values this q1 nq pageable H1 Hnq).
    now rewrite (searchPosts_nonblank values this q2 nq pageable H2 Hnq2).
  - exists nq. split; [exact Hnq|].
    assert (Hform : nq = toLowerCase (collapse_whitespace (trim q1))).
    { rewrite normalizeQuery_spec in Hnq. congruence. }
    destruct (normal_form_fixed q1) as (Ht & Hc & Hl). rewrite <- Hform in Ht, Hc, Hl.
    destruct (normal_form_ends q1 H1) as [Hs _]. cbn zeta in Hs.
    rewrite <- Hform in Hs.
    assert (Hne : isEmpty (trim nq) = false).
    { rewrite Ht. destruct nq; [discriminate | reflexivity]. }
    split; [exact Hne|].
    assert (Hnn : normalizeQuery nq = Returns nq).
    { rewrite normalizeQuery_spec, Ht, Hc, Hl. reflexivity. }
    rewrite (searchPosts_nonblank values this nq nq pageable Hne Hnn).
    now rewrite (searchPosts_nonblank values this q1 nq pageable H1 Hnq).
Qed.

(** X3. A page that starts inside the ranked results (offset at most their
    number, offset + page size within the int range) is the conversion of
    the slice of the results from the offset on, the page size at most: the
    call fails only if the conversion of one of these results fails, and a
    page that is returned has the length of the slice and reports the number
    of all results as its total. *)
Theorem page_inside_results (this : SearchService) (query nq : string)
    (results : list SearchResult.t) (pageable : Pageable) :
  isEmpty (trim query) = false →
  normalizeQuery query = Returns nq →
  performSearch values nq this = (Returns results, this) →
  0 ≤ getOffset pageable ≤ Z.of_nat (length results) →
  0 ≤ pageSize pageable →
  getOffset pageable + pageSize pageable < 2 ^ 31 →
  let slice := take (Z.to_nat (pageSize pageable))
                    (drop (Z.to_nat (getOffset pageable)) results) in
  searchPosts values (Some query) pageable this =
    (responses ← mapM (λ r, (convertToPostResponse r this).1) slice;
     Returns (PageImpl responses pageable (Z.of_nat (length results))), this) ∧
  ∀ page, (searchPosts values (Some query) pageable this).1 = Returns page →
    mapM (λ r, (convertToPostResponse r this).1) slice = Returns (getContent page) ∧
    Z.of_nat (length (getContent page))
      = Z.min (pageSize pageable) (Z.of_nat (length results) - getOffset pageable) ∧
    getTotalElements page = Z.of_nat (length results).
Proof.
  intros Hblank Hnq Hsearch Hoff Hsize Hint slice.
  rewrite performSearch_rank in Hsearch. injection Hsearch as Hrank.
  pose proof (searchPosts_slice values this query nq results pageable
                Hblank Hnq Hrank Hoff Hsize Hint) as Hcall.
  fold slice in Hcall. split; [exact Hcall|].
  intros page. rewrite Hcall. cbn [fst].
  destruct (mapM (λ r, (convertToPostResponse r this).1) slice)
    as [responses| |] eqn:Hconv; cbn; try discriminate.
  intros [= <-].
  assert (Hlen : Z.of_nat (length responses)
                 = Z.min (pageSize pageable)
                         (Z.of_nat (length results) - getOffset pageable)).
  { rewrite (mapM_Returns_length _ _ _ Hconv). unfold slice.
    rewrite length_take, length_drop. lia. }
  split; [reflexivity|]. split; [exact Hlen|].
  now apply PageImpl_total_slice.
Qed.

(** X4. A page that starts beyond the ranked results, at an offset that the
    narrowing to [int] keeps (greater than their number, below 2^31), is not
    answered with an empty page: whatever the page size, and also when
    [start + pageSize] overflows, [end] is at most the number of results and
    [start] is above it, so [subList] throws its IllegalArgumentException;
    the service is left as it was. *)
Theorem page_beyond_results (this : SearchService) (query nq : string)
    (results : list SearchResult.t) (pageable : Pageable) :
  isEmpty (trim query) = false →
  normalizeQuery query = Returns nq →
  performSearch values nq this = (Returns results, this) →
  Z.of_nat (length results) < getOffset pageable < 2 ^ 31 →
  searchPosts values (Some query) pageable this =
  (Throws (IllegalArgumentException FromIndexAfterToIndex), this).
Proof.
  intros Hblank Hnq Hsearch Hoff.
  rewrite performSearch_rank in Hsearch. injection Hsearch as Hrank.
  rewrite (searchPosts_nonblank values this query nq pageable Hblank Hnq), Hrank. cbn.
  unfold page_end, page_start.
  rewrite (int_cast_small (getOffset pageable)) by lia.
  set (e := Z.min (int_cast (getOffset pageable + pageSize pageable))
                  (Z.of_nat (length results))).
  assert (He : e ≤ Z.of_nat (length results)) by apply Z.le_min_r.
  unfold subList.
  destruct (Z.ltb_spec (getOffset pageable) 0); [lia|].
  destruct (Z.ltb_spec (Z.of_nat (length results)) e); [lia|].
  destruct (Z.ltb_spec e (getOffset pageable)); [reflexivity | lia].
Qed.

(** X5. An offset from 2^31 up to 2^32 - 1 is narrowed to a negative [int],
    and [subList] throws IndexOutOfBoundsException, whatever the results. *)
Theorem page_offset_overflow (this : SearchService) (query nq : string)
    (results : list SearchResult.t) (pageable : Pageable) :
  isEmpty (trim query) = false →
  normalizeQuery query = Returns nq →
  performSearch values nq this = (Returns results, this) →
  2 ^ 31 ≤ getOffset pageable < 2 ^ 32 →
  searchPosts values (Some query) pageable this =
  (Throws IndexOutOfBoundsException, this).
Proof.
  intros Hblank Hnq Hsearch Hoff.
  rewrite performSearch_rank in Hsearch. injection Hsearch as Hrank.
  rewrite (searchPosts_nonblank values this query nq pageable Hblank Hnq), Hrank. cbn.
  unfold page_start. rewrite (int_cast_negative _ Hoff). unfold subList.
  destruct (Z.ltb_spec (getOffset pageable - 2 ^ 32) 0); [reflexivity | lia].
Qed.

(** X6. A result of the page whose post is not in the repository makes the
    search fail: when the results of the page before it have their posts and
    authors, the call throws the RuntimeException that names its id. The
    entry is not skipped. *)
Theorem page_with_missing_post (this : SearchService) (query nq : string)
    (results before after : list SearchResult.t) (r : SearchResult.t)
    (pageable : Pageable) :
  isEmpty (trim query) = false →
  normalizeQuery query = Returns nq →
  performSearch values nq this = (Returns results, this) →
  0 ≤ getOffset pageable ≤ Z.of_nat (length results) →
  0 ≤ pageSize pageable →
  getOffset pageable + pageSize pageable < 2 ^ 31 →
  take (Z.to_nat (pageSize pageable)) (drop (Z.to_nat (getOffset pageable)) results)
    = before ++ r :: after →
  Forall (λ r', ∃ post, postRepository this !! SearchResult.id r' = Some post ∧
                        is_Some (Post.author post)) before →
  postRepository this !! SearchResult.id r = None →
  searchPosts values (Some query) pageable this =
  (Throws (RuntimeException (SearchResult.id r)), this).
Proof.
  intros Hblank Hnq Hsearch Hoff Hsize Hint Hslice Hbefore Hmissing.
  rewrite performSearch_rank in Hsearch. injection Hsearch as Hrank.
  rewrite (searchPosts_slice values this query nq results pageable
             Hblank Hnq Hrank Hoff Hsize Hint), Hslice.
  rewrite (mapM_app_Throws _ before after r (RuntimeException (SearchResult.id r)));
    [reflexivity | | now apply convertToPostResponse_missing].
  eapply Forall_impl; [exact Hbefore|]. cbn.
  intros r' (post & Hpost & [author Hauthor]).
  unfold convertToPostResponse. method_simpl. rewrite Hpost. cbn.
  rewrite Hauthor. cbn. eauto.
Qed.

(** X7. Every response of a returned page is built from the post that the
    repository holds under the id of a ranked result: id, title, content and
    author name are the post's, as the repository has them now, while score
    and highlighted fields are those of the result, computed from the index
    entry. The responses stand in the order of the results they come from. *)
Theorem responses_come_from_the_repository (this this' : SearchService)
    (query : string) (pageable : Pageable) (page : Page) :
  searchPosts values (Some query) pageable this = (Returns page, this') →
  ∃ nq results paged,
    normalizeQuery query = Returns nq ∧
    performSearch values nq this = (Returns results, this) ∧
    subList results (page_start pageable) (page_end pageable (length results))
      = Returns paged ∧
    Forall2 (λ r response,
               ∃ post author,
                 postRepository this !! SearchResult.id r = Some post ∧
                 Post.author post = Some author ∧
                 PostResponse.id response = Post.id post ∧
                 PostResponse.title response = Post.title post ∧
                 PostResponse.content response = Post.content post ∧
                 PostResponse.authorName response = User.username author ∧
                 PostResponse.highlightedTitle response
                   = SearchResult.highlightedTitle r ∧
                 PostResponse.highlightedContent response
                   = SearchResult.highlightedContent r ∧
                 PostResponse.searchScore response = SearchResult.score r)
            paged (getContent page).
Proof.
  intros Hpage.
  destruct (searchPosts_Returns values _ _ _ _ _ Hpage)
    as (nq & results & paged & responses & _ & Hnq & Hrank & Hsub & Hconv & -> & _).
  exists nq, results, paged. split; [exact Hnq|].
  split; [now rewrite performSearch_rank, Hrank|]. split; [exact Hsub|].
  cbn [getContent PageImpl]. unfold PageImpl. cbn [getContent].
  apply mapM_Returns in Hconv.
  eapply Forall2_impl; [exact Hconv|]. cbn.
  intros r response Hr. exact (convertToPostResponse_fields r this response Hr).
Qed.

End SearchAgain.

(** X8. Whatever sequence of [indexPost] and [removePostFromIndex] calls is
    made on a service whose index entries stand under their own ids (as on a
    new service, whose index is empty), the entries of the index still stand
    under their own ids afterwards, and the repository is the one it was; a
    call that fails ends the sequence and changes nothing. *)
Theorem index_entries_keep_their_keys (us : list index_update) (this : SearchService) :
  well_keyed (searchIndex this) →
  well_keyed (searchIndex (mapM update us this).2) ∧
  postRepository (mapM update us this).2 = postRepository this ∧
  ∀ u, update u this = (Throws NullPointerException, this) ∨
       ∃ this', update u this = (Returns tt, this').
Proof.
  intros Hm. destruct (updates_invariant us this Hm) as [Hm' Hrepo].
  split; [exact Hm'|]. split; [exact Hrepo|]. intros u. apply update_cases.
Qed.

(** X10. Indexing is an upsert: a post (with a tag list that holds no null)
    indexed after another post of the same id replaces it, and the index is as
    if the first had never been indexed. *)
Theorem indexPost_last_write_wins (p1 p2 : Post.t) (this : SearchService) :
  Post.id p1 = Post.id p2 →
  is_Some (present_tags p2) →
  indexPost p2 (indexPost p1 this).2 = indexPost p2 this.
Proof.
  intros Hid [tags2 Ht2].
  destruct (Post.id p2) as [id|] eqn:Hid2.
  - destruct (present_tags p1) as [tags1|] eqn:Ht1.
    + rewrite (indexPost_entry p1 this id tags1 Hid Ht1). cbn [snd].
      rewrite (indexPost_entry p2 _ id tags2 Hid2 Ht2).
      rewrite (indexPost_entry p2 this id tags2 Hid2 Ht2). cbn.
      now rewrite insert_insert_eq.
    + rewrite (indexPost_null p1 this) by auto. reflexivity.
  - rewrite (indexPost_null p1 this) by auto. reflexivity.
Qed.

(** X11. Removing a post (with an id and a tag list that holds no null) right
    after indexing it leaves the index without an entry for its id and with
    the other entries it had before the two calls; when the id was not indexed
    before, the service is exactly as it was. *)
Theorem index_then_remove (post : Post.t) (id : Z) (this : SearchService) :
  Post.id post = Some id →
  is_Some (present_tags post) →
  let this' := (indexPost post this).2 in
  (indexPost post this).1 = Returns tt ∧
  (removePostFromIndex (Some id) this').1 = Returns tt ∧
  searchIndex (removePostFromIndex (Some id) this').2 = delete id (searchIndex this) ∧
  (searchIndex this !! id = None →
   (removePostFromIndex (Some id) this').2 = this).
Proof.
  intros Hid [tags Ht] this'. unfold this'.
  rewrite (indexPost_entry post this id tags Hid Ht). cbn.
  split; [reflexivity|]. split; [reflexivity|].
  split; [apply delete_insert_eq|].
  intros Hnone. unfold removePostFromIndex. method_simpl.
  rewrite delete_insert_eq, (delete_id _ _ Hnone).
  destruct this; reflexivity.
Qed.

(** X12. Updates about different ids commute: made in either order, two calls
    of [indexPost] or [removePostFromIndex] whose ids differ leave the same
    index, and each has the outcome it has alone. *)
Theorem independent_updates_commute (u1 u2 : index_update) (this : SearchService) :
  target u1 ≠ target u2 →
  (update u2 (update u1 this).2).2 = (update u1 (update u2 this).2).2 ∧
  (update u1 (update u2 this).2).1 = (update u1 this).1 ∧
  (update u2 (update u1 this).2).1 = (update u2 this).1.
Proof.
  intros Hne. rewrite !update_effect.
  destruct (effect u1) as [f1|] eqn:H1, (effect u2) as [f2|] eqn:H2; cbn;
    rewrite ?H1, ?H2; cbn; try (repeat split; reflexivity).
  split; [|split; reflexivity]. f_equal.
  exact (effects_commute u1 u2 f1 f2 _ Hne H1 H2).
Qed.

Section SearchAfterUpdates.

Variable values : gmap Z SearchIndex.t → list SearchIndex.t.
Hypothesis values_perm : ∀ m, values m ≡ₚ (map_to_list m).*2.

#[local] Arguments rank : simpl never.
#[local] Arguments normalizeQuery : simpl never.
#[local] Arguments highlightText : simpl never.

(** X9. No post is listed twice: on an index whose entries stand under their
    own ids, the ranked results of a search have pairwise different ids, and
    each is the result of the entry stored under its id. *)
Theorem results_have_distinct_ids (this this' : SearchService) (nq : string)
    (results : list SearchResult.t) :
  well_keyed (searchIndex this) →
  performSearch values nq this = (Returns results, this') →
  NoDup (SearchResult.id <$> results) ∧
  Forall (λ r, ∃ index, searchIndex this !! SearchResult.id r = Some index ∧
                        calculateRelevance index nq = Returns r) results.
Proof.
  intros Hm. rewrite performSearch_rank. intros [= Hrank _].
  pose proof (rank_matching values values_perm _ _ _ Hrank) as Hperm. split.
  - rewrite Hperm. now apply matching_results_NoDup.
  - apply Forall_forall. intros r Hr. rewrite Hperm in Hr.
    now apply matching_results_id.
Qed.

(** The entries of an index whose ranking returns can all be scored. *)
Lemma rank_Returns_each (m : gmap Z SearchIndex.t) (q : string)
    (results : list SearchResult.t) :
  rank (values m) q = Returns results →
  ∀ k index, m !! k = Some index → ∃ r, calculateRelevance index q = Returns r.
Proof.
  rewrite rank_Returns. intros (scored & Hscored & _) k index Hk.
  pose proof (mapM_Returns_each _ _ _ Hscored) as Hall.
  rewrite Forall_forall in Hall. apply Hall. rewrite (values_perm m).
  apply list_elem_of_fmap. exists (k, index). split; [reflexivity|].
  now apply elem_of_map_to_list.
Qed.

(** X13. The method sees a removal at once: after [removePostFromIndex] the
    search, run on the service itself, returns whenever it returned before,
    and its ranked results are the former results without the one of the
    removed id; no result has that id. *)
Theorem search_after_removal (this : SearchService) (id : Z) (nq : string)
    (results : list SearchResult.t) :
  well_keyed (searchIndex this) →
  performSearch values nq this = (Returns results, this) →
  let this' := (removePostFromIndex (Some id) this).2 in
  ∃ results',
    performSearch values nq this' = (Returns results', this') ∧
    results' ≡ₚ filter (λ r, SearchResult.id r ≠ id) results ∧
    Forall (λ r, SearchResult.id r ≠ id) results'.
Proof.
  intros Hm. rewrite performSearch_rank. intros [= Hrank] this'.
  assert (Hthis' : searchIndex this' = delete id (searchIndex this)) by reflexivity.
  destruct (rank_total values values_perm (searchIndex this') nq) as [results' Hr'].
  { intros k index. rewrite Hthis', lookup_delete_Some. intros [_ Hk].
    exact (rank_Returns_each _ _ _ Hrank k index Hk). }
  exists results'. split; [now rewrite performSearch_rank, Hr'|].
  pose proof (rank_matching values values_perm _ _ _ Hrank) as Hperm.
  pose proof (rank_matching values values_perm _ _ _ Hr') as Hperm'.
  assert (Hfilter : results' ≡ₚ filter (λ r, SearchResult.id r ≠ id) results).
  { rewrite Hperm', Hperm, Hthis'. now apply matching_results_delete_filter. }
  split; [exact Hfilter|].
  apply Forall_forall. intros r Hr. rewrite Hfilter in Hr.
  now apply list_elem_of_filter in Hr as [Hr _].
Qed.

(** X14. The method sees an indexed post at once: after [indexPost] of a post
    that can be scored, the search returns whenever it returned before, and
    its ranked results are the result of the new entry, if its score is above
    0, and the former results of the other ids; the former result of the same
    id is gone. *)
Theorem search_after_indexing (this : SearchService) (post : Post.t) (id : Z)
    (tags : list Tag.t) (nq : string) (results : list SearchResult.t)
    (r : SearchResult.t) :
  well_keyed (searchIndex this) →
  Post.id post = Some id →
  present_tags post = Some tags →
  calculateRelevance (entry_of id post tags) nq = Returns r →
  performSearch values nq this = (Returns results, this) →
  let this' := (indexPost post this).2 in
  ∃ results',
    performSearch values nq this' = (Returns results', this') ∧
    results' ≡ₚ (if (0 <? SearchResult.score r)%float then [r] else [])
                ++ filter (λ r', SearchResult.id r' ≠ id) results ∧
    SearchResult.id r = id.
Proof.
  intros Hm Hid Ht Hr. rewrite performSearch_rank. intros [= Hrank] this'.
  assert (Hthis' : searchIndex this' = <[id := entry_of id post tags]> (searchIndex this)).
  { unfold this'. now rewrite (indexPost_entry post this id tags Hid Ht). }
  destruct (rank_total values values_perm (searchIndex this') nq) as [results' Hr'].
  { intros k index. rewrite Hthis', lookup_insert_Some.
    intros [[_ <-] | [_ Hk]]; [eauto|].
    exact (rank_Returns_each _ _ _ Hrank k index Hk). }
  exists results'. split; [now rewrite performSearch_rank, Hr'|].
  split; [|exact (calculateRelevance_id _ _ _ Hr)].
  rewrite (rank_matching values values_perm _ _ _ Hr'), Hthis'.
  rewrite matching_results_insert. unfold match_of. rewrite Hr.
  apply Permutation_app_head.
  rewrite (rank_matching values values_perm _ _ _ Hrank).
  now apply matching_results_delete_filter.
Qed.

(** X15. One index entry without title or content breaks every search:
    [indexPost] stores a post whose title or content is null, and from then
    on every search with a query that is not blank and can be highlighted
    throws NullPointerException, whatever the page. *)
Theorem null_field_breaks_every_search (this : SearchService) (post : Post.t)
    (id : Z) (tags : list Tag.t) (query nq : string) (pageable : Pageable) :
  Post.id post = Some id →
  present_tags post = Some tags →
  Post.title post = None ∨ Post.content post = None →
  isEmpty (trim query) = false →
  normalizeQuery query = Returns nq →
  highlightable nq →
  (indexPost post this).1 = Returns tt ∧
  (searchPosts values (Some query) pageable (indexPost post this).2).1
    = Throws NullPointerException.
Proof.
  intros Hid Ht Hnull Hblank Hnq Hq.
  rewrite (indexPost_entry post this id tags Hid Ht). cbn [fst snd].
  split; [reflexivity|].
  rewrite (searchPosts_nonblank values _ query nq pageable Hblank Hnq). cbn [fst].
  cbn [searchIndex].
  set (m := <[id := entry_of id post tags]> (searchIndex this)).
  assert (Hrank : rank (values m) nq = Throws NullPointerException).
  { unfold rank.
    rewrite (mapM_all_or_Throws _ (values m) NullPointerException); [reflexivity| |].
    - apply Forall_forall. intros index _.
      exact (calculateRelevance_highlightable index nq Hq).
    - apply Exists_exists. exists (entry_of id post tags). split.
      + rewrite (values_perm m). apply list_elem_of_fmap.
        exists (id, entry_of id post tags). split; [reflexivity|].
        apply elem_of_map_to_list. apply lookup_insert_eq.
      + apply calculateRelevance_null_field; [exact Hq | exact Hnull]. }
  rewrite Hrank. reflexivity.
Qed.

(** X16. A query that is no regular expression (its pattern has a dangling
    quantifier, as that of "*") fails only on a hit: over entries whose
    fields are present, the ranking throws PatternSyntaxException when the
    title or the content of some entry contains the query, and otherwise
    returns the entries that match by a tag, each with score 2.0 and with
    title and content not highlighted. *)
Theorem malformed_query_fails_on_a_hit (this : SearchService) (nq : string) :
  Regex.compile ("(?i)(" +:+ nq +:+ ")") = Regex.SyntaxError →
  (∀ k index, searchIndex this !! k = Some index →
     is_Some (SearchIndex.title index) ∧ is_Some (SearchIndex.content index) ∧
     Forall is_Some (SearchIndex.tags index)) →
  ((∃ k index, searchIndex this !! k = Some index ∧
               (field_contains (SearchIndex.title index) nq
                || field_contains (SearchIndex.content index) nq) = true) →
   performSearch values nq this = (Throws PatternSyntaxException, this)) ∧
  ((∀ k index, searchIndex this !! k = Some index →
               (field_contains (SearchIndex.title index) nq
                || field_contains (SearchIndex.content index) nq) = false) →
   ∃ results,
     performSearch values nq this = (Returns results, this) ∧
     Forall (λ r, SearchResult.score r = 2%float ∧
                  SearchResult.highlightedTitle r = SearchResult.title r ∧
                  SearchResult.highlightedContent r = SearchResult.content r)
            results).
Proof.
  intros Hq Hfields.
  assert (Hin : ∀ index, index ∈ values (searchIndex this) ↔
                         ∃ k, searchIndex this !! k = Some index).
  { intros index. rewrite (values_perm (searchIndex this)), list_elem_of_fmap. split.
    - intros ([k index'] & -> & Hk). exists k. now apply elem_of_map_to_list.
    - intros [k Hk]. exists (k, index). split; [reflexivity|].
      now apply elem_of_map_to_list. }
  assert (Hcases : ∀ k index, searchIndex this !! k = Some index →
    if field_contains (SearchIndex.title index) nq
       || field_contains (SearchIndex.content index) nq
    then calculateRelevance index nq = Throws PatternSyntaxException
    else ∃ r, calculateRelevance index nq = Returns r ∧
              (SearchResult.score r = 0%float ∨ SearchResult.score r = 2%float) ∧
              SearchResult.highlightedTitle r = SearchIndex.title index ∧
              SearchResult.highlightedContent r = SearchIndex.content index).
  { intros k index Hk. destruct (Hfields k index Hk) as (Ht & Hc & Htags).
    now apply calculateRelevance_SyntaxError. }
  split.
  - intros (k & index & Hk & Hhit). rewrite performSearch_rank. f_equal.
    unfold rank.
    rewrite (mapM_all_or_Throws _ _ PatternSyntaxException); [reflexivity| |].
    + apply Forall_forall. intros index' Hin'. apply Hin in Hin' as [k' Hk'].
      specialize (Hcases k' index' Hk').
      destruct (field_contains (SearchIndex.title index') nq
                || field_contains (SearchIndex.content index') nq);
        [right; exact Hcases | left].
      destruct Hcases as (r & Hr & _). eauto.
    + apply Exists_exists. exists index. split; [apply Hin; eauto|].
      specialize (Hcases k index Hk). now rewrite Hhit in Hcases.
  - intros Hmiss.
    destruct (rank_total values values_perm (searchIndex this) nq) as [results Hrank].
    { intros k index Hk. specialize (Hcases k index Hk).
      rewrite (Hmiss k index Hk) in Hcases. destruct Hcases as (r & Hr & _). eauto. }
    exists results. split; [now rewrite performSearch_rank, Hrank|].
    apply Forall_forall. intros r Hr.
    rewrite (rank_matching values values_perm _ _ _ Hrank) in Hr.
    apply elem_of_matching_results in Hr as (k & index & Hk & Hr & Hpos).
    specialize (Hcases k index Hk). rewrite (Hmiss k index Hk) in Hcases.
    destruct Hcases as (r' & Hr' & Hscore & Hht & Hhc).
    assert (r' = r) as -> by congruence.
    destruct (calculateRelevance_Returns _ _ _ Hr)
      as (t & c & bg & _ & _ & _ & _ & _ & _ & _ & Htitle & Hcontent & _).
    split; [|split; congruence].
    destruct Hscore as [H0 | H2]; [|exact H2].
    rewrite H0 in Hpos. discriminate.
Qed.

End SearchAfterUpdates.

(** X17. The cache key of a search determines the call: two searches have the
    same key exactly when they have the same query string, character by
    character, the same page number and the same page size. No page is
    answered from the entry of another query or page; and two spellings of
    one query have two entries. *)
Theorem cache_key_determines_the_call (q1 q2 : string) (pg1 pg2 : Pageable) :
  search_key (Some q1) pg1 = search_key (Some q2) pg2 ↔ q1 = q2 ∧ pg1 = pg2.
Proof.
  split; [apply search_key_inj | intros [-> ->]; reflexivity].
Qed.

Section CacheAgain.

Variable values : gmap Z SearchIndex.t → list SearchIndex.t.


End CacheAgain.

Section HighlightAgain.

#[local] Arguments highlightText : simpl never.

(** X19. For a query without regular-expression metacharacters and an entry
    whose fields are present, scoring returns, and the highlighted title and
    content are these: a field that does not contain the query is returned
    as it is stored; in a field that contains it, the occurrences found from
    left to right, without overlap, the letters A-Z and a-z taken alike, are
    wrapped in <mark> and </mark> in the casing of the field. *)
Theorem literal_query_is_marked (index : SearchIndex.t) (q t c : string) :
  literal q = true →
  SearchIndex.title index = Some t →
  SearchIndex.content index = Some c →
  Forall is_Some (SearchIndex.tags index) →
  ∃ r, calculateRelevance index q = Returns r ∧
       SearchResult.highlightedTitle r =
         Some (if contains (toLowerCase t) (toLowerCase q)
               then mark_occurrences q t 0 else t) ∧
       SearchResult.highlightedContent r =
         Some (if contains (toLowerCase c) (toLowerCase q)
               then mark_occurrences q c 0 else c).
Proof.
  intros Hq Ht Hc Htags.
  destruct (calculateRelevance_total index q) as [r Hr];
    [rewrite Ht; eauto | rewrite Hc; eauto | exact Htags
     | now apply literal_highlightable |].
  exists r. split; [exact Hr|].
  destruct (calculateRelevance_Returns _ _ _ Hr)
    as (t' & c' & bg & Ht' & Hc' & _ & _ & Hht & Hhc & _).
  assert (t' = t) as -> by congruence. assert (c' = c) as -> by congruence.
  cbn zeta in Hht, Hhc. split.
  - destruct (contains (toLowerCase t) (toLowerCase q)); [|exact Hht].
    rewrite (highlightText_literal t q Hq) in Hht. congruence.
  - destruct (contains (toLowerCase c) (toLowerCase q)); [|exact Hhc].
    rewrite (highlightText_literal c q Hq) in Hhc. congruence.
Qed.

End HighlightAgain.

Section PostProperties.

Import PostMethods.

(** X20. The publication time is set once: [publish] marks the post as
    published and sets the time of publication only if there is none, and
    whatever calls of the entity's methods follow (draft, archive, publish
    again, the counters, the reading time), the time of publication stays
    the one of the first publication. *)
Theorem publication_time_is_kept (now : LocalDateTime) (cs : list call)
    (this this' : Post.t) :
  invoke_all (Publish now :: cs) this = Returns this' →
  isPublished (publish now this) = true ∧
  Post.publishedAt (publish now this) = Some (default now (Post.publishedAt this)) ∧
  Post.publishedAt this' = Some (default now (Post.publishedAt this)).
Proof.
  cbn [invoke_all invoke]. change (this'0 ← Returns (publish now this); invoke_all cs this'0)
    with (invoke_all cs (publish now this)).
  intros Hcs.
  assert (Hp : Post.publishedAt (publish now this)
               = Some (default now (Post.publishedAt this))).
  { unfold publish, set_status, set_publishedAt, assign. cbn.
    destruct (Post.publishedAt this); reflexivity. }
  split; [|split; [exact Hp|]].
  - unfold publish, isPublished, set_status, set_publishedAt, assign. cbn.
    destruct (Post.publishedAt this); reflexivity.
  - destruct (invoke_all_Returns cs _ _ Hcs) as (_ & _ & _ & _ & _ & Hkeep).
    exact (Hkeep _ Hp).
Qed.

(** X21. The methods that count do not take a counter below zero: on a post
    whose view, like and comment counts are not negative, every sequence of
    calls of [publish], [draft], [archive], [incrementViewCount],
    [incrementLikeCount], [decrementLikeCount], [incrementCommentCount],
    [decrementCommentCount] and [calculateReadingTime] returns (as long as
    the counts stay in the int range), and afterwards each count is between
    0 and its former value plus the number of calls. The setters, which
    assign any value, are not among these calls. *)
Theorem counters_stay_non_negative (cs : list call) (this : Post.t) (v l m : Z) :
  Post.viewCount this = Some v →
  Post.likeCount this = Some l →
  Post.commentCount this = Some m →
  0 ≤ v → 0 ≤ l → 0 ≤ m →
  v + Z.of_nat (length cs) < 2 ^ 31 →
  l + Z.of_nat (length cs) < 2 ^ 31 →
  m + Z.of_nat (length cs) < 2 ^ 31 →
  ∃ this' v' l' m',
    invoke_all cs this = Returns this' ∧
    Post.viewCount this' = Some v' ∧ Post.likeCount this' = Some l' ∧
    Post.commentCount this' = Some m' ∧
    0 ≤ v' ≤ v + Z.of_nat (length cs) ∧
    0 ≤ l' ≤ l + Z.of_nat (length cs) ∧
    0 ≤ m' ≤ m + Z.of_nat (length cs).
Proof.
  revert this v l m. induction cs as [|c cs IH]; intros this v l m Hv Hl Hm Bv Bl Bm Cv Cl Cm.
  - exists this, v, l, m. cbn. repeat split; auto; lia.
  - cbn [length] in *.
    destruct (invoke_counters c this v l m Hv Hl Hm) as
      (this1 & v1 & l1 & m1 & Hc & Hv1 & Hl1 & Hm1 & Bv1 & Bl1 & Bm1); try lia.
    destruct (IH this1 v1 l1 m1 Hv1 Hl1 Hm1) as
      (this' & v' & l' & m' & Hcs & Hv' & Hl' & Hm' & Bv' & Bl' & Bm'); try lia.
    exists this', v', l', m'. cbn [invoke_all]. rewrite Hc. cbn.
    repeat split; auto; lia.
Qed.

(** X22. The calls of [publish], [draft], [archive], the five counter methods
    and [calculateReadingTime] do not change what the search index stores of
    a post: after any sequence of them that returns, [indexPost] of the post
    does to every service what it did before, so a view, a like or a
    publication needs no new indexing. *)
Theorem entity_calls_keep_the_index_entry (cs : list call) (this this' : Post.t)
    (service : SearchService) :
  invoke_all cs this = Returns this' →
  indexPost this' service = indexPost this service.
Proof.
  intros Hcs. destruct (invoke_all_Returns cs _ _ Hcs) as (H1 & H2 & H3 & H4 & H5 & _).
  unfold indexPost. now rewrite H1, H2, H3, H4, H5.
Qed.


(** X24. The reading time: [content.split("\\s+")] returns an array whose
    length is the number of words of the content, one more when whitespace
    comes before the first word, and 1 for the empty content; and for up to
    20000 such words [calculateReadingTime] sets the reading time to that
    number divided by 200 and rounded up, and to 1 at least. *)
Theorem reading_time_from_words (this : Post.t) (content : string) :
  Post.content this = Some content →
  Z.of_nat (split_length content) ≤ 20000 →
  ∃ words,
    split content "\s+" = Returns words ∧
    length words = split_length content ∧
    calculateReadingTime this =
      Returns (set_readingTime
                 (Some (Z.max 1 ((Z.of_nat (split_length content) + 199) / 200)))
                 this).
Proof.
  intros Hc Hw. destruct (split_whitespace content) as (words & Hs & Hlen).
  exists words. split; [exact Hs|]. split; [exact Hlen|].
  unfold calculateReadingTime. rewrite Hc, Hs.
  unfold mbind, outcome_mbind, outcome_bind. cbv beta iota zeta. rewrite Hlen.
  rewrite reading_minutes by lia. reflexivity.
Qed.

End PostProperties.

From stdpp Require sorting.

Section ScoresAgain.

#[local] Arguments rank : simpl never.
#[local] Arguments normalizeQuery : simpl never.
#[local] Arguments subList : simpl never.
#[local] Arguments PageImpl : simpl never.

Lemma score_values_antisym (a b : float) :
  a ∈ score_values → b ∈ score_values →
  (b <=? a)%float = true → (a <=? b)%float = true → a = b.
Proof.
  unfold score_values. intros Ha Hb.
  repeat (apply elem_of_cons in Ha as [-> | Ha]);
    try (apply elem_of_nil in Ha; contradiction);
    repeat (apply elem_of_cons in Hb as [-> | Hb]);
    try (apply elem_of_nil in Hb; contradiction);
    intros H1 H2; first [reflexivity | discriminate H1 | discriminate H2].
Qed.

Lemma positive_score_values (a : float) :
  a ∈ score_values → (0 <? a)%float = true → a ∈ [1; 2; 3; 4; 5; 6]%float.
Proof.
  unfold score_values. intros Ha Hpos.
  apply elem_of_cons in Ha as [-> | Ha]; [discriminate | exact Ha].
Qed.

(** The scores of ranked results, in their order, are fixed by the results
    as a collection. *)
Lemma rank_scores_unique (vals1 vals2 : list SearchIndex.t) (q : string)
    (results1 results2 : list SearchResult.t) :
  rank vals1 q = Returns results1 → rank vals2 q = Returns results2 →
  results1 ≡ₚ results2 →
  SearchResult.score <$> results1 = SearchResult.score <$> results2.
Proof.
  intros H1 H2 Hperm.
  destruct (rank_sorted vals1 q results1 H1) as (Hv1 & _ & Hs1).
  destruct (rank_sorted vals2 q results2 H2) as (Hv2 & _ & Hs2).
  apply (sorting.StronglySorted_unique_strong (λ a b, (b <=? a)%float = true)).
  - intros a b Ha Hb Hab Hba.
    apply list_elem_of_fmap in Ha as (ra & -> & Ha).
    apply list_elem_of_fmap in Hb as (rb & -> & Hb).
    rewrite Forall_forall in Hv1, Hv2.
    exact (score_values_antisym _ _ (Hv1 _ Ha) (Hv2 _ Hb) Hab Hba).
  - clear - Hs1. induction Hs1 as [|r l _ IH Hr]; [constructor|].
    cbn. constructor; [exact IH|]. now apply Forall_fmap.
  - clear - Hs2. induction Hs2 as [|r l _ IH Hr]; [constructor|].
    cbn. constructor; [exact IH|]. now apply Forall_fmap.
  - now apply fmap_Permutation.
Qed.

Section OneTraversal.

Variable values : gmap Z SearchIndex.t → list SearchIndex.t.

(** X25. Every response of a returned page has one of the scores 1.0,
    2.0, 3.0, 4.0, 5.0 and 6.0, and the scores of a page do not increase
    from one response to the next. *)
Theorem page_scores (this this' : SearchService) (query : string)
    (pageable : Pageable) (page : Page) :
  searchPosts values (Some query) pageable this = (Returns page, this') →
  Forall (λ response,
            PostResponse.searchScore response ∈ [1; 2; 3; 4; 5; 6]%float)
         (getContent page) ∧
  StronglySorted
    (λ a b, (PostResponse.searchScore b <=? PostResponse.searchScore a)%float = true)
    (getContent page).
Proof.
  intros Hpage.
  destruct (searchPosts_Returns values _ _ _ _ _ Hpage)
    as (nq & results & paged & responses & _ & _ & Hrank & Hsub & Hconv & -> & _).
  destruct (rank_sorted _ _ _ Hrank) as (Hv & Hpos & Hs).
  unfold PageImpl. cbn [getContent]. apply mapM_Returns in Hconv.
  assert (Hscores : Forall2 (λ r response,
            PostResponse.searchScore response = SearchResult.score r) paged responses).
  { eapply Forall2_impl; [exact Hconv|]. cbn. intros r response Hr.
    now destruct (convertToPostResponse_Returns _ _ _ Hr) as (-> & _). }
  assert (Hpaged : paged = take (Z.to_nat (page_end pageable (length results)
                                           - page_start pageable))
                                (drop (Z.to_nat (page_start pageable)) results)).
  { revert Hsub. unfold subList.
    destruct (page_start pageable <? 0); [discriminate|].
    destruct (Z.of_nat (length results) <? page_end pageable (length results));
      [discriminate|].
    destruct (page_end pageable (length results) <? page_start pageable);
      [discriminate|].
    now intros [= <-]. }
  assert (Hsorted : StronglySorted
            (λ a b, (SearchResult.score b <=? SearchResult.score a)%float = true)
            paged).
  { rewrite Hpaged.
    set (rest := drop (Z.to_nat (page_start pageable)) results).
    set (n := Z.to_nat (page_end pageable (length results) - page_start pageable)).
    apply (sorting.StronglySorted_app_1_l _ _ (drop n rest)).
    rewrite take_drop. unfold rest.
    apply (sorting.StronglySorted_app_1_r _
             (take (Z.to_nat (page_start pageable)) results)).
    rewrite take_drop. exact Hs. }
  assert (Hin : Forall (λ r, SearchResult.score r ∈ [1; 2; 3; 4; 5; 6]%float) paged).
  { apply Forall_forall. intros r Hr.
    pose proof (subList_elem_of _ _ _ _ _ Hsub Hr) as Hr'.
    rewrite Forall_forall in Hv, Hpos.
    exact (positive_score_values _ (Hv _ Hr') (Hpos _ Hr')). }
  clear - Hscores Hsorted Hin. split.
  - clear Hsorted. revert Hin.
    induction Hscores as [|r response paged responses Hr _ IH]; intros Hin;
      [constructor|].
    inversion Hin as [|? ? Hr0 Hin']; subst.
    constructor; [rewrite Hr; exact Hr0 | exact (IH Hin')].
  - clear Hin. revert Hsorted.
    induction Hscores as [|r response paged responses Hr Hrest IH];
      intros Hsorted; [constructor|].
    inversion Hsorted as [|? ? Hs' Hall]; subst.
    constructor; [exact (IH Hs')|].
    clear - Hr Hrest Hall. revert Hall.
    induction Hrest as [|r' response' ? ? Hr' _ IH']; intros Hall; [constructor|].
    inversion Hall as [|? ? Hle Hall']; subst.
    constructor; [rewrite Hr, Hr'; exact Hle | exact (IH' Hall')].
Qed.

End OneTraversal.

Section TwoTraversals.

Variables values1 values2 : gmap Z SearchIndex.t → list SearchIndex.t.
Hypothesis values1_perm : ∀ m, values1 m ≡ₚ (map_to_list m).*2.
Hypothesis values2_perm : ∀ m, values2 m ≡ₚ (map_to_list m).*2.

(** X26. The order in which the index is traversed decides the order of
    ties and nothing else: when the search returns under one traversal
    order, it returns under any other, with the same results as a
    collection and the same sequence of scores. *)
Theorem scores_do_not_depend_on_traversal (this : SearchService) (nq : string)
    (results1 : list SearchResult.t) :
  performSearch values1 nq this = (Returns results1, this) →
  ∃ results2,
    performSearch values2 nq this = (Returns results2, this) ∧
    results2 ≡ₚ results1 ∧
    SearchResult.score <$> results2 = SearchResult.score <$> results1.
Proof.
  rewrite performSearch_rank. intros [= Hrank1].
  destruct (rank_total values2 values2_perm (searchIndex this) nq)
    as [results2 Hrank2].
  { exact (rank_Returns_each values1 values1_perm _ _ _ Hrank1). }
  exists results2. split; [now rewrite performSearch_rank, Hrank2|].
  assert (Hperm : results2 ≡ₚ results1).
  { rewrite (rank_matching values1 values1_perm _ _ _ Hrank1).
    exact (rank_matching values2 values2_perm _ _ _ Hrank2). }
  split; [exact Hperm|].
  exact (rank_scores_unique _ _ _ _ _ Hrank2 Hrank1 Hperm).
Qed.

End TwoTraversals.

End ScoresAgain.

(** ** The further properties at the example data *)

Lemma three_posts_well_keyed : well_keyed (searchIndex Examples.three_posts).
Proof.
  change (map_Forall (λ k e, SearchIndex.id e = k) (searchIndex Examples.three_posts)).
  apply (bool_decide_unpack _). vm_compute. exact I.
Qed.

Lemma two_posts_fields_present (m : gmap Z SearchIndex.t) :
  bool_decide (map_Forall (λ (_ : Z) index,
                 is_Some (SearchIndex.title index) ∧
                 is_Some (SearchIndex.content index) ∧
                 Forall is_Some (SearchIndex.tags index)) m) = true →
  ∀ k index, m !! k = Some index →
    is_Some (SearchIndex.title index) ∧ is_Some (SearchIndex.content index) ∧
    Forall is_Some (SearchIndex.tags index).
Proof. intros H. exact (bool_decide_eq_true_1 _ H). Qed.

(** X2 at the two posts: "  Spring   BOOT " and "spring boot". *)
Lemma search_depends_on_normal_form_witness :
  searchPosts gmap_values (Some "  Spring   BOOT "%string) Examples.first_page
    Examples.two_posts
  = searchPosts gmap_values (Some "spring boot"%string) Examples.first_page
      Examples.two_posts ∧
  ∃ nq, normalizeQuery "  Spring   BOOT " = Returns nq ∧ isEmpty (trim nq) = false ∧
        searchPosts gmap_values (Some nq) Examples.first_page Examples.two_posts
        = searchPosts gmap_values (Some "  Spring   BOOT "%string) Examples.first_page
            Examples.two_posts.
Proof.
  apply (search_depends_on_normal_form gmap_values Examples.two_posts
           "  Spring   BOOT " "spring boot" Examples.first_page);
    vm_compute; reflexivity.
Defined.

(** X3 at the three posts: the second page of one result for "guide". *)
Lemma page_inside_results_witness :
  let pageable := {| pageNumber := 1; pageSize := 1 |} in
  let slice := take 1 (drop 1 Examples.guide_results) in
  searchPosts gmap_values (Some "guide"%string) pageable Examples.three_posts =
    (responses ← mapM (λ r, (convertToPostResponse r Examples.three_posts).1) slice;
     Returns (PageImpl responses pageable 2), Examples.three_posts) ∧
  ∀ page,
    (searchPosts gmap_values (Some "guide"%string) pageable Examples.three_posts).1
      = Returns page →
    mapM (λ r, (convertToPostResponse r Examples.three_posts).1) slice
      = Returns (getContent page) ∧
    Z.of_nat (length (getContent page)) = Z.min 1 (2 - 1) ∧
    getTotalElements page = 2.
Proof.
  apply (page_inside_results gmap_values Examples.three_posts "guide" "guide"
           Examples.guide_results {| pageNumber := 1; pageSize := 1 |}).
  - reflexivity.
  - vm_compute. reflexivity.
  - vm_compute. reflexivity.
  - vm_compute. split; discriminate.
  - vm_compute. discriminate.
  - vm_compute. reflexivity.
Defined.

(** X4 at the two posts: page 1 of size 2^31 - 1, whose offset is below 2^31
    while offset + page size is not. *)
Lemma page_beyond_results_witness :
  searchPosts gmap_values (Some "spring"%string)
    {| pageNumber := 1; pageSize := 2147483647 |} Examples.two_posts
  = (Throws (IllegalArgumentException FromIndexAfterToIndex), Examples.two_posts).
Proof.
  apply (page_beyond_results gmap_values Examples.two_posts "spring" "spring"
           MoreExamples.spring_results {| pageNumber := 1; pageSize := 2147483647 |}).
  - reflexivity.
  - vm_compute. reflexivity.
  - vm_compute. reflexivity.
  - vm_compute. split; reflexivity.
Defined.

(** X5 at the two posts: page 2^30 of size 2, whose offset is 2^31. *)
Lemma page_offset_overflow_witness :
  searchPosts gmap_values (Some "spring"%string)
    {| pageNumber := 1073741824; pageSize := 2 |} Examples.two_posts
  = (Throws IndexOutOfBoundsException, Examples.two_posts).
Proof.
  apply (page_offset_overflow gmap_values Examples.two_posts "spring" "spring"
           MoreExamples.spring_results {| pageNumber := 1073741824; pageSize := 2 |}).
  - reflexivity.
  - vm_compute. reflexivity.
  - vm_compute. reflexivity.
  - vm_compute. split; [discriminate | reflexivity].
Defined.

(** X6 at the index with the ghost post: the first page for "guide". *)
Lemma page_with_missing_post_witness :
  searchPosts gmap_values (Some "guide"%string) Examples.first_page MoreExamples.dangling
  = (Throws (RuntimeException 4), MoreExamples.dangling).
Proof.
  apply (page_with_missing_post gmap_values MoreExamples.dangling "guide" "guide"
           MoreExamples.dangling_results (take 1 MoreExamples.dangling_results)
           (drop 2 MoreExamples.dangling_results) MoreExamples.ghost_result
           Examples.first_page).
  - reflexivity.
  - vm_compute. reflexivity.
  - vm_compute. reflexivity.
  - vm_compute. split; discriminate.
  - vm_compute. discriminate.
  - vm_compute. reflexivity.
  - vm_compute. reflexivity.
  - repeat constructor. exists Examples.cpp_guide. split; [reflexivity | eexists; reflexivity].
  - vm_compute. reflexivity.
Defined.

(** X7 at the two posts: the first page for "spring". *)
Lemma responses_come_from_the_repository_witness :
  ∃ nq results paged,
    normalizeQuery "spring" = Returns nq ∧
    performSearch gmap_values nq Examples.two_posts = (Returns results, Examples.two_posts) ∧
    subList results (page_start Examples.first_page)
      (page_end Examples.first_page (length results)) = Returns paged ∧
    Forall2 (λ r response,
               ∃ post author,
                 postRepository Examples.two_posts !! SearchResult.id r = Some post ∧
                 Post.author post = Some author ∧
                 PostResponse.id response = Post.id post ∧
                 PostResponse.title response = Post.title post ∧
                 PostResponse.content response = Post.content post ∧
                 PostResponse.authorName response = User.username author ∧
                 PostResponse.highlightedTitle response
                   = SearchResult.highlightedTitle r ∧
                 PostResponse.highlightedContent response
                   = SearchResult.highlightedContent r ∧
                 PostResponse.searchScore response = SearchResult.score r)
            paged (getContent MoreExamples.spring_page).
Proof.
  apply (responses_come_from_the_repository gmap_values Examples.two_posts
           Examples.two_posts "spring" Examples.first_page MoreExamples.spring_page).
  vm_compute. reflexivity.
Defined.

(** X8 on a new service: two posts indexed, a call with a null id between. *)
Lemma index_entries_keep_their_keys_witness :
  let us := [IndexPost Examples.spring_guide; IndexPost Examples.docker_tips;
             RemovePostFromIndex None; IndexPost Examples.cpp_guide] in
  well_keyed (searchIndex (mapM update us Examples.empty_service).2) ∧
  postRepository (mapM update us Examples.empty_service).2
    = postRepository Examples.empty_service ∧
  ∀ u, update u Examples.empty_service
         = (Throws NullPointerException, Examples.empty_service) ∨
       ∃ this', update u Examples.empty_service = (Returns tt, this').
Proof.
  apply (index_entries_keep_their_keys
           [IndexPost Examples.spring_guide; IndexPost Examples.docker_tips;
            RemovePostFromIndex None; IndexPost Examples.cpp_guide]
           Examples.empty_service).
  change (map_Forall (λ k e, SearchIndex.id e = k) (searchIndex Examples.empty_service)).
  apply (bool_decide_unpack _). vm_compute. exact I.
Defined.

(** X10 at the two posts: the first post indexed again under another title. *)
Lemma indexPost_last_write_wins_witness :
  indexPost MoreExamples.spring_guide_retitled
    (indexPost Examples.spring_guide Examples.two_posts).2
  = indexPost MoreExamples.spring_guide_retitled Examples.two_posts.
Proof.
  apply (indexPost_last_write_wins Examples.spring_guide
           MoreExamples.spring_guide_retitled Examples.two_posts).
  - reflexivity.
  - eexists. reflexivity.
Defined.

(** X11 at the two posts: the third post indexed and removed. *)
Lemma index_then_remove_witness :
  let this' := (indexPost Examples.cpp_guide Examples.two_posts).2 in
  (indexPost Examples.cpp_guide Examples.two_posts).1 = Returns tt ∧
  (removePostFromIndex (Some 3) this').1 = Returns tt ∧
  searchIndex (removePostFromIndex (Some 3) this').2
    = delete 3 (searchIndex Examples.two_posts) ∧
  (searchIndex Examples.two_posts !! 3 = None →
   (removePostFromIndex (Some 3) this').2 = Examples.two_posts).
Proof.
  apply (index_then_remove Examples.cpp_guide 3 Examples.two_posts).
  - reflexivity.
  - eexists. reflexivity.
Defined.

(** X12 at the two posts: indexing the third post and removing the first. *)
Lemma independent_updates_commute_witness :
  let u1 := IndexPost Examples.cpp_guide in
  let u2 := RemovePostFromIndex (Some 1) in
  (update u2 (update u1 Examples.two_posts).2).2
    = (update u1 (update u2 Examples.two_posts).2).2 ∧
  (update u1 (update u2 Examples.two_posts).2).1 = (update u1 Examples.two_posts).1 ∧
  (update u2 (update u1 Examples.two_posts).2).1 = (update u2 Examples.two_posts).1.
Proof.
  apply (independent_updates_commute (IndexPost Examples.cpp_guide)
           (RemovePostFromIndex (Some 1)) Examples.two_posts).
  vm_compute. discriminate.
Defined.

(** X9 at the three posts and the query "guide". *)
Lemma results_have_distinct_ids_witness :
  NoDup (SearchResult.id <$> Examples.guide_results) ∧
  Forall (λ r, ∃ index,
            searchIndex Examples.three_posts !! SearchResult.id r = Some index ∧
            calculateRelevance index "guide" = Returns r) Examples.guide_results.
Proof.
  apply (results_have_distinct_ids gmap_values gmap_values_perm Examples.three_posts
           Examples.three_posts "guide" Examples.guide_results).
  - exact three_posts_well_keyed.
  - vm_compute. reflexivity.
Defined.

(** X13 at the three posts: the first post removed, the query "guide". *)
Lemma search_after_removal_witness :
  let this' := (removePostFromIndex (Some 1) Examples.three_posts).2 in
  ∃ results',
    performSearch gmap_values "guide" this' = (Returns results', this') ∧
    results' ≡ₚ filter (λ r, SearchResult.id r ≠ 1) Examples.guide_results ∧
    Forall (λ r, SearchResult.id r ≠ 1) results'.
Proof.
  apply (search_after_removal gmap_values gmap_values_perm Examples.three_posts 1
           "guide" Examples.guide_results).
  - exact three_posts_well_keyed.
  - vm_compute. reflexivity.
Defined.

(** X14 at the two posts: the third post indexed, the query "guide". *)
Lemma search_after_indexing_witness :
  let this' := (indexPost Examples.cpp_guide Examples.two_posts).2 in
  ∃ results',
    performSearch gmap_values "guide" this' = (Returns results', this') ∧
    results' ≡ₚ (if (0 <? SearchResult.score MoreExamples.cpp_result)%float
                 then [MoreExamples.cpp_result] else [])
                ++ filter (λ r', SearchResult.id r' ≠ 3) MoreExamples.guide_results_of_two ∧
    SearchResult.id MoreExamples.cpp_result = 3.
Proof.
  apply (search_after_indexing gmap_values gmap_values_perm Examples.two_posts
           Examples.cpp_guide 3 [{| Tag.name := Some "cpp"%string |}] "guide"
           MoreExamples.guide_results_of_two MoreExamples.cpp_result).
  - change (map_Forall (λ k e, SearchIndex.id e = k) (searchIndex Examples.two_posts)).
    apply (bool_decide_unpack _). vm_compute. exact I.
  - reflexivity.
  - reflexivity.
  - vm_compute. reflexivity.
  - vm_compute. reflexivity.
Defined.

(** X15 at the two posts: the post without title indexed, the query "spring". *)
Lemma null_field_breaks_every_search_witness :
  (indexPost MoreExamples.nameless Examples.two_posts).1 = Returns tt ∧
  (searchPosts gmap_values (Some "spring"%string) Examples.first_page
     (indexPost MoreExamples.nameless Examples.two_posts).2).1
    = Throws NullPointerException.
Proof.
  apply (null_field_breaks_every_search gmap_values gmap_values_perm Examples.two_posts
           MoreExamples.nameless 8 [] "spring" "spring" Examples.first_page).
  - reflexivity.
  - reflexivity.
  - left. reflexivity.
  - reflexivity.
  - vm_compute. reflexivity.
  - eexists. vm_compute. reflexivity.
Defined.

(** X16 at the query "*": a post with an asterisk in its title, and one with
    an asterisk in a tag only. *)
Lemma malformed_query_fails_on_a_hit_witness :
  performSearch gmap_values "*" MoreExamples.with_starred
    = (Throws PatternSyntaxException, MoreExamples.with_starred) ∧
  ∃ results,
    performSearch gmap_values "*" MoreExamples.with_star_tagged
      = (Returns results, MoreExamples.with_star_tagged) ∧
    Forall (λ r, SearchResult.score r = 2%float ∧
                 SearchResult.highlightedTitle r = SearchResult.title r ∧
                 SearchResult.highlightedContent r = SearchResult.content r)
           results.
Proof.
  split.
  - apply (malformed_query_fails_on_a_hit gmap_values gmap_values_perm
             MoreExamples.with_starred "*").
    + vm_compute. reflexivity.
    + apply two_posts_fields_present. vm_compute. reflexivity.
    + exists 5, (Examples.entry MoreExamples.starred). split; vm_compute; reflexivity.
  - apply (malformed_query_fails_on_a_hit gmap_values gmap_values_perm
             MoreExamples.with_star_tagged "*").
    + vm_compute. reflexivity.
    + apply two_posts_fields_present. vm_compute. reflexivity.
    + change (map_Forall (λ (_ : Z) index,
                (field_contains (SearchIndex.title index) "*"
                 || field_contains (SearchIndex.content index) "*") = false)
              (searchIndex MoreExamples.with_star_tagged)).
      apply (bool_decide_unpack _). vm_compute. exact I.
Defined.


(** X19 at the first post and the query "spring". *)
Lemma literal_query_is_marked_witness :
  ∃ r, calculateRelevance (Examples.entry Examples.spring_guide) "spring" = Returns r ∧
       SearchResult.highlightedTitle r =
         Some (if contains (toLowerCase "Spring Boot Guide") (toLowerCase "spring")
               then mark_occurrences "spring" "Spring Boot Guide" 0
               else "Spring Boot Guide"%string) ∧
       SearchResult.highlightedContent r =
         Some (if contains (toLowerCase "Learn Spring Boot basics") (toLowerCase "spring")
               then mark_occurrences "spring" "Learn Spring Boot basics" 0
               else "Learn Spring Boot basics"%string).
Proof.
  apply (literal_query_is_marked (Examples.entry Examples.spring_guide) "spring"
           "Spring Boot Guide" "Learn Spring Boot basics").
  - reflexivity.
  - reflexivity.
  - reflexivity.
  - repeat constructor; eexists; reflexivity.
Defined.

(** X20 at the first post: published at 100, and again at 200 later on. *)
Lemma publication_time_is_kept_witness :
  PostMethods.isPublished
    (PostMethods.publish 100 (PostMethods.draft Examples.spring_guide)) = true ∧
  Post.publishedAt (PostMethods.publish 100 (PostMethods.draft Examples.spring_guide))
    = Some (default 100 (Post.publishedAt (PostMethods.draft Examples.spring_guide))) ∧
  Post.publishedAt PostExamples.republished
    = Some (default 100 (Post.publishedAt (PostMethods.draft Examples.spring_guide))).
Proof.
  apply (publication_time_is_kept 100 PostExamples.calls_after_publication
           (PostMethods.draft Examples.spring_guide) PostExamples.republished).
  vm_compute. reflexivity.
Defined.

(** X21 at the first post, whose counts are 0. *)
Lemma counters_stay_non_negative_witness :
  ∃ this' v' l' m',
    PostMethods.invoke_all PostExamples.calls_after_publication Examples.spring_guide
      = Returns this' ∧
    Post.viewCount this' = Some v' ∧ Post.likeCount this' = Some l' ∧
    Post.commentCount this' = Some m' ∧
    0 ≤ v' ≤ 0 + Z.of_nat (length PostExamples.calls_after_publication) ∧
    0 ≤ l' ≤ 0 + Z.of_nat (length PostExamples.calls_after_publication) ∧
    0 ≤ m' ≤ 0 + Z.of_nat (length PostExamples.calls_after_publication).
Proof.
  apply (counters_stay_non_negative PostExamples.calls_after_publication
           Examples.spring_guide 0 0 0); first [reflexivity | vm_compute; discriminate].
Defined.

(** X22 at the first post and the service with the two posts. *)
Lemma entity_calls_keep_the_index_entry_witness :
  indexPost PostExamples.republished Examples.two_posts
  = indexPost (PostMethods.draft Examples.spring_guide) Examples.two_posts.
Proof.
  apply (entity_calls_keep_the_index_entry
           (PostMethods.Publish 100 :: PostExamples.calls_after_publication)
           (PostMethods.draft Examples.spring_guide) PostExamples.republished
           Examples.two_posts).
  vm_compute. reflexivity.
Defined.


(** X24 at a content of two words after two spaces. *)
Lemma reading_time_from_words_witness :
  ∃ words,
    split "  two words" "\s+" = Returns words ∧
    length words = split_length "  two words" ∧
    PostMethods.calculateReadingTime PostExamples.indented =
      Returns (PostMethods.set_readingTime
                 (Some (Z.max 1 ((Z.of_nat (split_length "  two words") + 199) / 200)))
                 PostExamples.indented).
Proof.
  apply (reading_time_from_words PostExamples.indented "  two words").
  - reflexivity.
  - vm_compute. discriminate.
Defined.

(** X25 at the two posts: the first page for "spring". *)
Lemma page_scores_witness :
  Forall (λ response, PostResponse.searchScore response ∈ [1; 2; 3; 4; 5; 6]%float)
         (getContent MoreExamples.spring_page) ∧
  StronglySorted
    (λ a b, (PostResponse.searchScore b <=? PostResponse.searchScore a)%float = true)
    (getContent MoreExamples.spring_page).
Proof.
  apply (page_scores gmap_values Examples.two_posts Examples.two_posts "spring"
           Examples.first_page MoreExamples.spring_page).
  vm_compute. reflexivity.
Defined.

Lemma reversed_values_perm (m : gmap Z SearchIndex.t) :
  MoreExamples.reversed_values m ≡ₚ (map_to_list m).*2.
Proof. apply reverse_Permutation. Qed.

(** X26 at the three posts and the query "guide": the order of [map_to_list]
    and the same order backwards. *)
Lemma scores_do_not_depend_on_traversal_witness :
  ∃ results2,
    performSearch MoreExamples.reversed_values "guide" Examples.three_posts
      = (Returns results2, Examples.three_posts) ∧
    results2 ≡ₚ Examples.guide_results ∧
    SearchResult.score <$> results2 = SearchResult.score <$> Examples.guide_results.
Proof.
  apply (scores_do_not_depend_on_traversal gmap_values MoreExamples.reversed_values
           gmap_values_perm reversed_values_perm Examples.three_posts "guide"
           Examples.guide_results).
  vm_compute. reflexivity.
Defined.
